(** * RPack: the sandboxed execution core, embedded in Rocq

    A shallow embedding of the parts of [pkg/rpack] that the specification
    talks about: the path resolvers, the access-control and purity hooks, the
    recorder, the mediated filesystem, the lockfile and the commit phase of
    the executor, together with the line IO and serialisation helpers of the
    script library.

    Go strings are byte strings; they are modelled by [string] (a list of
    8-bit [ascii] characters).  The functions of Go's standard library that
    the code calls ([strings], [path/filepath], [unicode/utf8]) are
    transcribed for the Unix build of Go (separator [/], no volume names). *)

From Stdlib Require Import String Ascii List ZArith Lia Bool.
From Stdlib Require PrimFloat.

Set Warnings "-register-all".
From stdpp Require Import base option gmap strings list.

Import ListNotations.
Local Open Scope string_scope.
Local Open Scope list_scope.

(** Bytes of a Go string. *)
Abbreviation bytes := (list ascii).

Definition b2s (l : bytes) : string := string_of_list_ascii l.
Definition s2b (s : string) : bytes := list_ascii_of_string s.

Lemma b2s_s2b s : b2s (s2b s) = s.
Proof. apply string_of_list_ascii_of_string. Qed.

Lemma s2b_b2s l : s2b (b2s l) = l.
Proof. apply list_ascii_of_string_of_list_ascii. Qed.

Lemma s2b_inj s t : s2b s = s2b t -> s = t.
Proof. intros H. rewrite <- (b2s_s2b s), <- (b2s_s2b t). now rewrite H. Qed.

Lemma s2b_app s t : s2b (s ++ t) = (s2b s ++ s2b t)%list.
Proof. induction s as [|c s IH]; simpl; [reflexivity | now rewrite IH]. Qed.

Definition ascii_eqb (a b : ascii) : bool := Ascii.eqb a b.
Arguments ascii_eqb : simpl never.

Definition bytes_eqb (a b : bytes) : bool := String.eqb (b2s a) (b2s b).

Lemma bytes_eqb_eq a b : bytes_eqb a b = true <-> a = b.
Proof.
  unfold bytes_eqb. rewrite String.eqb_eq. split; [|now intros ->].
  intros H. rewrite <- (s2b_b2s a), <- (s2b_b2s b). now rewrite H.
Qed.

(** ** Package [strings] *)

Module Strings.

(** [strings.HasPrefix] on bytes. *)
Fixpoint has_prefix (s pre : bytes) {struct pre} : bool :=
  match pre, s with
  | [], _ => true
  | _ :: _, [] => false
  | p :: pre', c :: s' => ascii_eqb p c && has_prefix s' pre'
  end.

Definition HasPrefix (s prefix : string) : bool :=
  has_prefix (s2b s) (s2b prefix).

(** [strings.HasSuffix]. *)
Definition HasSuffix (s suffix : string) : bool :=
  has_prefix (rev (s2b s)) (rev (s2b suffix)).

(** [strings.CutPrefix]: [(s, false)] when [prefix] does not lead [s],
    otherwise the rest of [s] and [true]. *)
Definition CutPrefix (s prefix : string) : string * bool :=
  if HasPrefix s prefix
  then (b2s (drop (length (s2b prefix)) (s2b s)), true)
  else (s, false).

(** Leftmost occurrence of [sep] in [s]: the bytes before and after it. *)
Fixpoint cut (s sep : bytes) : option (bytes * bytes) :=
  if has_prefix s sep then Some ([], drop (length sep) s)
  else match s with
       | [] => None
       | c :: s' =>
           match cut s' sep with
           | Some (b, a) => Some (c :: b, a)
           | None => None
           end
       end.

(** [strings.Cut]. *)
Definition Cut (s sep : string) : string * string * bool :=
  match cut (s2b s) (s2b sep) with
  | Some (b, a) => (b2s b, b2s a, true)
  | None => (s, "", false)
  end.

(** [strings.Contains]. *)
Definition Contains (s substr : string) : bool :=
  match cut (s2b s) (s2b substr) with Some _ => true | None => false end.

(** [strings.Split] for a non-empty separator: cut at every leftmost,
    non-overlapping occurrence.  (With an empty separator Go explodes the
    string into UTF-8 sequences; the program never does that, and the
    model returns the string unsplit.) *)
Fixpoint split (fuel : nat) (s sep : bytes) : list bytes :=
  match fuel with
  | O => [s]
  | S fuel' =>
      match cut s sep with
      | Some (b, a) => b :: split fuel' a sep
      | None => [s]
      end
  end.

Definition Split (s sep : string) : list string :=
  match s2b sep with
  | [] => [s]
  | _ => map b2s (split (length (s2b s)) (s2b s) (s2b sep))
  end.

(** [strings.Join]. *)
Fixpoint Join (elems : list string) (sep : string) : string :=
  match elems with
  | [] => ""
  | [e] => e
  | e :: rest => (e ++ sep ++ Join rest sep)%string
  end.

End Strings.

(** ** Package [unicode/utf8] *)

Module Utf8.

Definition RuneError : Z := 65533.

Definition byteZ (c : ascii) : Z := Z.of_N (N_of_ascii c).

Definition cont (lo hi : Z) (c : ascii) : bool :=
  (lo <=? byteZ c)%Z && (byteZ c <=? hi)%Z.

(** [utf8.DecodeRuneInString]: the first rune of [s] and its width in
    bytes; [(RuneError, 0)] on the empty string and [(RuneError, 1)] on an
    invalid or truncated encoding. *)
Definition DecodeRune (s : bytes) : Z * nat :=
  match s with
  | [] => (RuneError, 0)
  | s0 :: t =>
      let b0 := byteZ s0 in
      if (b0 <? 128)%Z then (b0, 1)
      else if (b0 <? 194)%Z then (RuneError, 1)
      else if (b0 <? 224)%Z then
        match t with
        | s1 :: _ =>
            if cont 128 191 s1
            then (Z.lor (Z.shiftl (Z.land b0 31) 6) (Z.land (byteZ s1) 63), 2)
            else (RuneError, 1)
        | _ => (RuneError, 1)
        end
      else if (b0 <? 240)%Z then
        let lo := if (b0 =? 224)%Z then 160%Z else 128%Z in
        let hi := if (b0 =? 237)%Z then 159%Z else 191%Z in
        match t with
        | s1 :: s2 :: _ =>
            if negb (cont lo hi s1) then (RuneError, 1)
            else if negb (cont 128 191 s2) then (RuneError, 1)
            else (Z.lor (Z.shiftl (Z.land b0 15) 12)
                    (Z.lor (Z.shiftl (Z.land (byteZ s1) 63) 6)
                       (Z.land (byteZ s2) 63)), 3)
        | _ => (RuneError, 1)
        end
      else if (b0 <? 245)%Z then
        let lo := if (b0 =? 240)%Z then 144%Z else 128%Z in
        let hi := if (b0 =? 244)%Z then 143%Z else 191%Z in
        match t with
        | s1 :: s2 :: s3 :: _ =>
            if negb (cont lo hi s1) then (RuneError, 1)
            else if negb (cont 128 191 s2) then (RuneError, 1)
            else if negb (cont 128 191 s3) then (RuneError, 1)
            else (Z.lor (Z.shiftl (Z.land b0 7) 18)
                    (Z.lor (Z.shiftl (Z.land (byteZ s1) 63) 12)
                       (Z.lor (Z.shiftl (Z.land (byteZ s2) 63) 6)
                          (Z.land (byteZ s3) 63))), 4)
        | _ => (RuneError, 1)
        end
      else (RuneError, 1)
  end.

End Utf8.

(** ** Package [path/filepath] (Unix) *)

Module Filepath.

Definition Separator : ascii := "/"%char.

Definition IsPathSeparator (c : ascii) : bool := ascii_eqb c Separator.

(** [filepath.IsAbs]: a Unix path is absolute when it starts with [/]. *)
Definition IsAbs (path : string) : bool := Strings.HasPrefix path "/".

(** *** [filepath.Clean]

    The output buffer of the Go code ([lazybuf], bytes [0..w)) is kept as a
    list with the most recently written byte first; [out.w] is its length. *)

(** [r == n || IsPathSeparator(path[r])] for the unread input [p]. *)
Definition elem_end (p : bytes) : bool :=
  match p with
  | [] => true
  | c :: _ => IsPathSeparator c
  end.

(** The inner loop of the [..] case, after [out.w--]: [d] is the byte at
    index [out.w], [out] the bytes below it. *)
Fixpoint backtrack (dotdot : nat) (d : ascii) (out : bytes) : bytes :=
  match out with
  | [] => []
  | d' :: out' =>
      if (dotdot <? length out)%nat && negb (IsPathSeparator d)
      then backtrack dotdot d' out'
      else out
  end.

(** Copy a path element: up to the next separator or the end. *)
Fixpoint copy_elem (p out : bytes) : bytes * bytes :=
  match p with
  | [] => ([], out)
  | c :: p' => if IsPathSeparator c then (p, out) else copy_elem p' (c :: out)
  end.

(** The body of the loop [for r < n], on the unread input [c :: p1]: the
    input left to read, the buffer and [dotdot] after the iteration. *)
Definition clean_iter (rooted : bool) (c : ascii) (p1 out : bytes) (dotdot : nat)
    : bytes * bytes * nat :=
  if IsPathSeparator c then
    (* empty path element *)
    (p1, out, dotdot)
  else if ascii_eqb c "." && elem_end p1 then
    (* . element *)
    (p1, out, dotdot)
  else if ascii_eqb c "." &&
          match p1 with
          | c1 :: p2 => ascii_eqb c1 "." && elem_end p2
          | [] => false
          end then
    (* .. element: remove to last separator *)
    let p2 := tl p1 in
    match out with
    | d :: out' =>
        if (dotdot <? length out)%nat then
          (* can backtrack *)
          (p2, backtrack dotdot d out', dotdot)
        else if negb rooted then
          (* cannot backtrack, but not rooted, so append .. element *)
          let out2 := "."%char :: "."%char :: Separator :: out in
          (p2, out2, length out2)
        else (p2, out, dotdot)
    | [] =>
        if negb rooted then (p2, ["."%char; "."%char], 2)
        else (p2, out, dotdot)
    end
  else
    (* real path element: add slash if needed, copy element *)
    let out1 :=
      if (rooted && negb (length out =? 1)%nat)
         || (negb rooted && negb (length out =? 0)%nat)
      then Separator :: out else out in
    let '(rest, out2) := copy_elem (c :: p1) out1 in
    (rest, out2, dotdot).

Fixpoint clean_loop (fuel : nat) (rooted : bool) (p out : bytes)
    (dotdot : nat) : bytes :=
  match fuel with
  | O => out
  | S fuel' =>
      match p with
      | [] => out
      | c :: p1 =>
          let '(rest, out', dotdot') := clean_iter rooted c p1 out dotdot in
          clean_loop fuel' rooted rest out' dotdot'
      end
  end.

Definition clean (path : bytes) : bytes :=
  match path with
  | [] => ["."%char]
  | c :: rest =>
      let out :=
        if IsPathSeparator c
        then clean_loop (length path) true rest [Separator] 1
        else clean_loop (length path) false path [] 0 in
      match out with
      | [] => ["."%char]
      | _ => rev out
      end
  end.

Definition Clean (path : string) : string := b2s (clean (s2b path)).

(** *** [filepath.IsLocal] *)

Definition is_dot_part (part : bytes) : bool :=
  bytes_eqb part ["."%char] || bytes_eqb part ["."%char; "."%char].

(** The loop [for p := path; p != ""] looking for a [.] or [..] part. *)
Fixpoint has_dots (fuel : nat) (p : bytes) : bool :=
  match fuel with
  | O => false
  | S fuel' =>
      match p with
      | [] => false
      | _ =>
          match Strings.cut p [Separator] with
          | Some (part, rest) =>
              if is_dot_part part then true else has_dots fuel' rest
          | None => is_dot_part p
          end
      end
  end.

Definition escapes (path : bytes) : bool :=
  bytes_eqb path ["."%char; "."%char]
  || Strings.has_prefix path ["."%char; "."%char; Separator].

Definition is_local (path : bytes) : bool :=
  match path with
  | [] => false
  | c :: _ =>
      if IsPathSeparator c then false
      else
        let path' := if has_dots (length path) path then clean path else path in
        negb (escapes path')
  end.

Definition IsLocal (path : string) : bool := is_local (s2b path).

(** *** [filepath.Join] *)

Fixpoint Join (elem : list string) : string :=
  match elem with
  | [] => ""
  | e :: rest =>
      if String.eqb e "" then Join rest
      else Clean (Strings.Join elem "/")
  end.

(** *** [filepath.Dir]: everything up to the last separator, cleaned. *)

Fixpoint drop_last_elem (rpath : bytes) : bytes :=
  match rpath with
  | [] => []
  | c :: r => if IsPathSeparator c then rpath else drop_last_elem r
  end.

Definition Dir (path : string) : string :=
  b2s (clean (rev (drop_last_elem (rev (s2b path))))).

(** *** [filepath.Split], [filepath.Base], [filepath.Ext]

    The loops run from the end of the path; they are written on the
    reversed path. *)

(** The bytes after the last separator. *)
Fixpoint take_last_elem (rpath acc : bytes) : bytes :=
  match rpath with
  | [] => acc
  | c :: r => if IsPathSeparator c then acc else take_last_elem r (c :: acc)
  end.

(** [Split] splits the path immediately following the final separator. *)
Definition Split (path : string) : string * string :=
  let rpath := rev (s2b path) in
  (b2s (rev (drop_last_elem rpath)), b2s (take_last_elem rpath [])).

(** Strip trailing slashes. *)
Fixpoint strip_separators (rpath : bytes) : bytes :=
  match rpath with
  | [] => []
  | c :: r => if IsPathSeparator c then strip_separators r else rpath
  end.

Definition Base (path : string) : string :=
  if String.eqb path "" then "."
  else
    match take_last_elem (strip_separators (rev (s2b path))) [] with
    | [] => "/"   (* it had only slashes *)
    | e => b2s e
    end.

(** The suffix beginning at the final dot in the final element. *)
Fixpoint ext (rpath acc : bytes) : bytes :=
  match rpath with
  | [] => []
  | c :: r =>
      if IsPathSeparator c then []
      else if ascii_eqb c "." then c :: acc
      else ext r (c :: acc)
  end.

Definition Ext (path : string) : string := b2s (ext (rev (s2b path)) []).

(** *** [filepath.Match]

    The only error is [ErrBadPattern]; a result is [(matched, err)] with
    [err = true] for it. *)

Definition bslash : ascii := "\"%char.

(** Leading stars of a pattern. *)
Fixpoint scan_stars (pattern : bytes) : bool * bytes :=
  match pattern with
  | c :: p' =>
      if ascii_eqb c "*" then (true, snd (scan_stars p')) else (false, pattern)
  | [] => (false, [])
  end.

(** The [Scan] loop of [scanChunk]: the chunk up to the next star that is
    not inside a character class, and the rest. *)
Fixpoint scan_body (inrange : bool) (pattern : bytes) : bytes * bytes :=
  match pattern with
  | [] => ([], [])
  | c :: p' =>
      if ascii_eqb c bslash then
        match p' with
        | c' :: p'' =>
            let '(chunk, rest) := scan_body inrange p'' in
            (c :: c' :: chunk, rest)
        | [] => ([c], [])
        end
      else if ascii_eqb c "[" then
        let '(chunk, rest) := scan_body true p' in (c :: chunk, rest)
      else if ascii_eqb c "]" then
        let '(chunk, rest) := scan_body false p' in (c :: chunk, rest)
      else if ascii_eqb c "*" && negb inrange then ([], pattern)
      else
        let '(chunk, rest) := scan_body inrange p' in (c :: chunk, rest)
  end.

Definition scanChunk (pattern : bytes) : bool * bytes * bytes :=
  let '(star, p) := scan_stars pattern in
  let '(chunk, rest) := scan_body false p in
  (star, chunk, rest).

(** [getEsc]: one (possibly escaped) rune of a character class; [None] is
    [ErrBadPattern]. *)
Definition getEsc (chunk : bytes) : option (Z * bytes) :=
  match chunk with
  | [] => None
  | c :: chunk' =>
      if ascii_eqb c "-" || ascii_eqb c "]" then None
      else
        let chunk1 := if ascii_eqb c bslash then chunk' else chunk in
        match chunk1 with
        | [] => None
        | _ =>
            let '(r, n) := Utf8.DecodeRune chunk1 in
            if (r =? Utf8.RuneError)%Z && (n =? 1)%nat then None
            else match drop n chunk1 with
                 | [] => None
                 | nchunk => Some (r, nchunk)
                 end
        end
  end.

Definition in_range (lo r hi : Z) : bool := (lo <=? r)%Z && (r <=? hi)%Z.

(** The loop that parses all ranges of a character class; returns the chunk
    after the closing bracket and whether [r] matched a range. *)
Fixpoint class_loop (fuel : nat) (r : Z) (chunk : bytes) (nrange : nat)
    (mtch : bool) : option (bytes * bool) :=
  match fuel with
  | O => None
  | S fuel' =>
      let body :=
        match getEsc chunk with
        | None => None
        | Some (lo, chunk1) =>
            match chunk1 with
            | c1 :: chunk2 =>
                if ascii_eqb c1 "-" then
                  match getEsc chunk2 with
                  | None => None
                  | Some (hi, chunk3) =>
                      class_loop fuel' r chunk3 (S nrange)
                        (mtch || in_range lo r hi)
                  end
                else class_loop fuel' r chunk1 (S nrange)
                       (mtch || in_range lo r lo)
            | [] => None
            end
        end in
      match chunk with
      | c :: chunk' =>
          if ascii_eqb c "]" && (0 <? nrange)%nat then Some (chunk', mtch)
          else body
      | [] => body
      end
  end.

Inductive chunk_result :=
| ChunkErr
| ChunkFail
| ChunkOk (rest : bytes).

(** [matchChunk]: does [chunk] match a prefix of [s]?  After a failure the
    loop goes on over the chunk to check that it is well formed. *)
Fixpoint match_chunk (fuel : nat) (chunk s : bytes) (failed : bool)
    : chunk_result :=
  match fuel with
  | O => ChunkErr
  | S fuel' =>
      match chunk with
      | [] => if failed then ChunkFail else ChunkOk s
      | c :: chunk' =>
          let failed := failed || match s with [] => true | _ => false end in
          let literal (c0 : ascii) (chunk0 : bytes) :=
            if failed then match_chunk fuel' chunk0 s failed
            else match s with
                 | s0 :: s' => match_chunk fuel' chunk0 s' (negb (ascii_eqb c0 s0))
                 | [] => match_chunk fuel' chunk0 s true
                 end in
          if ascii_eqb c "[" then
            let '(r, s1) :=
              if failed then (0%Z, s)
              else let '(r, n) := Utf8.DecodeRune s in (r, drop n s) in
            let '(negated, chunk1) :=
              match chunk' with
              | n :: c1 => if ascii_eqb n "^" then (true, c1) else (false, chunk')
              | [] => (false, chunk')
              end in
            match class_loop (S (length chunk1)) r chunk1 0 false with
            | None => ChunkErr
            | Some (chunk2, mtch) =>
                match_chunk fuel' chunk2 s1 (failed || Bool.eqb mtch negated)
            end
          else if ascii_eqb c "?" then
            if failed then match_chunk fuel' chunk' s failed
            else match s with
                 | s0 :: _ =>
                     match_chunk fuel' chunk' (drop (snd (Utf8.DecodeRune s)) s)
                       (IsPathSeparator s0)
                 | [] => match_chunk fuel' chunk' s true
                 end
          else if ascii_eqb c bslash then
            match chunk' with
            | [] => ChunkErr
            | c' :: chunk'' => literal c' chunk''
            end
          else literal c chunk'
      end
  end.

Definition matchChunk (chunk s : bytes) : chunk_result :=
  match_chunk (S (length chunk)) chunk s false.

Inductive star_result :=
| StarErr
| StarNone
| StarFound (rest : bytes).

(** The loop [for i := 0; i < len(name) && name[i] != Separator; i++] that
    tries the chunk after skipping [i+1] bytes. *)
Fixpoint star_loop (chunk : bytes) (last : bool) (name : bytes) : star_result :=
  match name with
  | [] => StarNone
  | c :: name' =>
      if IsPathSeparator c then StarNone
      else match matchChunk chunk name' with
           | ChunkOk t =>
               if last && negb (bytes_eqb t []) then star_loop chunk last name'
               else StarFound t
           | ChunkErr => StarErr
           | ChunkFail => star_loop chunk last name'
           end
  end.

(** Before returning false with no error, the rest of the pattern is
    checked to be syntactically valid. *)
Fixpoint valid_rest (fuel : nat) (pattern : bytes) : bool :=
  match fuel with
  | O => true
  | S fuel' =>
      match pattern with
      | [] => true
      | _ =>
          let '(_, chunk, rest) := scanChunk pattern in
          match matchChunk chunk [] with
          | ChunkErr => false
          | _ => valid_rest fuel' rest
          end
      end
  end.

Fixpoint match_loop (fuel : nat) (pattern name : bytes) : bool * bool :=
  match fuel with
  | O => (false, true)
  | S fuel' =>
      match pattern with
      | [] => (bytes_eqb name [], false)
      | _ =>
          let '(star, chunk, rest) := scanChunk pattern in
          let last := bytes_eqb rest [] in
          if star && bytes_eqb chunk [] then
            (* Trailing * matches rest of string unless it has a /. *)
            (negb (existsb IsPathSeparator name), false)
          else
            let unmatched :=
              (false, negb (valid_rest (length rest) rest)) in
            let try_star :=
              if star then
                match star_loop chunk last name with
                | StarFound t => match_loop fuel' rest t
                | StarErr => (false, true)
                | StarNone => unmatched
                end
              else unmatched in
            match matchChunk chunk name with
            | ChunkOk t =>
                if bytes_eqb t [] || negb last then match_loop fuel' rest t
                else try_star
            | ChunkErr => (false, true)
            | ChunkFail => try_star
            end
      end
  end.

(** [Match pattern name = (matched, err)]. *)
Definition Match (pattern name : string) : bool * bool :=
  match_loop (S (length (s2b pattern))) (s2b pattern) (s2b name).

End Filepath.

Arguments Filepath.Clean : simpl never.
Arguments Filepath.Join : simpl never.
Arguments Filepath.IsAbs : simpl never.
Arguments Filepath.IsLocal : simpl never.
Arguments Filepath.Match : simpl never.
Arguments Filepath.Dir : simpl never.

(** ** Packages [crypto/sha256] and [encoding/hex]

    SHA-256 (FIPS 180-4) on 32-bit words carried by [Z]; additions wrap
    modulo [2^32]. *)

Module Sha256.
Local Open Scope Z_scope.

Definition w32 (x : Z) : Z := x mod 4294967296.
Definition add32 (a b : Z) : Z := w32 (a + b).
Definition rotr (n x : Z) : Z :=
  Z.lor (Z.shiftr x n) (w32 (Z.shiftl x (32 - n))).

Definition Ch (x y z : Z) : Z :=
  Z.lxor (Z.land x y) (Z.land (Z.lxor x 4294967295) z).
Definition Maj (x y z : Z) : Z :=
  Z.lxor (Z.lxor (Z.land x y) (Z.land x z)) (Z.land y z).
Definition Sigma0 (x : Z) : Z := Z.lxor (Z.lxor (rotr 2 x) (rotr 13 x)) (rotr 22 x).
Definition Sigma1 (x : Z) : Z := Z.lxor (Z.lxor (rotr 6 x) (rotr 11 x)) (rotr 25 x).
Definition sigma0 (x : Z) : Z := Z.lxor (Z.lxor (rotr 7 x) (rotr 18 x)) (Z.shiftr x 3).
Definition sigma1 (x : Z) : Z := Z.lxor (Z.lxor (rotr 17 x) (rotr 19 x)) (Z.shiftr x 10).

(** The round constants are the first 32 bits of the fractional parts of
    the cube roots of the first 64 primes, the initial hash value those of
    the square roots of the first 8 primes. *)
Definition is_prime (n : Z) : bool :=
  (1 <? n) && forallb (fun d => negb (n mod d =? 0)) (map Z.of_nat (seq 2 (Z.to_nat n - 2))).

Definition primes (count : nat) : list Z :=
  firstn count (List.filter is_prime (map Z.of_nat (seq 2 310))).

(** Integer cube root, bit by bit from the top. *)
Definition icbrt (n : Z) : Z :=
  fold_left (fun r b => let r' := r + Z.shiftl 1 (Z.of_nat b) in
                        if r' * r' * r' <=? n then r' else r)
    (rev (seq 0 36)) 0.

Definition K : list Z :=
  Eval vm_compute in map (fun p => w32 (icbrt (Z.shiftl p 96))) (primes 64).

Definition H0 : list Z :=
  Eval vm_compute in map (fun p => w32 (Z.sqrt (Z.shiftl p 64))) (primes 8).

(** Padding: a [0x80] byte, zeros up to 56 modulo 64, the bit length as a
    big-endian 64-bit integer. *)
Definition be_bytes (n : nat) (x : Z) : list Z :=
  map (fun i => Z.land (Z.shiftr x (8 * Z.of_nat (n - 1 - i))) 255) (seq 0 n).

Definition pad (msg : list Z) : list Z :=
  let len := Z.of_nat (length msg) in
  let zeros := Z.to_nat ((55 - len) mod 64) in
  (msg ++ [128] ++ repeat 0 zeros ++ be_bytes 8 (8 * len))%list.

Fixpoint words (fuel : nat) (bs : list Z) : list Z :=
  match fuel, bs with
  | S f, a :: b :: c :: d :: rest =>
      (Z.shiftl a 24 + Z.shiftl b 16 + Z.shiftl c 8 + d) :: words f rest
  | _, _ => []
  end.

(** Message schedule, most recent word first. *)
Fixpoint schedule (n : nat) (ws : list Z) : list Z :=
  match n with
  | O => ws
  | S n' =>
      let w := add32 (add32 (sigma1 (nth 1 ws 0)) (nth 6 ws 0))
                 (add32 (sigma0 (nth 14 ws 0)) (nth 15 ws 0)) in
      schedule n' (w :: ws)
  end.

Definition round (st : list Z) (kw : Z * Z) : list Z :=
  match st with
  | [a; b; c; d; e; f; g; h] =>
      let t1 := add32 (add32 (add32 h (Sigma1 e)) (add32 (Ch e f g) (fst kw))) (snd kw) in
      let t2 := add32 (Sigma0 a) (Maj a b c) in
      [add32 t1 t2; a; b; c; add32 d t1; e; f; g]
  | _ => st
  end.

Definition compress (h : list Z) (block : list Z) : list Z :=
  let ws := rev (schedule 48 (rev block)) in
  let st := fold_left round (combine K ws) h in
  map (fun p => add32 (fst p) (snd p)) (combine h st).

Fixpoint blocks (fuel : nat) (ws : list Z) (h : list Z) : list Z :=
  match fuel, ws with
  | S f, _ :: _ => blocks f (skipn 16 ws) (compress h (firstn 16 ws))
  | _, _ => h
  end.

Definition sum256 (msg : bytes) : list Z :=
  let p := pad (map (fun c => Z.of_N (N_of_ascii c)) msg) in
  let ws := words (length p) p in
  concat (map (be_bytes 4) (blocks (length ws) ws H0)).

Definition hex_digit (x : Z) : ascii :=
  nth (Z.to_nat x) (s2b "0123456789abcdef") "0"%char.

(** [hex.EncodeToString], also what [fmt.Sprintf("%x")] prints for a byte
    slice. *)
Definition hex (bs : list Z) : string :=
  b2s (concat (map (fun b => [hex_digit (Z.shiftr b 4); hex_digit (Z.land b 15)]) bs)).

Definition Sum (content : string) : string := hex (sum256 (s2b content)).

End Sha256.

(** * Errors and results

    The code builds its errors with [errors.Errorf] and [errors.Wrapf]; an
    error is kept as the format string and its arguments, so that the path a
    message names can be read off. *)

Inductive errno := ENOENT | EISDIR | ENOTDIR | EEXIST | ENOTEMPTY | EINVAL.

Inductive error :=
| Errorf (format : string) (args : list string)
| Wrapf (cause : error) (format : string) (args : list string)
| PathError (op path : string) (err : errno)
| ErrBadPattern
| NilDereference.

Inductive result (A : Type) :=
| Ok (a : A)
| Err (e : error).
Arguments Ok {A} a.
Arguments Err {A} e.

(** [errors.Wrap] and [errors.Wrapf] return nil for a nil error. *)
Definition Wrap (err : option error) (format : string) (args : list string)
    : option error :=
  match err with
  | None => None
  | Some e => Some (Wrapf e format args)
  end.

(** [os.IsNotExist]. *)
Definition IsNotExist (e : error) : bool :=
  match e with
  | PathError _ _ ENOENT => true
  | _ => false
  end.

(** * The operating system's files

    A disk maps a path to what is there: a regular file with its bytes, or a
    directory.  The root [/] and the current directory [.] always exist. *)

Inductive node :=
| File (content : string)
| Directory.

Abbreviation disk := (gmap string node).

Module OS.

Definition node_at (d : disk) (name : string) : option node :=
  if String.eqb name "/" || String.eqb name "." then Some Directory
  else d !! name.

(** [os.Stat]: [Ok isDir], or the error. *)
Definition Stat (d : disk) (name : string) : result bool :=
  match node_at d name with
  | Some (File _) => Ok false
  | Some Directory => Ok true
  | None => Err (PathError "stat" name ENOENT)
  end.

(** [os.ReadFile]. *)
Definition ReadFile (d : disk) (name : string) : result string :=
  match node_at d name with
  | Some (File c) => Ok c
  | Some Directory => Err (PathError "read" name EISDIR)
  | None => Err (PathError "open" name ENOENT)
  end.

(** [os.WriteFile]: creates or truncates the file; its directory must exist. *)
Definition WriteFile (d : disk) (name data : string) : disk * option error :=
  match node_at d name with
  | Some Directory => (d, Some (PathError "open" name EISDIR))
  | _ =>
      match node_at d (Filepath.Dir name) with
      | Some Directory => (<[name := File data]> d, None)
      | Some (File _) => (d, Some (PathError "open" name ENOTDIR))
      | None => (d, Some (PathError "open" name ENOENT))
      end
  end.

(** [os.MkdirAll]: succeeds on an existing directory, fails on a file,
    otherwise makes the parent and then the directory. *)
Fixpoint mkdir_all (fuel : nat) (d : disk) (path : string) : disk * option error :=
  match node_at d path with
  | Some Directory => (d, None)
  | Some (File _) => (d, Some (PathError "mkdir" path ENOTDIR))
  | None =>
      match fuel with
      | O => (d, Some (PathError "mkdir" path EINVAL))
      | S fuel' =>
          match mkdir_all fuel' d (Filepath.Dir path) with
          | (d1, Some e) => (d1, Some e)
          | (d1, None) => (<[path := Directory]> d1, None)
          end
      end
  end.

Definition MkdirAll (d : disk) (path : string) : disk * option error :=
  mkdir_all (String.length path) d path.

(** The entries of a directory: the paths whose parent it is. *)
Definition children (d : disk) (name : string) : list (string * node) :=
  List.filter (fun kn => String.eqb (Filepath.Dir (fst kn)) name
                    && negb (String.eqb (fst kn) name))
    (map_to_list d).

(** [os.Remove]: a file, or an empty directory. *)
Definition Remove (d : disk) (name : string) : disk * option error :=
  match d !! name with
  | Some (File _) => (delete name d, None)
  | Some Directory =>
      match children d name with
      | [] => (delete name d, None)
      | _ => (d, Some (PathError "remove" name ENOTEMPTY))
      end
  | None => (d, Some (PathError "remove" name ENOENT))
  end.

(** [os.Rename] of a regular file: it replaces a regular file at the new
    path and fails on a directory there.  (The program only renames
    regular files; renaming a directory is not modelled and reported as
    an error.) *)
Definition Rename (d : disk) (oldpath newpath : string) : disk * option error :=
  match d !! oldpath with
  | Some (File c) =>
      match node_at d newpath with
      | Some Directory => (d, Some (PathError "rename" newpath EEXIST))
      | _ =>
          match node_at d (Filepath.Dir newpath) with
          | Some Directory => (<[newpath := File c]> (delete oldpath d), None)
          | Some (File _) => (d, Some (PathError "rename" newpath ENOTDIR))
          | None => (d, Some (PathError "rename" newpath ENOENT))
          end
      end
  | Some Directory => (d, Some (PathError "rename" oldpath EINVAL))
  | None => (d, Some (PathError "rename" oldpath ENOENT))
  end.

(** Last element of a path, for the names of directory entries. *)
Fixpoint last_elem (rpath acc : bytes) : bytes :=
  match rpath with
  | [] => acc
  | c :: r => if Filepath.IsPathSeparator c then acc else last_elem r (c :: acc)
  end.

Definition entry_name (path : string) : string :=
  b2s (last_elem (rev (s2b path)) []).

Fixpoint insert_sorted (e : string * bool) (l : list (string * bool))
    : list (string * bool) :=
  match l with
  | [] => [e]
  | x :: l' => if String.leb (fst e) (fst x) then e :: l else x :: insert_sorted e l'
  end.

(** [os.ReadDir]: the entries [(name, isDir)] sorted by file name. *)
Definition ReadDir (d : disk) (name : string) : result (list (string * bool)) :=
  match node_at d name with
  | Some Directory =>
      Ok (foldr insert_sorted []
            (map (fun kn => (entry_name (fst kn),
                             match snd kn with Directory => true | File _ => false end))
               (children d name)))
  | Some (File _) => Err (PathError "readdir" name ENOTDIR)
  | None => Err (PathError "open" name ENOENT)
  end.

End OS.

(** * The file model ([filemodel.go], [FSHandle]) *)

Definition RPackResolver : string := "rpack".
Definition TempResolver : string := "temp".
Definition MapResolver : string := "map".
Definition TargetResolver : string := "target".

Inductive RPackInputType := RPackInputTypeFile | RPackInputTypeDirectory.

Record RPackResolvedInput := {
  Name : string;
  UserPath : string;       (* cleaned up user path, relative and local *)
  ResolvedPath : string;
  Type_ : RPackInputType
}.

(** ** Handles: [FileBackedFSHandle], the one implementation of [FSHandle] *)

Record FSHandle := NewFileBackedFSHandle {
  absPath : string;
  friendlyPath : string;
  resolver : string;
  indirectTargetPath : string
}.

Definition Handle_Read (d : disk) (f : FSHandle) : result string :=
  match OS.ReadFile d (absPath f) with
  | Ok content => Ok content
  | Err e => Err (Wrapf e "Could not read %s" [friendlyPath f])
  end.

Definition Handle_Write (d : disk) (f : FSHandle) (b : string) : disk * option error :=
  match OS.MkdirAll d (Filepath.Dir (absPath f)) with
  | (d1, Some e) => (d1, Some (Wrapf e "Could not write %s" [friendlyPath f]))
  | (d1, None) =>
      match OS.WriteFile d1 (absPath f) b with
      | (d2, Some e) => (d2, Some (Wrapf e "Could not write %s" [friendlyPath f]))
      | (d2, None) => (d2, None)
      end
  end.

(** [func (f *FileBackedFSHandle) Stat() (_dir bool, _exists bool, _err error)]:
    the first result is [fileInfo.IsDir()], the second is [true] when the
    path exists. *)
Definition Handle_Stat (d : disk) (f : FSHandle) : bool * bool * option error :=
  match OS.Stat d (absPath f) with
  | Err e =>
      if IsNotExist e then (false, false, None)
      else (false, false, Some (Wrapf e "Error accessing file: %s" [friendlyPath f]))
  | Ok isDir => (isDir, true, None)
  end.

(** [ReadDir]: the child handles, files and directories apart. *)
Definition Handle_ReadDir (d : disk) (f : FSHandle)
    : result (list FSHandle * list FSHandle) :=
  match OS.ReadDir d (absPath f) with
  | Err e => Err (Wrapf e "Error readdir: %s" [friendlyPath f])
  | Ok entries =>
      let child (e : string * bool) :=
        NewFileBackedFSHandle
          (Filepath.Join [absPath f; fst e])
          (Filepath.Join [friendlyPath f; fst e])
          (resolver f)
          (Filepath.Join [indirectTargetPath f; fst e]) in
      Ok (map child (List.filter (fun e => negb (snd e)) entries),
          map child (List.filter (fun e => snd e) entries))
  end.

(** ** Resolvers *)

Inductive FSResolver :=
| NewFileBackedFSResolver (name prefix baseDir : string)
| NewMapFSResolver (name prefix : string) (resolvedInputs : list RPackResolvedInput).

(** What [Resolve] returns: [(nil, false, nil)], or [matched = true] with a
    handle or with an error. *)
Inductive resolution :=
| NoMatch
| Matched (r : result FSHandle).

Definition FileBacked_Resolve (rname prefix baseDir name : string) : resolution :=
  let '(suffix, found) := Strings.CutPrefix name prefix in
  if negb found then NoMatch
  else
    let cleanPath := Filepath.Clean suffix in
    if Filepath.IsAbs cleanPath then
      Matched (Err (Errorf "Path %q needs to be relative" [name]))
    else if negb (Filepath.IsLocal cleanPath) then
      Matched (Err (Errorf "Path %q needs to be local" [name]))
    else
      let absPath := Filepath.Join [baseDir; cleanPath] in
      let friendlyPath := (prefix ++ cleanPath)%string in
      let indirectTargetPath := cleanPath in
      Matched (Ok (NewFileBackedFSHandle absPath friendlyPath rname indirectTargetPath)).

Definition MapFSResolverPrefix : string := "map:".

Fixpoint find_input (inputs : list RPackResolvedInput) (base : string)
    : option RPackResolvedInput :=
  match inputs with
  | [] => None
  | ri :: rest => if String.eqb (Name ri) base then Some ri else find_input rest base
  end.

Definition Map_Resolve (rname prefix : string)
    (resolvedInputs : list RPackResolvedInput) (name : string) : resolution :=
  let '(suffix, found) := Strings.CutPrefix name prefix in
  if negb found then NoMatch
  else
    let cleanPath := Filepath.Clean suffix in
    if Filepath.IsAbs cleanPath then
      Matched (Err (Errorf "Path %q needs to be relative" [name]))
    else if negb (Filepath.IsLocal cleanPath) then
      Matched (Err (Errorf "Path %q needs to be local" [name]))
    else
      let '(base, nextPath, found) := Strings.Cut suffix "/" in
      match find_input resolvedInputs base with
      | None => Matched (Err (Errorf "Could not find mapped input %s" [name]))
      | Some resolvedInput =>
          let p := ResolvedPath resolvedInput in
          let relPath := UserPath resolvedInput in
          let cleanFriendlyName := (prefix ++ cleanPath)%string in
          if found then
            match Type_ resolvedInput with
            | RPackInputTypeFile =>
                Matched (Err (Errorf "Map path %q is not a directory" [name]))
            | RPackInputTypeDirectory =>
                let cleanNextPath := Filepath.Clean nextPath in
                if Filepath.IsAbs cleanNextPath then
                  Matched (Err (Errorf "Map path %q needs to be relative" [name]))
                else if negb (Filepath.IsLocal cleanNextPath) then
                  Matched (Err (Errorf "Map path %q needs to be local" [name]))
                else
                  Matched (Ok (NewFileBackedFSHandle
                                 (Filepath.Join [p; cleanNextPath])
                                 cleanFriendlyName rname
                                 (Filepath.Join [relPath; cleanNextPath])))
            end
          else
            Matched (Ok (NewFileBackedFSHandle p cleanFriendlyName rname relPath))
      end.

Definition Resolve (r : FSResolver) (name : string) : resolution :=
  match r with
  | NewFileBackedFSResolver rname prefix baseDir =>
      FileBacked_Resolve rname prefix baseDir name
  | NewMapFSResolver rname prefix inputs => Map_Resolve rname prefix inputs name
  end.

(** ** Access types, recorder *)

Inductive FSAccessType :=
| FSAccessTypeRead
| FSAccessTypeWrite
| FSAccessTypeStat
| FSAccessTypeReadDir.

Definition FSAccessType_eqb (a b : FSAccessType) : bool :=
  match a, b with
  | FSAccessTypeRead, FSAccessTypeRead
  | FSAccessTypeWrite, FSAccessTypeWrite
  | FSAccessTypeStat, FSAccessTypeStat
  | FSAccessTypeReadDir, FSAccessTypeReadDir => true
  | _, _ => false
  end.

Definition HandleFilterFn := FSAccessType -> FSHandle -> bool.

Definition TargetTransferHandleFilterFn : HandleFilterFn :=
  fun typ h =>
    if negb (FSAccessType_eqb typ FSAccessTypeWrite) then false
    else if negb (String.eqb (resolver h) TargetResolver) then false
    else true.

Record FSRecorderRecord := {
  Typ : FSAccessType;
  Handle : FSHandle
}.

Record FSRecorder := {
  filterFn : option HandleFilterFn;
  records : list FSRecorderRecord
}.

Definition NewFSRecorder (filterFn : option HandleFilterFn) : FSRecorder :=
  {| filterFn := filterFn; records := [] |}.

Definition Records (f : FSRecorder) : list FSRecorderRecord := records f.

Definition filterRecord (f : FSRecorder) (typ : FSAccessType) (h : FSHandle)
    : FSRecorder :=
  match filterFn f with
  | None => {| filterFn := filterFn f;
               records := records f ++ [{| Typ := typ; Handle := h |}] |}
  | Some fn =>
      if fn typ h
      then {| filterFn := filterFn f;
              records := records f ++ [{| Typ := typ; Handle := h |}] |}
      else f
  end.

(** ** The access-control hook *)

Module RPackAccessControlFSHook.

Definition Read (h : FSHandle) : option error :=
  if String.eqb (resolver h) TargetResolver then
    Some (Errorf "Not allowed to read %s (no access to read from target directory, use 'rpack:' instead)"
            [friendlyPath h])
  else None.

Definition Write (h : FSHandle) : option error :=
  if String.eqb (resolver h) RPackResolver then
    Some (Errorf "Not allowed to write %s, use `temp` instead" [friendlyPath h])
  else if String.eqb (resolver h) MapResolver then
    Some (Errorf "Not allowed to write %s, use `target` instead" [friendlyPath h])
  else None.

Definition ReadDir (h : FSHandle) : option error :=
  if String.eqb (resolver h) TargetResolver then
    Some (Errorf "Not allowed to readdir %s (no access to read from target directory, use 'rpack:' instead)"
            [friendlyPath h])
  else None.

Definition Stat (h : FSHandle) : option error :=
  if String.eqb (resolver h) TargetResolver then
    Some (Errorf "Not allowed to stat %s (no access to read from target directory, use 'rpack:' instead)"
            [friendlyPath h])
  else None.

End RPackAccessControlFSHook.

(** ** The purity hook *)

Record EnsurePure := {
  ReadHandles : list FSHandle;
  ReadDirHandles : list FSHandle;
  StatHandles : list FSHandle;
  WriteHandles : list FSHandle
}.

Module Pure.

Definition empty : EnsurePure :=
  {| ReadHandles := []; ReadDirHandles := []; StatHandles := []; WriteHandles := [] |}.

(** The first error of a loop over a slice with an early return. *)
Fixpoint first_error {A} (f : A -> option error) (l : list A) : option error :=
  match l with
  | [] => None
  | x :: l' =>
      match f x with
      | Some e => Some e
      | None => first_error f l'
      end
  end.

Definition read_conflict (rh wh : FSHandle) : option error :=
  if String.eqb (indirectTargetPath rh) (indirectTargetPath wh) then
    Some (Errorf "Read of %s and write of same file %s not allowed"
            [friendlyPath rh; friendlyPath wh])
  else None.

Definition stat_conflict (sh wh : FSHandle) : option error :=
  if String.eqb (indirectTargetPath sh) (indirectTargetPath wh) then
    Some (Errorf "Stat on %s and write on same file %s not allowed"
            [friendlyPath sh; friendlyPath wh])
  else None.

Definition readdir_conflict (rdh wh : FSHandle) : option error :=
  let '(mtch, err) :=
    Filepath.Match (Filepath.Join [indirectTargetPath rdh; "*"])
      (indirectTargetPath wh) in
  if err then
    Some (Wrapf ErrBadPattern "ReadDir on %s error for pure-check against %s"
            [friendlyPath rdh; friendlyPath wh])
  else if mtch then
    Some (Errorf "ReadDir on %s and write on same directory %s not allowed"
            [friendlyPath rdh; friendlyPath wh])
  else None.

(** [CheckConflicts]: reads against writes, then stats against writes, then
    readdirs against writes. *)
Definition CheckConflicts (f : EnsurePure) : option error :=
  match first_error (fun rh => first_error (read_conflict rh) (WriteHandles f))
          (ReadHandles f) with
  | Some e => Some e
  | None =>
      match first_error (fun sh => first_error (stat_conflict sh) (WriteHandles f))
              (StatHandles f) with
      | Some e => Some e
      | None =>
          first_error (fun rdh => first_error (readdir_conflict rdh) (WriteHandles f))
            (ReadDirHandles f)
      end
  end.

(** The hook methods have a pointer receiver, which [NewRPackFS] leaves nil
    when purity is not enforced; appending through it then panics. *)
Definition Read (f : option EnsurePure) (h : FSHandle)
    : option EnsurePure * option error :=
  if String.eqb (resolver h) MapResolver then
    match f with
    | Some p =>
        (Some {| ReadHandles := ReadHandles p ++ [h];
                 ReadDirHandles := ReadDirHandles p;
                 StatHandles := StatHandles p;
                 WriteHandles := WriteHandles p |}, None)
    | None => (None, Some NilDereference)
    end
  else (f, None).

Definition Write (f : option EnsurePure) (h : FSHandle)
    : option EnsurePure * option error :=
  if String.eqb (resolver h) TargetResolver then
    match f with
    | Some p =>
        (Some {| ReadHandles := ReadHandles p;
                 ReadDirHandles := ReadDirHandles p;
                 StatHandles := StatHandles p;
                 WriteHandles := WriteHandles p ++ [h] |}, None)
    | None => (None, Some NilDereference)
    end
  else (f, None).

Definition ReadDir (f : option EnsurePure) (h : FSHandle)
    : option EnsurePure * option error :=
  if String.eqb (resolver h) MapResolver then
    match f with
    | Some p =>
        (Some {| ReadHandles := ReadHandles p;
                 ReadDirHandles := ReadDirHandles p ++ [h];
                 StatHandles := StatHandles p;
                 WriteHandles := WriteHandles p |}, None)
    | None => (None, Some NilDereference)
    end
  else (f, None).

Definition Stat (f : option EnsurePure) (h : FSHandle)
    : option EnsurePure * option error :=
  if String.eqb (resolver h) MapResolver then
    match f with
    | Some p =>
        (Some {| ReadHandles := ReadHandles p;
                 ReadDirHandles := ReadDirHandles p;
                 StatHandles := StatHandles p ++ [h];
                 WriteHandles := WriteHandles p |}, None)
    | None => (None, Some NilDereference)
    end
  else (f, None).

(** The method that belongs to an access type. *)
Definition call (typ : FSAccessType) (f : option EnsurePure) (h : FSHandle)
    : option EnsurePure * option error :=
  match typ with
  | FSAccessTypeRead => Read f h
  | FSAccessTypeWrite => Write f h
  | FSAccessTypeStat => Stat f h
  | FSAccessTypeReadDir => ReadDir f h
  end.

End Pure.

(** ** Hooks and the base filesystem *)

(** The implementations of [FSAccessHook], each with its state. *)
Inductive FSAccessHook :=
| AccessControlHook
| EnsurePureHook (f : option EnsurePure)
| RecorderHook (f : FSRecorder).

(** Calling the method of a hook that belongs to an access type. *)
Definition hook_call (typ : FSAccessType) (hook : FSAccessHook) (h : FSHandle)
    : FSAccessHook * option error :=
  match hook with
  | AccessControlHook =>
      (AccessControlHook,
       match typ with
       | FSAccessTypeRead => RPackAccessControlFSHook.Read h
       | FSAccessTypeWrite => RPackAccessControlFSHook.Write h
       | FSAccessTypeStat => RPackAccessControlFSHook.Stat h
       | FSAccessTypeReadDir => RPackAccessControlFSHook.ReadDir h
       end)
  | EnsurePureHook f =>
      let '(f', e) := Pure.call typ f h in
      (EnsurePureHook f', e)
  | RecorderHook f => (RecorderHook (filterRecord f typ h), None)
  end.

(** [for _, hook := range fs.Hooks]: in order, the first failure aborts. *)
Fixpoint run_hooks (typ : FSAccessType) (hooks : list FSAccessHook) (h : FSHandle)
    : list FSAccessHook * option error :=
  match hooks with
  | [] => ([], None)
  | hook :: rest =>
      match hook_call typ hook h with
      | (hook', Some e) => (hook' :: rest, Some e)
      | (hook', None) =>
          let '(rest', e) := run_hooks typ rest h in (hook' :: rest', e)
      end
  end.

Record BaseFS := {
  Resolvers : list FSResolver;
  Hooks : list FSAccessHook
}.

Definition with_hooks (fs : BaseFS) (hooks : list FSAccessHook) : BaseFS :=
  {| Resolvers := Resolvers fs; Hooks := hooks |}.

Fixpoint resolve_in (resolvers : list FSResolver) (name : string) : result FSHandle :=
  match resolvers with
  | [] => Err (Errorf "Could not resolve filename %q" [name])
  | r :: rest =>
      match Resolve r name with
      | Matched res => res
      | NoMatch => resolve_in rest name
      end
  end.

Definition resolve (fs : BaseFS) (name : string) : result FSHandle :=
  resolve_in (Resolvers fs) name.

Module Base.

Definition Write (fs : BaseFS) (d : disk) (name b : string)
    : BaseFS * disk * option error :=
  match resolve fs name with
  | Err e => (fs, d, Some e)
  | Ok handle =>
      match run_hooks FSAccessTypeWrite (Hooks fs) handle with
      | (hooks, Some e) => (with_hooks fs hooks, d, Some e)
      | (hooks, None) =>
          let '(d', e) := Handle_Write d handle b in
          (with_hooks fs hooks, d', e)
      end
  end.

Definition Read (fs : BaseFS) (d : disk) (name : string)
    : BaseFS * result string :=
  match resolve fs name with
  | Err e => (fs, Err e)
  | Ok handle =>
      match run_hooks FSAccessTypeRead (Hooks fs) handle with
      | (hooks, Some e) => (with_hooks fs hooks, Err e)
      | (hooks, None) => (with_hooks fs hooks, Handle_Read d handle)
      end
  end.

(** [Stat(name) (exists bool, dir bool, err error)] returns what the
    handle's [Stat] returns, position by position. *)
Definition Stat (fs : BaseFS) (d : disk) (name : string)
    : BaseFS * (bool * bool * option error) :=
  match resolve fs name with
  | Err e => (fs, (false, false, Some e))
  | Ok handle =>
      match run_hooks FSAccessTypeStat (Hooks fs) handle with
      | (hooks, Some e) => (with_hooks fs hooks, (false, false, Some e))
      | (hooks, None) => (with_hooks fs hooks, Handle_Stat d handle)
      end
  end.

(** The [Stat] hooks on each child handle of a directory listing. *)
Fixpoint stat_children (hooks : list FSAccessHook) (handles : list FSHandle)
    : list FSAccessHook * result (list string) :=
  match handles with
  | [] => (hooks, Ok [])
  | handle :: rest =>
      match run_hooks FSAccessTypeStat hooks handle with
      | (hooks1, Some e) => (hooks1, Err e)
      | (hooks1, None) =>
          match stat_children hooks1 rest with
          | (hooks2, Err e) => (hooks2, Err e)
          | (hooks2, Ok names) => (hooks2, Ok (friendlyPath handle :: names))
          end
      end
  end.

Definition ReadDir (fs : BaseFS) (d : disk) (name : string)
    : BaseFS * result (list string * list string) :=
  match resolve fs name with
  | Err e => (fs, Err e)
  | Ok handle =>
      match run_hooks FSAccessTypeStat (Hooks fs) handle with
      | (hooks, Some e) => (with_hooks fs hooks, Err e)
      | (hooks, None) =>
          match Handle_Stat d handle with
          | (_, _, Some e) => (with_hooks fs hooks, Err e)
          | (exists_, dir, None) =>
              if negb exists_ then
                (with_hooks fs hooks, Err (Errorf "Path does not exist: %s" [name]))
              else if negb dir then
                (with_hooks fs hooks, Err (Errorf "Path is not a directory: %s" [name]))
              else
                match run_hooks FSAccessTypeReadDir hooks handle with
                | (hooks1, Some e) => (with_hooks fs hooks1, Err e)
                | (hooks1, None) =>
                    match Handle_ReadDir d handle with
                    | Err e => (with_hooks fs hooks1, Err e)
                    | Ok (files, dirs) =>
                        match stat_children hooks1 files with
                        | (hooks2, Err e) => (with_hooks fs hooks2, Err e)
                        | (hooks2, Ok namesFile) =>
                            match stat_children hooks2 dirs with
                            | (hooks3, Err e) => (with_hooks fs hooks3, Err e)
                            | (hooks3, Ok namesDir) =>
                                (with_hooks fs hooks3, Ok (namesFile, namesDir))
                            end
                        end
                    end
                end
          end
      end
  end.

(** [ReadDirAll]: breadth first, with a queue of directories still to
    list; [fuel] bounds the number of directories listed. *)
Fixpoint read_dir_all (fuel : nat) (fs : BaseFS) (d : disk) (queue : list string)
    (files dirs : list string) : BaseFS * result (list string * list string) :=
  match queue with
  | [] => (fs, Ok (files, dirs))
  | cur :: queue' =>
      match fuel with
      | O => (fs, Err (Errorf "out of fuel" []))
      | S fuel' =>
          match ReadDir fs d cur with
          | (fs1, Err e) => (fs1, Err e)
          | (fs1, Ok (newFiles, newDirs)) =>
              read_dir_all fuel' fs1 d (queue' ++ newDirs)
                (files ++ newFiles) (dirs ++ newDirs)
          end
      end
  end.

Definition ReadDirAll (fuel : nat) (fs : BaseFS) (d : disk) (name : string)
    : BaseFS * result (list string * list string) :=
  read_dir_all fuel fs d [name] [] [].

End Base.

(** ** [RPackFS]

    [PureCheck] and [recorder] point to the objects that are also in the hook
    list; they are read from there. *)

Record RPackFS := { BaseFS_ : BaseFS }.

Definition NewRPackFS (enforcePure : bool)
    (defSourcePath runPath tempPath execPath : string)
    (resolvedInputs : list RPackResolvedInput) : RPackFS :=
  let resolvers :=
    [ NewFileBackedFSResolver RPackResolver "rpack:" defSourcePath;
      NewFileBackedFSResolver TempResolver "temp:" tempPath;
      NewMapFSResolver MapResolver MapFSResolverPrefix resolvedInputs;
      NewFileBackedFSResolver TargetResolver "" runPath ] in
  let pureCheck := if enforcePure then Some Pure.empty else None in
  let recorder := NewFSRecorder None in
  let hooks := [ AccessControlHook; EnsurePureHook pureCheck; RecorderHook recorder ] in
  {| BaseFS_ := {| Resolvers := resolvers; Hooks := hooks |} |}.

Definition PureCheck (fs : RPackFS) : option EnsurePure :=
  match Hooks (BaseFS_ fs) with
  | _ :: EnsurePureHook f :: _ => f
  | _ => None
  end.

Definition Recorder (fs : RPackFS) : FSRecorder :=
  match Hooks (BaseFS_ fs) with
  | _ :: _ :: RecorderHook f :: _ => f
  | _ => NewFSRecorder None
  end.

(** [Check]: the purity gate. *)
Definition Check (fs : RPackFS) : option error :=
  match PureCheck fs with
  | Some p => Wrap (Pure.CheckConflicts p) "Pure Fileaccess check failed" []
  | None => None
  end.

(** [TargetWriteHandles]: all handles that were written to the target. *)
Definition TargetWriteHandles (fs : RPackFS) : list FSHandle :=
  map Handle
    (List.filter (fun record => TargetTransferHandleFilterFn (Typ record) (Handle record))
       (Records (Recorder fs))).

(** ** [InMemoryFS], used for debugging and by the tests *)

Record InMemoryFSEntry := {
  Content : string;
  IsDir : bool
}.

Record InMemoryFS := { Tree : gmap string InMemoryFSEntry }.

Module InMemory.

Definition New : InMemoryFS := {| Tree := ∅ |}.

Definition Mkdir (fs : InMemoryFS) (name : string) : InMemoryFS :=
  {| Tree := <[name := {| Content := ""; IsDir := true |}]> (Tree fs) |}.

Definition Write (fs : InMemoryFS) (name b : string) : InMemoryFS * option error :=
  let fresh := {| Content := ""; IsDir := false |} in
  let tree :=
    match Tree fs !! name with
    | None => <[name := fresh]> (Tree fs)
    | Some _ => Tree fs
    end in
  let entry :=
    match Tree fs !! name with
    | None => fresh
    | Some e => e
    end in
  if IsDir entry then ({| Tree := tree |}, Some (Errorf "%s is directory" [name]))
  else ({| Tree := <[name := {| Content := b; IsDir := IsDir entry |}]> tree |}, None).

Definition Read (fs : InMemoryFS) (name : string) : result string :=
  match Tree fs !! name with
  | None => Err (Wrapf (PathError "" "" ENOENT) "File %s does not exist" [name])
  | Some entry =>
      if IsDir entry then Err (Errorf "%s is directory" [name])
      else Ok (Content entry)
  end.

Definition Stat (fs : InMemoryFS) (name : string) : bool * bool * option error :=
  match Tree fs !! name with
  | None => (false, false, None)
  | Some entry => (true, IsDir entry, None)
  end.

Definition ReadDir (fs : InMemoryFS) (name : string)
    : result (list string * list string) :=
  Err (Errorf "Not yet implemented" []).

Definition ReadDirAll (fs : InMemoryFS) (name : string)
    : result (list string * list string) :=
  Err (Errorf "Not yet implemented" []).

End InMemory.

(** ** The [FS] interface

    A filesystem state of type [T] answers the calls of the interface and
    moves to a new state. *)

Class FS (T : Type) := {
  fs_Write : T -> string -> string -> T * option error;
  fs_Read : T -> string -> T * result string;
  fs_Stat : T -> string -> T * (bool * bool * option error);
  fs_ReadDir : T -> string -> T * result (list string * list string);
  fs_ReadDirAll : T -> string -> T * result (list string * list string)
}.

#[export] Instance InMemoryFS_FS : FS InMemoryFS := {
  fs_Write fs name b := InMemory.Write fs name b;
  fs_Read fs name := (fs, InMemory.Read fs name);
  fs_Stat fs name := (fs, InMemory.Stat fs name);
  fs_ReadDir fs name := (fs, InMemory.ReadDir fs name);
  fs_ReadDirAll fs name := (fs, InMemory.ReadDirAll fs name)
}.

(** An [RPackFS] together with the disk it works on.  [ReadDirAll] lists each
    directory of the disk at most once, which bounds its loop. *)
#[export] Instance RPackFS_FS : FS (RPackFS * disk) := {
  fs_Write st name b :=
    let '(fs, d, e) := Base.Write (BaseFS_ (fst st)) (snd st) name b in
    (({| BaseFS_ := fs |}, d), e);
  fs_Read st name :=
    let '(fs, r) := Base.Read (BaseFS_ (fst st)) (snd st) name in
    (({| BaseFS_ := fs |}, snd st), r);
  fs_Stat st name :=
    let '(fs, r) := Base.Stat (BaseFS_ (fst st)) (snd st) name in
    (({| BaseFS_ := fs |}, snd st), r);
  fs_ReadDir st name :=
    let '(fs, r) := Base.ReadDir (BaseFS_ (fst st)) (snd st) name in
    (({| BaseFS_ := fs |}, snd st), r);
  fs_ReadDirAll st name :=
    let '(fs, r) := Base.ReadDirAll (S (size (snd st))) (BaseFS_ (fst st)) (snd st) name in
    (({| BaseFS_ := fs |}, snd st), r)
}.

(** * Package [util] *)

Module Util.

(** [FileExists] checks if a file exists and is not a directory; the first
    result is [true] also when the error is not nil. *)
Definition FileExists (d : disk) (name : string) : bool * option error :=
  match OS.Stat d name with
  | Err e =>
      if IsNotExist e then (false, None)
      else (true, Some (Wrapf e "Error accessing file: %s" [name]))
  | Ok isDir =>
      if isDir then (true, Some (Errorf "Path is a directory, not a file: %s" [name]))
      else (true, None)
  end.

Definition CheckFileExists (d : disk) (name : string) : option error :=
  match FileExists d name with
  | (_, Some e) => Some e
  | (exists_, None) =>
      if negb exists_ then Some (Errorf "File does not exist: %s" [name])
      else None
  end.

(** [CheckFileOrDirExists]: whether the path is a directory, or the error. *)
Definition CheckFileOrDirExists (d : disk) (name : string) : bool * option error :=
  match OS.Stat d name with
  | Err e =>
      if IsNotExist e then (false, Some (Wrapf e "File or Dir does not exist: %s" [name]))
      else (false, Some (Wrapf e "Error accessing file or dir: %s" [name]))
  | Ok isDir => if isDir then (true, None) else (false, None)
  end.

Definition Sha256String (s : string) : string := Sha256.Sum s.

(** [Sha256File]: opening a missing file fails, and so does reading a
    directory. *)
Definition Sha256File (d : disk) (name : string) : result string :=
  match OS.ReadFile d name with
  | Ok content => Ok (Sha256.Sum content)
  | Err e => Err e
  end.

End Util.

(** * The lockfile *)

Definition RPackLockFileCurrentSchemaVersion : string := "v1".

Record RPackLockFileFile := {
  Path : string;   (* relative to the lockfile directory *)
  Sha : string
}.

Record RPackLockFile := {
  SchemaVersion : string;
  Files : list RPackLockFileFile
}.

Definition NewRPackLockFile : RPackLockFile :=
  {| SchemaVersion := RPackLockFileCurrentSchemaVersion; Files := [] |}.

Definition AddFile (f : RPackLockFile) (path sha : string) : RPackLockFile :=
  {| SchemaVersion := SchemaVersion f;
     Files := Files f ++ [{| Path := path; Sha := sha |}] |}.

(** [RPackLockFile.Validate]. *)
Definition RPackLockFile_Validate (f : RPackLockFile) : option error :=
  if negb (String.eqb (SchemaVersion f) RPackLockFileCurrentSchemaVersion) then
    Some (Errorf "Unsupported lockfile schema version %q, supported %q"
            [SchemaVersion f; RPackLockFileCurrentSchemaVersion])
  else None.

Record RPackLockFileIntegrity := {
  Modified : list string;
  Removed : list string
}.

Fixpoint check_integrity (d : disk) (cleanBase : string)
    (files : list RPackLockFileFile) (res : RPackLockFileIntegrity)
    : result RPackLockFileIntegrity :=
  match files with
  | [] => Ok res
  | file :: rest =>
      let filePath := Filepath.Join [cleanBase; Path file] in
      match Util.CheckFileExists d filePath with
      | Some _ =>
          check_integrity d cleanBase rest
            {| Modified := Modified res; Removed := Removed res ++ [Path file] |}
      | None =>
          match Util.Sha256File d filePath with
          | Err e =>
              Err (Wrapf e "Could not calculate checksum for %s: %s" [Path file; filePath])
          | Ok chsum =>
              if negb (String.eqb (Sha file) chsum) then
                check_integrity d cleanBase rest
                  {| Modified := Modified res ++ [Path file]; Removed := Removed res |}
              else check_integrity d cleanBase rest res
          end
      end
  end.

(** [CheckIntegrity] checks if managed files are still valid. *)
Definition CheckIntegrity (f : RPackLockFile) (d : disk) (path : string)
    : result RPackLockFileIntegrity :=
  check_integrity d (Filepath.Clean path) (Files f) {| Modified := []; Removed := [] |}.

Record RPackLockFileChanges := {
  Added : list string;
  Removed_ : list string
}.

(** The three loops of [Changes], with the two Go maps used as sets. *)
Definition path_set (files : list RPackLockFileFile) : gset string :=
  foldl (fun s file => {[Path file]} ∪ s) ∅ files.

Fixpoint changes_removed (newFiles : gset string) (oldFiles : list RPackLockFileFile)
    (oldSeen : gset string) (removed : list string) : gset string * list string :=
  match oldFiles with
  | [] => (oldSeen, removed)
  | oldFile :: rest =>
      let oldSeen' := {[Path oldFile]} ∪ oldSeen in
      if decide (Path oldFile ∈ newFiles)
      then changes_removed newFiles rest oldSeen' removed
      else changes_removed newFiles rest oldSeen' (removed ++ [Path oldFile])
  end.

Fixpoint changes_added (oldFiles : gset string) (newFiles : list RPackLockFileFile)
    (added : list string) : list string :=
  match newFiles with
  | [] => added
  | newFile :: rest =>
      if decide (Path newFile ∈ oldFiles)
      then changes_added oldFiles rest added
      else changes_added oldFiles rest (added ++ [Path newFile])
  end.

(** [f.Changes(old)] records the changes from the old lockfile to [f]. *)
Definition Changes (f old : RPackLockFile) : RPackLockFileChanges :=
  let newFiles := path_set (Files f) in
  let '(oldFiles, removed) := changes_removed newFiles (Files old) ∅ [] in
  {| Added := changes_added oldFiles (Files f) []; Removed_ := removed |}.

(** * The executor *)

Record Executor := {
  OverrideExecPath : string;
  DryRun : bool;
  Force : bool
}.

Record RPackConfigInstance := {
  ConfigPath : string;
  LockFile : RPackLockFile;
  LockFilePath : string
}.

Record RPackInstance := {
  ExecPath : string;
  CachePath : string;
  TempPath : string;
  RunPath : string;
  SourcePath : string;
  ResolvedInputs : list RPackResolvedInput
}.

Definition RPackCacheDir : string := ".rpack.d".
Definition RPackCacheDirSource : string := "source".
Definition RPackCacheDirRun : string := "run".
Definition RPackCacheDirTemp : string := "tmp".

(** [LoadRPack]: where the directories of a pack lie, for the [source] of
    the configuration.  (That it creates them, empties the run and the temp
    directory and fetches the source is left to the disk a run starts
    from.) *)
Definition LoadRPack_paths (source configPath execPath : string)
    (resolvedInputs : list RPackResolvedInput) : RPackInstance :=
  let packCachePath :=
    Filepath.Join [execPath; RPackCacheDir; Util.Sha256String source] in
  let packSourcePath := Filepath.Join [packCachePath; RPackCacheDirSource] in
  let shaConfigPath := Util.Sha256String configPath in
  let packRunPath := Filepath.Join [packCachePath; shaConfigPath; RPackCacheDirRun] in
  let packTempPath := Filepath.Join [packCachePath; shaConfigPath; RPackCacheDirTemp] in
  {| ExecPath := execPath; CachePath := packCachePath; TempPath := packTempPath;
     RunPath := packRunPath; SourcePath := packSourcePath;
     ResolvedInputs := resolvedInputs |}.

(** ** The inputs of a pack *)

Definition RPackDefInputTypeFile : string := "file".
Definition RPackDefInputTypeDirectory : string := "dir".

(** [RPackDefInput] defines a potential input for the rpack. *)
Record RPackDefInput := {
  def_Type : string;   (* dir or file *)
  def_Name : string    (* name to reference the path in the script *)
}.

(** A loop over names with the map [visitedNames]: the first name that has
    been visited before. *)
Fixpoint visit_names (names : list string) (visitedNames : gset string) : option string :=
  match names with
  | [] => None
  | name :: rest =>
      if decide (name ∈ visitedNames) then Some name
      else visit_names rest ({[name]} ∪ visitedNames)
  end.

(** The inner loop of the third check: the first definition with the name. *)
Fixpoint match_def_input (defInputs : list RPackDefInput) (name : string)
    : option RPackDefInput :=
  match defInputs with
  | [] => None
  | defIn :: rest =>
      if String.eqb name (def_Name defIn) then Some defIn else match_def_input rest name
  end.

Definition RPackInputType_eqb (a b : RPackInputType) : bool :=
  match a, b with
  | RPackInputTypeFile, RPackInputTypeFile
  | RPackInputTypeDirectory, RPackInputTypeDirectory => true
  | _, _ => false
  end.

(** Check every resolved input matches a def input. *)
Fixpoint match_inputs (resolvedInputs : list RPackResolvedInput)
    (defInputs : list RPackDefInput) : option error :=
  match resolvedInputs with
  | [] => None
  | in_ :: rest =>
      match match_def_input defInputs (Name in_) with
      | None => Some (Errorf "No definition found for user input %s" [Name in_])
      | Some matchDefInput =>
          if String.eqb (def_Type matchDefInput) RPackDefInputTypeFile
             && negb (RPackInputType_eqb (Type_ in_) RPackInputTypeFile) then
            Some (Errorf "Definition for user input %s requires type file, but found directory"
                    [Name in_])
          else if String.eqb (def_Type matchDefInput) RPackDefInputTypeDirectory
                  && negb (RPackInputType_eqb (Type_ in_) RPackInputTypeDirectory) then
            Some (Errorf "Definition for user input %s requires type directory, but found file"
                    [Name in_])
          else match_inputs rest defInputs
      end
  end.

(** [ValidateRPackInputs]: the names of the resolved inputs are unique, the
    names of the definition's inputs are unique, and every resolved input
    matches an input of the definition. *)
Definition ValidateRPackInputs (resolvedInputs : list RPackResolvedInput)
    (defInputs : list RPackDefInput) : option error :=
  match visit_names (map Name resolvedInputs) ∅ with
  | Some name => Some (Errorf "Resolved input %s already exists" [name])
  | None =>
      match visit_names (map def_Name defInputs) ∅ with
      | Some name => Some (Errorf "RPackDef input %s already exists" [name])
      | None => match_inputs resolvedInputs defInputs
      end
  end.

(** The loop of [ResolveRPackInputs]: [configInputs] holds the entries of the
    map in the order in which the [range] loop visits them (an order that Go
    leaves open), [resolvedInputs] the slice built so far. *)
Fixpoint resolve_inputs (d : disk) (configInputs : list (string * string))
    (execPath : string) (resolvedInputs : list RPackResolvedInput)
    : result (list RPackResolvedInput) :=
  match configInputs with
  | [] => Ok resolvedInputs
  | (name, userPath) :: rest =>
      let cleanUserPath := Filepath.Clean userPath in
      (* Check path boundaries *)
      if Filepath.IsAbs cleanUserPath then
        Err (Errorf "User path %s=%s is not relative" [name; userPath])
      else if negb (Filepath.IsLocal cleanUserPath) then
        Err (Errorf "User path %s=%s is not local" [name; userPath])
      else
        let absPath := Filepath.Join [execPath; cleanUserPath] in
        let absPath := Filepath.Clean absPath in
        match Util.CheckFileOrDirExists d absPath with
        | (_, Some err) =>
            Err (Wrapf err "User path %s=%s does not exist" [name; userPath])
        | (isDir, None) =>
            let fileType := if isDir then RPackInputTypeDirectory else RPackInputTypeFile in
            resolve_inputs d rest execPath
              (resolvedInputs ++
                 [{| Name := name; UserPath := cleanUserPath; ResolvedPath := absPath;
                     Type_ := fileType |}])
        end
  end.

(** [ResolveRPackInputs] resolves the user provided inputs in the context of
    an execution path to actual files and directories on disk. *)
Definition ResolveRPackInputs (d : disk) (configInputs : list (string * string))
    (execPath : string) : result (list RPackResolvedInput) :=
  resolve_inputs d configInputs execPath [].

(** [ControlledFile] is declared outside the files at hand; these are the two
    fields the executor sets and reads. *)
Record ControlledFile := {
  cf_Path : string;
  cf_AbsPath : string
}.

(** What a run can change: the files, and the lockfiles that were persisted
    (kept as values, not as the YAML text [WriteFile] marshals them to). *)
Record world := {
  files : disk;
  lockfiles : gmap string RPackLockFile
}.

Module Exec.

Record collected := {
  visitedPaths : gset string;
  checksums : gmap string string;
  filesToMove : list ControlledFile
}.

(** The loop over [fs.TargetWriteHandles()]: files written several times
    occur several times and are taken once. *)
Fixpoint collect (d : disk) (runPath : string) (handles : list FSHandle)
    (acc : collected) : result collected :=
  match handles with
  | [] => Ok acc
  | handle :: rest =>
      let relPath := indirectTargetPath handle in
      let absPath := Filepath.Clean (Filepath.Join [runPath; relPath]) in
      let c := {| cf_Path := relPath; cf_AbsPath := absPath |} in
      if decide (absPath ∈ visitedPaths acc) then collect d runPath rest acc
      else
        match Util.Sha256File d absPath with
        | Err e => Err (Wrapf e "Failed to calculate checksum of: %s" [absPath])
        | Ok chsum =>
            collect d runPath rest
              {| visitedPaths := {[absPath]} ∪ visitedPaths acc;
                 checksums := <[absPath := chsum]> (checksums acc);
                 filesToMove := filesToMove acc ++ [c] |}
        end
  end.

Definition no_files : collected :=
  {| visitedPaths := ∅; checksums := ∅; filesToMove := [] |}.

(** Build the new lockfile; a file without a checksum makes the code panic. *)
Fixpoint build_lockfile (checksums : gmap string string)
    (filesToMove : list ControlledFile) (lock : RPackLockFile)
    : result RPackLockFile :=
  match filesToMove with
  | [] => Ok lock
  | wFile :: rest =>
      match checksums !! cf_AbsPath wFile with
      | None => Err (Errorf "Can't find checksum for file" [])
      | Some chsum => build_lockfile checksums rest (AddFile lock (cf_Path wFile) chsum)
      end
  end.

(** Check overwrite of existing files. *)
Fixpoint check_overwrite (force : bool) (d : disk) (execPath : string)
    (added : list string) : option error :=
  match added with
  | [] => None
  | a :: rest =>
      let targetFile := Filepath.Clean (Filepath.Join [execPath; a]) in
      match Util.FileExists d targetFile with
      | (true, _) =>
          if negb force then
            Some (Errorf "Existing file would need to be overwritten, use force flag to ignore: %s" [a])
          else check_overwrite force d execPath rest
      | (false, Some e) => Some (Wrapf e "Failed to check file exists: %s" [a])
      | (false, None) => check_overwrite force d execPath rest
      end
  end.

(** Actually move files. *)
Fixpoint move_files (d : disk) (execPath : string) (filesToMove : list ControlledFile)
    : disk * option error :=
  match filesToMove with
  | [] => (d, None)
  | wFile :: rest =>
      let targetFile := Filepath.Clean (Filepath.Join [execPath; cf_Path wFile]) in
      match OS.MkdirAll d (Filepath.Dir targetFile) with
      | (d1, Some e) => (d1, Some (Wrapf e "Failed to create dirs for: %s" [targetFile]))
      | (d1, None) =>
          match OS.Rename d1 (cf_AbsPath wFile) targetFile with
          | (d2, Some e) =>
              (d2, Some (Wrapf e "Failed to move file %s to exec path %s"
                           [cf_Path wFile; execPath]))
          | (d2, None) => move_files d2 execPath rest
          end
      end
  end.

(** Remove removed files. *)
Fixpoint remove_files (d : disk) (execPath : string) (removed : list string)
    : disk * option error :=
  match removed with
  | [] => (d, None)
  | removedFile :: rest =>
      let p := Filepath.Join [execPath; removedFile] in
      match Util.FileExists d p with
      | (_, Some e) => (d, Some (Wrapf e "Could not check deprecated file: %s" [removedFile]))
      | (true, None) =>
          match OS.Remove d p with
          | (d1, Some e) =>
              (d1, Some (Wrapf e "Could not remove deprecated file: %s" [removedFile]))
          | (d1, None) => remove_files d1 execPath rest
          end
      | (false, None) => remove_files d execPath rest
      end
  end.

Definition with_files (w : world) (d : disk) : world :=
  {| files := d; lockfiles := lockfiles w |}.

(** [ExecRPack] from the purity gate on: [fs] is the filesystem after the
    script has run, [w] the world it left.  (Logging is left out.) *)
Definition finish (e : Executor) (ci : RPackConfigInstance) (pi : RPackInstance)
    (execPath : string) (fs : RPackFS) (w : world) : world * option error :=
  match Check fs with
  | Some err => (w, Some (Wrapf err "File access check failed" []))
  | None =>
      if DryRun e then
        (* We are done, no copying or moving of files *)
        (w, None)
      else
        match collect (files w) (RunPath pi) (TargetWriteHandles fs) no_files with
        | Err err => (w, Some err)
        | Ok c =>
            let oldLock := LockFile ci in
            match CheckIntegrity oldLock (files w) execPath with
            | Err err => (w, Some (Wrapf err "Failed to check lockfile integrity" []))
            | Ok oldLockIntegrity =>
                if (0 <? length (Modified oldLockIntegrity))%nat && negb (Force e) then
                  (w, Some (Errorf "Some locked files were modified outside of rpack, use force flag to ignore: %s"
                              [Strings.Join (Modified oldLockIntegrity) ","]))
                else
                  match build_lockfile (checksums c) (filesToMove c) NewRPackLockFile with
                  | Err err => (w, Some err)
                  | Ok newLockfile =>
                      let changes := Changes newLockfile oldLock in
                      match check_overwrite (Force e) (files w) execPath (Added changes) with
                      | Some err => (w, Some err)
                      | None =>
                          match move_files (files w) execPath (filesToMove c) with
                          | (d1, Some err) => (with_files w d1, Some err)
                          | (d1, None) =>
                              match remove_files d1 execPath (Removed_ changes) with
                              | (d2, Some err) => (with_files w d2, Some err)
                              | (d2, None) =>
                                  ({| files := d2;
                                      lockfiles := <[LockFilePath ci := newLockfile]> (lockfiles w) |},
                                   None)
                              end
                          end
                      end
                  end
            end
        end
  end.

End Exec.

(** * The script library ([luamodel.go], [lualib_rpack.go]) *)

Definition LF : string := String "010"%char "".
Definition CRLF : string := String "013"%char (String "010"%char "").

(** [L.ArgError(n, msg)] raises a Lua error about argument [n]. *)
Definition ArgError (n : string) (cause : error) : error :=
  Wrapf cause "bad argument #%s" [n].

Record ReadLinesResult := {
  lines : list string;
  separator : string;
  finalNewline : bool
}.

Section ScriptLibrary.
Context {T : Type} `{FS T}.

(** [luaReadLines] reads a file returning a table with lines, separator
    and finalNewline. *)
Definition luaReadLines (fs : T) (friendly : string) : T * result ReadLinesResult :=
  match fs_Read fs friendly with
  | (fs', Err err) => (fs', Err (ArgError "1" err))
  | (fs', Ok content) =>
      let sep := if Strings.Contains content CRLF then CRLF else LF in
      let finalNewline := Strings.HasSuffix content sep in
      let linesArr := Strings.Split content sep in
      let linesArr :=
        if finalNewline && (0 <? length linesArr)%nat
           && String.eqb (List.last linesArr "x") ""
        then removelast linesArr else linesArr in
      (fs', Ok {| lines := linesArr; separator := sep; finalNewline := finalNewline |})
  end.

(** [luaWriteLines] writes lines to a file with the given separator and
    final newline option; [sep] and [finalNewline] are optional arguments
    with defaults.  [linesTbl] holds the strings at the indices [1..n] of
    the table. *)
Definition luaWriteLines (fs : T) (friendly : string) (linesTbl : list string)
    (sep : option string) (finalNewline : option bool) : T * option error :=
  let sep := default LF sep in
  let finalNewline := default true finalNewline in
  let content := Strings.Join linesTbl sep in
  let content := if finalNewline then (content ++ sep)%string else content in
  match fs_Write fs friendly content with
  | (fs', Some err) => (fs', Some (ArgError "1" err))
  | (fs', None) => (fs', None)
  end.

Definition luaCopy (fs : T) (in_ out : string) : T * option error :=
  match fs_Read fs in_ with
  | (fs1, Err err) => (fs1, Some (ArgError "1" err))
  | (fs1, Ok b) =>
      match fs_Write fs1 out b with
      | (fs2, Some err) => (fs2, Some (ArgError "2" err))
      | (fs2, None) => (fs2, None)
      end
  end.

Definition luaWrite (fs : T) (friendly content : string) : T * option error :=
  match fs_Write fs friendly content with
  | (fs', Some err) => (fs', Some (ArgError "1" err))
  | (fs', None) => (fs', None)
  end.

Definition luaRead (fs : T) (friendly : string) : T * result string :=
  match fs_Read fs friendly with
  | (fs', Err err) => (fs', Err (ArgError "1" err))
  | (fs', Ok b) => (fs', Ok b)
  end.

Definition luaReadDir (fs : T) (friendly : string) (recursive : bool)
    : T * result (list string * list string) :=
  match (if recursive then fs_ReadDirAll fs friendly else fs_ReadDir fs friendly) with
  | (fs', Err err) => (fs', Err (ArgError "1" err))
  | (fs', Ok (files, dirs)) => (fs', Ok (files, dirs))
  end.

(** A script, seen from the filesystem: the calls it makes, in program
    order.  A call that fails raises a Lua error, which ends the script
    (scripts that catch the error with [pcall] are not covered). *)
Inductive lua_call :=
| call_copy (in_ out : string)
| call_write (friendly content : string)
| call_read (friendly : string)
| call_read_dir (friendly : string) (recursive : bool)
| call_read_lines (friendly : string)
| call_write_lines (friendly : string) (linesTbl : list string)
    (sep : option string) (finalNewline : option bool).

Definition do_call (fs : T) (c : lua_call) : T * option error :=
  match c with
  | call_copy in_ out => luaCopy fs in_ out
  | call_write friendly content => luaWrite fs friendly content
  | call_read friendly =>
      match luaRead fs friendly with
      | (fs', Err e) => (fs', Some e)
      | (fs', Ok _) => (fs', None)
      end
  | call_read_dir friendly recursive =>
      match luaReadDir fs friendly recursive with
      | (fs', Err e) => (fs', Some e)
      | (fs', Ok _) => (fs', None)
      end
  | call_read_lines friendly =>
      match luaReadLines fs friendly with
      | (fs', Err e) => (fs', Some e)
      | (fs', Ok _) => (fs', None)
      end
  | call_write_lines friendly linesTbl sep finalNewline =>
      luaWriteLines fs friendly linesTbl sep finalNewline
  end.

(** [ExecuteLuaWithData], for the script given by its calls. *)
Fixpoint ExecuteLua (script : list lua_call) (fs : T) : T * option error :=
  match script with
  | [] => (fs, None)
  | c :: rest =>
      match do_call fs c with
      | (fs', Some e) => (fs', Some (Wrapf e "failed to execute script" []))
      | (fs', None) => ExecuteLua rest fs'
      end
  end.

End ScriptLibrary.

(** [ExecRPack], from the construction of the filesystem on; the loading of
    the configuration and of the pack is given by its results [ci] and [pi]. *)
Definition ExecRPack (e : Executor) (ci : RPackConfigInstance) (pi : RPackInstance)
    (script : list lua_call) (w : world) : world * option error :=
  let execPath :=
    if negb (String.eqb (OverrideExecPath e) "") then OverrideExecPath e
    else ConfigPath ci in
  let fs := NewRPackFS true (SourcePath pi) (RunPath pi) (TempPath pi) (ExecPath pi)
              (ResolvedInputs pi) in
  match ExecuteLua script (fs, files w) with
  | ((_, d), Some err) =>
      (Exec.with_files w d, Some (Wrapf err "Failed to execute script" []))
  | ((fs', d), None) => Exec.finish e ci pi execPath fs' (Exec.with_files w d)
  end.

(** The filesystem that [ExecRPack] builds for the script. *)
Definition initial_fs (pi : RPackInstance) : RPackFS :=
  NewRPackFS true (SourcePath pi) (RunPath pi) (TempPath pi) (ExecPath pi)
    (ResolvedInputs pi).

(** * The checker ([checker.go]) *)

Module Checker.

Record t := { OverrideExecPath : string }.

(** [Checker.CheckIntegrity], for the configuration [ci] that
    [LoadRPackConfig] returns.  (Logging is left out.) *)
Definition CheckIntegrity (c : t) (ci : RPackConfigInstance) (d : disk) : option error :=
  let execPath :=
    if negb (String.eqb (OverrideExecPath c) "") then OverrideExecPath c
    else ConfigPath ci in
  match CheckIntegrity (LockFile ci) d execPath with
  | Err err => Some (Wrapf err "Failed to check lockfile integrity" [])
  | Ok oldLockIntegrity =>
      (* Require force flag if files were modified that should be controlled by lockfile *)
      if (0 <? length (Modified oldLockIntegrity))%nat then
        Some (Errorf "Some locked files were modified outside of rpack, use force flag to ignore: %s"
                [Strings.Join (Modified oldLockIntegrity) ","])
      (* Files that are removed but still in the lockfile *)
      else if (0 <? length (Removed oldLockIntegrity))%nat then
        Some (Errorf "Some files in lockfile were removed: %s"
                [Strings.Join (Removed oldLockIntegrity) ","])
      else None
  end.

End Checker.

(** * The [filepath] module of the script library ([lualib_filepath.go])

    Each function takes the Lua arguments it checks and returns the values
    it pushes. *)

Definition luaFilepathBase (path : string) : string := Filepath.Base path.

Definition luaFilepathClean (path : string) : string := Filepath.Clean path.

Definition luaFilepathDir (path : string) : string := Filepath.Dir path.

Definition luaFilepathExt (path : string) : string := Filepath.Ext path.

Definition luaFilepathIsAbs (path : string) : bool := Filepath.IsAbs path.

Definition luaFilepathIsLocal (path : string) : bool := Filepath.IsLocal path.

(** Two arguments are required; [rest] holds the arguments from the third
    on. *)
Definition luaFilepathJoin (first second : string) (rest : list string) : string :=
  let args := ([first; second] ++ rest)%list in
  Filepath.Join args.

Definition luaFilepathSplit (path : string) : string * string := Filepath.Split path.

Definition luaFilepathLocation (path : string) : string * string :=
  let '(before, after, found) := Strings.Cut path ":" in
  if found then (before, after) else ("target", before).

(** ** Lua values and their conversion to Go values *)

(** [strconv.Atoi]: an optional sign and decimal digits, within the range
    of a 64-bit [int]. *)
Module Strconv.
Local Open Scope Z_scope.

Fixpoint digits (s : bytes) (n : Z) : option Z :=
  match s with
  | [] => Some n
  | ch :: s' =>
      let v := Utf8.byteZ ch - 48 in
      if (0 <=? v) && (v <=? 9) then digits s' (n * 10 + v) else None
  end.

Definition Atoi (s : string) : option Z :=
  let parse (neg : bool) (ds : bytes) :=
    match ds with
    | [] => None
    | _ =>
        match digits ds 0 with
        | Some n =>
            let n := if neg then - n else n in
            if (- 9223372036854775808 <=? n) && (n <=? 9223372036854775807)
            then Some n else None
        | None => None
        end
    end in
  match s2b s with
  | [] => None
  | c :: rest =>
      if ascii_eqb c "-" then parse true rest
      else if ascii_eqb c "+" then parse false rest
      else parse false (c :: rest)
  end.

End Strconv.

(** A table is given by its entries in the order in which [ForEach] visits
    them. *)
Inductive LValue :=
| LNil
| LBool (b : bool)
| LNumber (n : PrimFloat.float)
| LString (s : string)
| LTable (entries : list (LValue * LValue))
| LFunction (addr : string).

(** What [luaTableToGo] and [lValueToGo] build: [bool], [float64], [int],
    [string], [[]any] and [map[string]any]. *)
Inductive GoValue :=
| GoBool (b : bool)
| GoFloat64 (n : PrimFloat.float)
| GoInt (i : Z)
| GoString (s : string)
| GoSlice (l : list GoValue)
| GoMap (m : list (string * GoValue)).

(** [m[k] = v] on a map kept as an association list. *)
Fixpoint map_set (m : list (string * GoValue)) (k : string) (v : GoValue)
    : list (string * GoValue) :=
  match m with
  | [] => [(k, v)]
  | (k', v') :: m' => if String.eqb k' k then (k, v) :: m' else (k', v') :: map_set m' k v
  end.

Section Serialisation.

(** How the Lua virtual machine prints a number, and a value with an
    identity (a table prints as its address). *)
Variable number_String : PrimFloat.float -> string.
Variable table_String : list (LValue * LValue) -> string.

(** [encoding/json]: [json.MarshalIndent(v, prefix, indent)]. *)
Variable json_MarshalIndent : GoValue -> string -> string -> result string.

(** [LValue.String()]. *)
Definition LValue_String (v : LValue) : string :=
  match v with
  | LNil => "nil"
  | LBool true => "true"
  | LBool false => "false"
  | LNumber n => number_String n
  | LString s => s
  | LTable entries => table_String entries
  | LFunction addr => addr
  end.

Definition is_number (v : LValue) : bool :=
  match v with
  | LNumber _ => true
  | _ => false
  end.

(** [lValueToGo], with [luaTableToGo] as its table case: a table whose keys
    are all numbers becomes a slice of its values, any other table a map
    from the printed keys. *)
Fixpoint lValueToGo (val : LValue) : GoValue :=
  match val with
  | LBool v => GoBool v
  | LNumber v => GoFloat64 v
  | LString v =>
      match Strconv.Atoi v with
      | Some i => GoInt i
      | None => GoString v
      end
  | LTable entries =>
      let conv := map (fun kv => (fst kv, lValueToGo (snd kv))) entries in
      if forallb (fun kv => is_number (fst kv)) conv then
        GoSlice (map snd conv)
      else
        GoMap (fold_left (fun m kv => map_set m (LValue_String (fst kv)) (snd kv)) conv [])
  | LNil | LFunction _ => GoString (LValue_String val)
  end.

Definition luaTableToGo (entries : list (LValue * LValue)) : GoValue :=
  lValueToGo (LTable entries).

(** [L.CheckTable(1)] raises an error on anything but a table. *)
Definition CheckTable (arg : LValue) : result (list (LValue * LValue)) :=
  match arg with
  | LTable entries => Ok entries
  | _ => Err (ArgError "1" (Errorf "table expected" []))
  end.

(** [luaToJSON] marshals a Lua table as JSON. *)
Definition luaToJSON (arg : LValue) : result string :=
  match CheckTable arg with
  | Err e => Err e
  | Ok val =>
      let goVal := luaTableToGo val in
      match json_MarshalIndent goVal "" "  " with
      | Err err => Err (ArgError "1" (Wrapf err "failed to marshal JSON" []))
      | Ok jsonBytes => Ok jsonBytes
      end
  end.

Definition luaToYAML (arg : LValue) : result string :=
  match CheckTable arg with
  | Err e => Err e
  | Ok val =>
      let goVal := luaTableToGo val in
      match json_MarshalIndent goVal "" "  " with
      | Err err => Err (ArgError "1" (Wrapf err "failed to marshal YAML" []))
      | Ok jsonBytes => Ok jsonBytes
      end
  end.

End Serialisation.

(** * Properties *)

(** ** Access control *)

Lemma string_eqb_false (a b : string) : a <> b -> String.eqb a b = false.
Proof. intros Hne. apply String.eqb_neq. exact Hne. Qed.

Ltac string_cases :=
  repeat match goal with
    | H : ?a = ?b |- context [String.eqb ?a ?c] => rewrite H
    | H : ?a <> ?b |- context [String.eqb ?a ?b] => rewrite (string_eqb_false a b H)
    end.

(** C2. The access-control hook denies a write exactly on the [rpack] and
    [map] resolvers, with an error that names the friendly path and the
    alternative ([temp], [target]); it denies a read, stat or readdir exactly
    on the [target] resolver, naming the friendly path and [rpack:]; every
    other pair of resolver and operation passes.  A denial stops the hook
    chain of [NewRPackFS]'s filesystem before the purity hook and the
    recorder see the handle. *)
Theorem access_control_hook (h : FSHandle) :
  (resolver h = RPackResolver ->
     RPackAccessControlFSHook.Write h =
       Some (Errorf "Not allowed to write %s, use `temp` instead" [friendlyPath h]))
  /\ (resolver h = MapResolver ->
        RPackAccessControlFSHook.Write h =
          Some (Errorf "Not allowed to write %s, use `target` instead" [friendlyPath h]))
  /\ (resolver h <> RPackResolver -> resolver h <> MapResolver ->
        RPackAccessControlFSHook.Write h = None)
  /\ (resolver h = TargetResolver ->
        RPackAccessControlFSHook.Read h =
          Some (Errorf "Not allowed to read %s (no access to read from target directory, use 'rpack:' instead)"
                  [friendlyPath h])
        /\ RPackAccessControlFSHook.Stat h =
             Some (Errorf "Not allowed to stat %s (no access to read from target directory, use 'rpack:' instead)"
                     [friendlyPath h])
        /\ RPackAccessControlFSHook.ReadDir h =
             Some (Errorf "Not allowed to readdir %s (no access to read from target directory, use 'rpack:' instead)"
                     [friendlyPath h]))
  /\ (resolver h <> TargetResolver ->
        RPackAccessControlFSHook.Read h = None
        /\ RPackAccessControlFSHook.Stat h = None
        /\ RPackAccessControlFSHook.ReadDir h = None)
  /\ (forall typ rest e,
        snd (hook_call typ AccessControlHook h) = Some e ->
        run_hooks typ (AccessControlHook :: rest) h = (AccessControlHook :: rest, Some e)).
Proof.
  unfold RPackAccessControlFSHook.Write, RPackAccessControlFSHook.Read,
    RPackAccessControlFSHook.Stat, RPackAccessControlFSHook.ReadDir.
  split; [intros ->; reflexivity|].
  split; [intros ->; reflexivity|].
  split; [intros H1 H2; now string_cases|].
  split; [intros ->; repeat split; reflexivity|].
  split; [intros H1; now string_cases|].
  intros typ rest e He. simpl in *. now rewrite He.
Qed.

(** The table of section 4.2, row by row, on the handles of the four
    built-in resolvers. *)
Lemma access_control_table (h : FSHandle) (typ : FSAccessType) :
  In (resolver h) [RPackResolver; TempResolver; MapResolver; TargetResolver] ->
  (snd (hook_call typ AccessControlHook h) = None <->
   match typ with
   | FSAccessTypeWrite => resolver h = TempResolver \/ resolver h = TargetResolver
   | _ => resolver h = RPackResolver \/ resolver h = TempResolver
          \/ resolver h = MapResolver
   end).
Proof.
  intros Hin. simpl in Hin.
  destruct Hin as [Hr|[Hr|[Hr|[Hr|[]]]]]; symmetry in Hr;
    destruct typ; simpl;
    unfold RPackAccessControlFSHook.Write, RPackAccessControlFSHook.Read,
      RPackAccessControlFSHook.Stat, RPackAccessControlFSHook.ReadDir;
    rewrite Hr; simpl; split; intros H;
    try discriminate; try reflexivity; try tauto;
    repeat (destruct H as [H|H]; try discriminate H).
Qed.

(** ** Lockfile diff *)

Lemma path_set_spec (files : list RPackLockFileFile) (p : string) :
  p ∈ path_set files <-> In p (map Path files).
Proof.
  unfold path_set.
  assert (G : forall (s : gset string),
             p ∈ foldl (fun s file => {[Path file]} ∪ s) s files
             <-> p ∈ s \/ In p (map Path files)).
  { induction files as [|f fs IH]; intros s; simpl.
    - tauto.
    - rewrite IH. rewrite elem_of_union, elem_of_singleton.
      split; intros [H|H]; auto; destruct H; auto. }
  rewrite G. rewrite elem_of_empty. tauto.
Qed.

Lemma changes_added_spec (oldFiles : gset string) (newFiles : list RPackLockFileFile)
    (added : list string) :
  changes_added oldFiles newFiles added =
    added ++ List.filter (fun p => bool_decide (p ∉ oldFiles)) (map Path newFiles).
Proof.
  revert added. induction newFiles as [|f fs IH]; intros added; simpl.
  - now rewrite app_nil_r.
  - destruct (decide (Path f ∈ oldFiles)) as [Hin|Hnin].
    + rewrite IH. rewrite bool_decide_eq_false_2 by tauto. reflexivity.
    + rewrite IH. rewrite bool_decide_eq_true_2 by assumption.
      now rewrite <- app_assoc.
Qed.

Lemma changes_removed_spec (newFiles : gset string) (oldFiles : list RPackLockFileFile)
    (seen : gset string) (removed : list string) :
  changes_removed newFiles oldFiles seen removed =
    (foldl (fun s file => {[Path file]} ∪ s) seen oldFiles,
     removed ++ List.filter (fun p => bool_decide (p ∉ newFiles)) (map Path oldFiles)).
Proof.
  revert seen removed. induction oldFiles as [|f fs IH]; intros seen removed; simpl.
  - now rewrite app_nil_r.
  - destruct (decide (Path f ∈ newFiles)) as [Hin|Hnin]; rewrite IH.
    + rewrite bool_decide_eq_false_2 by tauto. reflexivity.
    + rewrite bool_decide_eq_true_2 by assumption. now rewrite <- app_assoc.
Qed.

Definition paths (l : RPackLockFile) : list string := map Path (Files l).

Lemma Changes_spec (f old : RPackLockFile) :
  Changes f old =
    {| Added := List.filter (fun p => bool_decide (p ∉ path_set (Files old))) (paths f);
       Removed_ := List.filter (fun p => bool_decide (p ∉ path_set (Files f))) (paths old) |}.
Proof.
  unfold Changes. rewrite changes_removed_spec. rewrite changes_added_spec.
  reflexivity.
Qed.

(** C9. The change computation returns as [Added] the paths of the new
    lockfile that are no path of the old one, and as [Removed] the paths of
    the old lockfile that are no path of the new one (each list in lockfile
    order); only the paths of the entries matter, not their checksums. *)
Theorem lockfile_changes (new old : RPackLockFile) :
  (forall p, In p (Added (Changes new old)) <-> In p (paths new) /\ ~ In p (paths old))
  /\ (forall p, In p (Removed_ (Changes new old)) <-> In p (paths old) /\ ~ In p (paths new))
  /\ Added (Changes new old) =
       List.filter (fun p => negb (existsb (String.eqb p) (paths old))) (paths new)
  /\ Removed_ (Changes new old) =
       List.filter (fun p => negb (existsb (String.eqb p) (paths new))) (paths old)
  /\ (forall new' old',
        paths new' = paths new -> paths old' = paths old ->
        Changes new' old' = Changes new old).
Proof.
  assert (Hdec : forall (fs : list RPackLockFileFile) p,
             bool_decide (p ∉ path_set fs) = negb (existsb (String.eqb p) (map Path fs))).
  { intros fs p. destruct (existsb (String.eqb p) (map Path fs)) eqn:E; simpl.
    - apply bool_decide_eq_false_2. intros Hn. apply Hn. apply path_set_spec.
      apply existsb_exists in E. destruct E as [x [Hx Hpx]].
      apply String.eqb_eq in Hpx. now subst.
    - apply bool_decide_eq_true_2. intros Hin. apply path_set_spec in Hin.
      assert (existsb (String.eqb p) (map Path fs) = true) as E'.
      { apply existsb_exists. exists p. split; [assumption | apply String.eqb_refl]. }
      congruence. }
  rewrite Changes_spec. simpl.
  assert (Hmem : forall (fs : list RPackLockFileFile) (l : list string) p,
             In p (List.filter (fun p => bool_decide (p ∉ path_set fs)) l)
             <-> In p l /\ ~ In p (map Path fs)).
  { intros fs l p. rewrite filter_In. rewrite bool_decide_eq_true.
    rewrite path_set_spec. tauto. }
  split; [intros p; apply Hmem|].
  split; [intros p; apply Hmem|].
  split; [apply filter_ext; intros p; apply Hdec|].
  split; [apply filter_ext; intros p; apply Hdec|].
  intros new' old' Hn Ho. rewrite Changes_spec. unfold paths in *.
  rewrite Hn, Ho. f_equal.
  - apply filter_ext. intros p. rewrite !Hdec. now rewrite Ho.
  - apply filter_ext. intros p. rewrite !Hdec. now rewrite Hn.
Qed.

(** ** Serialisation *)

(** C10. For every table, [to_yaml] returns a string exactly when [to_json]
    does, and it is the same string: the two-space indented JSON encoding of
    the converted Go value.  When the encoder fails both raise an error (the
    messages differ in one word). *)
Theorem to_yaml_is_to_json
    (number_String : PrimFloat.float -> string)
    (table_String : list (LValue * LValue) -> string)
    (json_MarshalIndent : GoValue -> string -> string -> result string)
    (t : list (LValue * LValue)) :
  (forall s,
     luaToYAML number_String table_String json_MarshalIndent (LTable t) = Ok s <->
     luaToJSON number_String table_String json_MarshalIndent (LTable t) = Ok s)
  /\ (forall s,
        luaToYAML number_String table_String json_MarshalIndent (LTable t) = Ok s ->
        json_MarshalIndent (luaTableToGo number_String table_String t) "" "  " = Ok s)
  /\ ((exists e, luaToYAML number_String table_String json_MarshalIndent (LTable t) = Err e)
      <-> (exists e, luaToJSON number_String table_String json_MarshalIndent (LTable t) = Err e)).
Proof.
  unfold luaToYAML, luaToJSON, CheckTable.
  destruct (json_MarshalIndent (luaTableToGo number_String table_String t) "" "  ")
    as [s0|e0].
  - split; [intros s; tauto|]. split; [intros s Hs; exact Hs|].
    split; intros [e He]; discriminate He.
  - split; [intros s; split; intros Hs; discriminate Hs|].
    split; [intros s Hs; discriminate Hs|].
    split; intros _; eexists; reflexivity.
Qed.

(** ** Resolution errors reach every operation *)

(** When the name does not resolve, each operation of the filesystem returns
    the resolver's error; no hook runs and the disk is not touched. *)
Lemma resolve_error_all_ops (fs : BaseFS) (d : disk) (name : string) (e : error) :
  resolve fs name = Err e ->
  (forall b, Base.Write fs d name b = (fs, d, Some e))
  /\ Base.Read fs d name = (fs, Err e)
  /\ Base.Stat fs d name = (fs, (false, false, Some e))
  /\ Base.ReadDir fs d name = (fs, Err e)
  /\ (forall fuel, Base.ReadDirAll (S fuel) fs d name = (fs, Err e)).
Proof.
  intros Hr.
  unfold Base.Write, Base.Read, Base.Stat, Base.ReadDirAll. simpl.
  unfold Base.ReadDir. rewrite Hr. repeat split; reflexivity.
Qed.

(** ** The handle's [Stat] *)

Lemma Handle_Stat_cases (d : disk) (h : FSHandle) :
  Handle_Stat d h =
    match OS.node_at d (absPath h) with
    | None => (false, false, None)
    | Some (File _) => (false, true, None)
    | Some Directory => (true, true, None)
    end.
Proof.
  unfold Handle_Stat, OS.Stat.
  destruct (OS.node_at d (absPath h)) as [[c|]|]; reflexivity.
Qed.

Definition stat_example_fs : RPackFS :=
  NewRPackFS true "/src" "/run" "/tmp" "/exec" [].

Definition stat_example_disk : disk :=
  list_to_map [("/src", Directory); ("/src/a.txt", File "hello");
               ("/src/files", Directory)].

(** C4 (the code, and the failing input).  [Stat] on the base filesystem
    answers with what the handle returns, position by position: with a
    regular file at the backing path that is [(false, true)], where the
    interface promises [(exists, dir) = (true, false)]; a directory gives
    [(true, true)] and a missing path [(false, false)].  So it is for the
    file [/src/a.txt]; [InMemoryFS.Stat] answers [(true, false)] for a
    regular file, and [ReadDir], which reads the first result as [exists],
    reports the regular file as missing. *)
Theorem Stat_swaps_results_on_regular_file :
  (forall (fs : BaseFS) (d : disk) (name : string),
     snd (Base.Stat fs d name) =
       match resolve fs name with
       | Err e => (false, false, Some e)
       | Ok h =>
           match snd (run_hooks FSAccessTypeStat (Hooks fs) h) with
           | Some e => (false, false, Some e)
           | None =>
               match OS.node_at d (absPath h) with
               | None => (false, false, None)
               | Some (File _) => (false, true, None)
               | Some Directory => (true, true, None)
               end
           end
       end)
  /\ snd (Base.Stat (BaseFS_ stat_example_fs) stat_example_disk "rpack:a.txt")
       = (false, true, None)
  /\ snd (Base.Stat (BaseFS_ stat_example_fs) stat_example_disk "rpack:files")
       = (true, true, None)
  /\ snd (Base.Stat (BaseFS_ stat_example_fs) stat_example_disk "rpack:missing")
       = (false, false, None)
  /\ InMemory.Stat (fst (InMemory.Write InMemory.New "a.txt" "hello")) "a.txt"
       = (true, false, None)
  /\ snd (Base.ReadDir (BaseFS_ stat_example_fs) stat_example_disk "rpack:a.txt")
       = Err (Errorf "Path does not exist: %s" ["rpack:a.txt"]).
Proof.
  split.
  - intros fs d name. unfold Base.Stat.
    destruct (resolve fs name) as [h|e]; [|reflexivity].
    destruct (run_hooks FSAccessTypeStat (Hooks fs) h) as [hooks [e|]];
      [reflexivity|].
    cbn [snd]. apply Handle_Stat_cases.
  - repeat split; vm_compute; reflexivity.
Qed.

(** ** Dry run *)

(** C5 (amended).  With [DryRun] set the run ends right after the purity
    gate: it fails exactly when the script or the purity check fails, and
    otherwise succeeds whatever the old lockfile, the force flag and the files
    of the exec path are; the world is left as the script left it (nothing is
    moved or removed, no lockfile is written). *)
Theorem dry_run_ends_after_purity_gate (e : Executor) (ci : RPackConfigInstance)
    (pi : RPackInstance) (script : list lua_call) (w : world) :
  DryRun e = true ->
  ExecRPack e ci pi script w =
    (Exec.with_files w (snd (fst (ExecuteLua script (initial_fs pi, files w)))),
     match snd (ExecuteLua script (initial_fs pi, files w)) with
     | Some err => Some (Wrapf err "Failed to execute script" [])
     | None =>
         match Check (fst (fst (ExecuteLua script (initial_fs pi, files w)))) with
         | Some err => Some (Wrapf err "File access check failed" [])
         | None => None
         end
     end)
  /\ (forall (execPath : string) (fs : RPackFS) (w' : world),
        Exec.finish e ci pi execPath fs w' =
          (w', match Check fs with
               | Some err => Some (Wrapf err "File access check failed" [])
               | None => None
               end)).
Proof.
  intros Hdry.
  assert (Hfinish : forall (execPath : string) (fs : RPackFS) (w' : world),
            Exec.finish e ci pi execPath fs w' =
              (w', match Check fs with
                   | Some err => Some (Wrapf err "File access check failed" [])
                   | None => None
                   end)).
  { intros execPath fs w'. unfold Exec.finish. rewrite Hdry.
    destruct (Check fs); reflexivity. }
  split; [|exact Hfinish].
  unfold ExecRPack, initial_fs.
  destruct (ExecuteLua script _) as [[fs d] [err|]]; cbn [fst snd]; [reflexivity|].
  apply Hfinish.
Qed.

Definition dry_example_pi : RPackInstance :=
  {| ExecPath := "/exec"; CachePath := "/exec/.rpack.d/c";
     TempPath := "/exec/.rpack.d/c/k/tmp"; RunPath := "/exec/.rpack.d/c/k/run";
     SourcePath := "/exec/.rpack.d/c/source"; ResolvedInputs := [] |}.

Definition dry_example_disk : disk :=
  list_to_map [("/exec", Directory); ("/exec/.rpack.d", Directory);
               ("/exec/.rpack.d/c", Directory); ("/exec/.rpack.d/c/k", Directory);
               ("/exec/.rpack.d/c/k/run", Directory);
               ("/exec/.rpack.d/c/k/tmp", Directory);
               ("/exec/.rpack.d/c/source", Directory);
               ("/exec/a.txt", File "edited by hand");
               ("/exec/b.txt", File "not managed")].

(** The old lockfile tracks [a.txt] with the checksum of ["hello"]. *)
Definition dry_example_ci : RPackConfigInstance :=
  {| ConfigPath := "/exec";
     LockFile := AddFile NewRPackLockFile "a.txt" (Sha256.Sum "hello");
     LockFilePath := "/exec/x.rpack.lock.yaml" |}.

Definition dry_example_world : world :=
  {| files := dry_example_disk; lockfiles := ∅ |}.

(** A dry run of a script that rewrites the locked file [a.txt], which was
    modified by hand, and adds the unmanaged file [b.txt]: it succeeds and
    leaves both files of the exec path alone. *)
Lemma dry_run_ends_after_purity_gate_witness :
  snd (ExecRPack {| OverrideExecPath := ""; DryRun := true; Force := false |}
         dry_example_ci dry_example_pi
         [call_write "a.txt" "new"; call_write "b.txt" "new"] dry_example_world)
    = None
  /\ files (fst (ExecRPack {| OverrideExecPath := ""; DryRun := true; Force := false |}
                   dry_example_ci dry_example_pi
                   [call_write "a.txt" "new"; call_write "b.txt" "new"]
                   dry_example_world))
       !! "/exec/a.txt" = Some (File "edited by hand")
  /\ lockfiles (fst (ExecRPack {| OverrideExecPath := ""; DryRun := true; Force := false |}
                       dry_example_ci dry_example_pi
                       [call_write "a.txt" "new"; call_write "b.txt" "new"]
                       dry_example_world))
     = ∅.
Proof.
  destruct (dry_run_ends_after_purity_gate
              {| OverrideExecPath := ""; DryRun := true; Force := false |}
              dry_example_ci dry_example_pi
              [call_write "a.txt" "new"; call_write "b.txt" "new"]
              dry_example_world eq_refl) as [Hrun _].
  rewrite Hrun. split; [vm_compute; reflexivity|].
  split; vm_compute; reflexivity.
Defined.

(** C5 (as stated, refuted).  The locked file [a.txt] was modified by hand
    and [b.txt] exists unmanaged.  Without dry-run the integrity gate aborts
    the run that rewrites [a.txt], and the overwrite gate aborts the run that
    adds [b.txt]; with dry-run both runs succeed: the gates are not reached. *)
Lemma dry_run_skips_the_gates :
  snd (ExecRPack {| OverrideExecPath := ""; DryRun := false; Force := false |}
         dry_example_ci dry_example_pi [call_write "a.txt" "new"] dry_example_world)
    = Some (Errorf "Some locked files were modified outside of rpack, use force flag to ignore: %s"
              ["a.txt"])
  /\ snd (ExecRPack {| OverrideExecPath := ""; DryRun := true; Force := false |}
            dry_example_ci dry_example_pi [call_write "a.txt" "new"] dry_example_world)
       = None
  /\ snd (ExecRPack {| OverrideExecPath := ""; DryRun := false; Force := false |}
            {| ConfigPath := "/exec"; LockFile := NewRPackLockFile;
               LockFilePath := "/exec/x.rpack.lock.yaml" |}
            dry_example_pi [call_write "b.txt" "new"] dry_example_world)
       = Some (Errorf "Existing file would need to be overwritten, use force flag to ignore: %s"
                 ["b.txt"])
  /\ snd (ExecRPack {| OverrideExecPath := ""; DryRun := true; Force := false |}
            {| ConfigPath := "/exec"; LockFile := NewRPackLockFile;
               LockFilePath := "/exec/x.rpack.lock.yaml" |}
            dry_example_pi [call_write "b.txt" "new"] dry_example_world)
       = None.
Proof. repeat split; vm_compute; reflexivity. Qed.

(** ** Unknown prefixes *)












(** ** Lexical cleaning of paths

    [filepath.Clean] works through its loop once per path element.  The
    lemmas below follow the loop element by element, give the shape of the
    buffer it builds, and derive that cleaning is idempotent, what relative
    local paths look like, and what joining them to a base yields. *)

Module CleanPaths.
Import Filepath.

Lemma copy_elem_length (p out : bytes) :
  length (fst (copy_elem p out)) <= length p.
Proof.
  revert out. induction p as [|c p IH]; intros out; simpl; [lia|].
  destruct (IsPathSeparator c); simpl; [lia|]. specialize (IH (c :: out)). lia.
Qed.

Lemma clean_loop_nil fuel rooted out dd : clean_loop fuel rooted [] out dd = out.
Proof. destruct fuel; reflexivity. Qed.

Lemma clean_loop_step fuel rooted c p1 out dd :
  clean_loop (S fuel) rooted (c :: p1) out dd =
    let '(rest, out', dd') := clean_iter rooted c p1 out dd in
    clean_loop fuel rooted rest out' dd'.
Proof. reflexivity. Qed.

Lemma clean_iter_length rooted c p1 out dd :
  length (fst (fst (clean_iter rooted c p1 out dd))) <= length p1.
Proof.
  unfold clean_iter.
  destruct (IsPathSeparator c) eqn:E1; [simpl; lia|].
  destruct (ascii_eqb c "." && elem_end p1) eqn:E2; [simpl; lia|].
  match goal with |- context [if ?b then _ else _] => destruct b eqn:E3 end.
  - assert (length (tl p1) <= length p1) by (destruct p1; simpl; lia).
    destruct out as [|d out']; [destruct (negb rooted); simpl; lia|].
    destruct (dd <? length (d :: out'))%nat; [simpl; lia|].
    destruct (negb rooted); simpl; lia.
  - cbn [copy_elem]. rewrite E1.
    match goal with |- context [copy_elem p1 ?o] =>
      pose proof (copy_elem_length p1 o) as Hl; destruct (copy_elem p1 o) as [rest out2]
    end. simpl in *. lia.
Qed.

(** Fuel beyond the length of the input makes no difference. *)
Lemma clean_loop_fuel f1 f2 rooted p out dd :
  length p <= f1 -> length p <= f2 ->
  clean_loop f1 rooted p out dd = clean_loop f2 rooted p out dd.
Proof.
  revert f2 p out dd. induction f1 as [|f1 IH]; intros f2 p out dd H1 H2.
  - destruct p; [|simpl in H1; lia]. now rewrite !clean_loop_nil.
  - destruct p as [|c p1]; [now rewrite !clean_loop_nil|].
    destruct f2 as [|f2]; [simpl in H2; lia|].
    rewrite !clean_loop_step.
    pose proof (clean_iter_length rooted c p1 out dd) as Hl.
    destruct (clean_iter rooted c p1 out dd) as [[rest out'] dd'].
    simpl in *. apply IH; lia.
Qed.

(** The loop with just enough fuel. *)
Definition cl (rooted : bool) (p out : bytes) (dd : nat) : bytes :=
  clean_loop (length p) rooted p out dd.

Lemma cl_nil rooted out dd : cl rooted [] out dd = out.
Proof. reflexivity. Qed.

Lemma cl_cons rooted c p1 out dd :
  cl rooted (c :: p1) out dd =
    let '(rest, out', dd') := clean_iter rooted c p1 out dd in
    cl rooted rest out' dd'.
Proof.
  unfold cl. cbn [length]. rewrite clean_loop_step.
  pose proof (clean_iter_length rooted c p1 out dd) as Hl.
  destruct (clean_iter rooted c p1 out dd) as [[rest out'] dd'].
  simpl in Hl. apply clean_loop_fuel; lia.
Qed.

Lemma clean_loop_cl fuel rooted p out dd :
  length p <= fuel -> clean_loop fuel rooted p out dd = cl rooted p out dd.
Proof. intros Hf. unfold cl. apply clean_loop_fuel; lia. Qed.

(** Path elements: no separator inside. *)
Definition no_sep (e : bytes) : Prop := Forall (fun c => IsPathSeparator c = false) e.

Definition dot : ascii := "."%char.

(** A real element: not empty, not [.], not [..]. *)
Definition real (e : bytes) : Prop :=
  e <> [] /\ no_sep e /\ e <> [dot] /\ e <> [dot; dot].

Lemma dot_not_sep : IsPathSeparator dot = false.
Proof. reflexivity. Qed.

Lemma ascii_eqb_eq (a b : ascii) : ascii_eqb a b = true <-> a = b.
Proof. unfold ascii_eqb. apply Ascii.eqb_eq. Qed.

Lemma IsPathSeparator_true (c : ascii) : IsPathSeparator c = true <-> c = Separator.
Proof. unfold IsPathSeparator. apply ascii_eqb_eq. Qed.

Lemma cl_sep rooted p out dd : cl rooted (Separator :: p) out dd = cl rooted p out dd.
Proof. rewrite cl_cons. reflexivity. Qed.

Lemma cl_dot rooted t out dd :
  elem_end t = true -> cl rooted (dot :: t) out dd = cl rooted t out dd.
Proof.
  intros Ht. rewrite cl_cons. unfold clean_iter.
  rewrite dot_not_sep. rewrite Ht. reflexivity.
Qed.

(** What a [..] element does to the buffer and to [dotdot]. *)
Definition dotdot_step (rooted : bool) (out : bytes) (dd : nat) : bytes * nat :=
  match out with
  | d :: out' =>
      if (dd <? length out)%nat then (backtrack dd d out', dd)
      else if negb rooted then
        (dot :: dot :: Separator :: out, S (S (S (length out))))
      else (out, dd)
  | [] => if negb rooted then ([dot; dot], 2) else (out, dd)
  end.

Lemma cl_dotdot rooted t out dd :
  elem_end t = true ->
  cl rooted (dot :: dot :: t) out dd =
    cl rooted t (fst (dotdot_step rooted out dd)) (snd (dotdot_step rooted out dd)).
Proof.
  intros Ht. rewrite cl_cons. unfold clean_iter, dotdot_step.
  rewrite dot_not_sep.
  replace (ascii_eqb dot "." && elem_end (dot :: t)) with false by reflexivity.
  replace (ascii_eqb dot "." && (ascii_eqb dot "." && elem_end t)) with true
    by (now rewrite Ht).
  cbn [tl].
  destruct out as [|d out']; [destruct (negb rooted); reflexivity|].
  destruct (dd <? length (d :: out'))%nat; [reflexivity|].
  destruct (negb rooted); reflexivity.
Qed.

Definition need_sep (rooted : bool) (out : bytes) : bool :=
  (rooted && negb (length out =? 1)%nat) || (negb rooted && negb (length out =? 0)%nat).

Definition with_sep (rooted : bool) (out : bytes) : bytes :=
  if need_sep rooted out then Separator :: out else out.

Lemma copy_elem_app (e t out : bytes) :
  no_sep e -> elem_end t = true ->
  copy_elem (e ++ t) out = (t, rev e ++ out).
Proof.
  intros He Ht. revert out. induction He as [|c e Hc He IH]; intros out.
  - destruct t as [|c t]; [reflexivity|]. simpl in *. now rewrite Ht.
  - cbn [app copy_elem]. rewrite Hc. rewrite IH. cbn [rev].
    now rewrite <- app_assoc.
Qed.

Lemma cl_real rooted e t out dd :
  real e -> elem_end t = true ->
  cl rooted (e ++ t) out dd = cl rooted t (rev e ++ with_sep rooted out) dd.
Proof.
  intros (Hne & Hns & Hd & Hdd) Ht. unfold dot in Hd, Hdd.
  destruct e as [|c e1]; [congruence|].
  cbn [app]. rewrite cl_cons. unfold clean_iter.
  inversion Hns as [|? ? Hc Hns1]; subst.
  rewrite Hc.
  assert (E2 : ascii_eqb c "." && elem_end (e1 ++ t) = false).
  { destruct (ascii_eqb c ".") eqn:Ec; [|reflexivity]. apply ascii_eqb_eq in Ec. subst c.
    destruct e1 as [|c1 e2]; [congruence|].
    inversion Hns1; subst. simpl. assumption. }
  rewrite E2.
  assert (E3 : ascii_eqb c "." &&
               match e1 ++ t with
               | c1 :: p2 => ascii_eqb c1 "." && elem_end p2
               | [] => false
               end = false).
  { destruct (ascii_eqb c ".") eqn:Ec; [|reflexivity]. apply ascii_eqb_eq in Ec. subst c.
    destruct e1 as [|c1 e2]; [congruence|]. cbn [app].
    destruct (ascii_eqb c1 ".") eqn:Ec1; [|reflexivity]. apply ascii_eqb_eq in Ec1. subst c1.
    destruct e2 as [|c2 e3]; [congruence|].
    inversion Hns1 as [|? ? _ Hns2]; subst. inversion Hns2; subst.
    simpl. assumption. }
  rewrite E3.
  change (c :: e1 ++ t) with ((c :: e1) ++ t).
  rewrite copy_elem_app by assumption.
  reflexivity.
Qed.

(** The first element of an input that does not start with a separator. *)
Lemma first_elem (c : ascii) (p : bytes) :
  IsPathSeparator c = false ->
  exists e t, c :: p = e ++ t /\ e <> [] /\ no_sep e /\ elem_end t = true
              /\ length t <= length p.
Proof.
  revert c. induction p as [|c' p IH]; intros c Hc.
  - exists [c], []. split; [reflexivity|]. split; [discriminate|].
    split; [constructor; [assumption | constructor]|]. split; [reflexivity | simpl; lia].
  - destruct (IsPathSeparator c') eqn:E.
    + exists [c], (c' :: p). split; [reflexivity|]. split; [discriminate|].
      split; [constructor; [assumption | constructor]|].
      split; [exact E | simpl; lia].
    + destruct (IH c' E) as (e & t & Heq & Hne & Hns & Ht & Hl).
      exists (c :: e), t. split; [now rewrite Heq|]. split; [discriminate|].
      split; [constructor; assumption|]. split; [assumption | simpl in *; lia].
Qed.

(** Composition: what the loop does to [p] does not depend on what follows
    the separator after [p]. *)
Lemma cl_compose rooted (p : bytes) :
  forall out dd, exists out' dd',
    cl rooted p out dd = out'
    /\ forall p2, cl rooted (p ++ Separator :: p2) out dd
                  = cl rooted (Separator :: p2) out' dd'.
Proof.
  remember (length p) as n eqn:Hn. revert p Hn.
  induction n as [n IH] using lt_wf_ind. intros p Hn out dd.
  destruct p as [|c p1].
  - exists out, dd. split; reflexivity.
  - destruct (IsPathSeparator c) eqn:Ec.
    + apply IsPathSeparator_true in Ec. subst c.
      destruct (IH (length p1) ltac:(simpl in Hn; lia) p1 eq_refl out dd)
        as (out' & dd' & H1 & H2).
      exists out', dd'. split.
      * now rewrite cl_sep.
      * intros p2. cbn [app]. rewrite cl_sep. apply H2.
    + destruct (first_elem c p1 Ec) as (e & t & Heq & Hne & Hns & Ht & Hl).
      rewrite Heq.
      assert (Ht2 : forall p2, elem_end (t ++ Separator :: p2) = true).
      { intros p2. destruct t; [reflexivity | exact Ht]. }
      assert (Hlt : length t < n) by (simpl in Hn; lia).
      destruct (decide (e = [dot])) as [Hd|Hd];
        [|destruct (decide (e = [dot; dot])) as [Hdd|Hdd]].
      * subst e. cbn [app].
        destruct (IH (length t) Hlt t eq_refl out dd) as (out' & dd' & H1 & H2).
        exists out', dd'. split.
        -- now rewrite cl_dot.
        -- intros p2. rewrite cl_dot by apply Ht2. apply H2.
      * subst e. cbn [app].
        destruct (IH (length t) Hlt t eq_refl
                    (fst (dotdot_step rooted out dd)) (snd (dotdot_step rooted out dd)))
          as (out' & dd' & H1 & H2).
        exists out', dd'. split.
        -- now rewrite cl_dotdot.
        -- intros p2. rewrite cl_dotdot by apply Ht2. apply H2.
      * assert (Hreal : real e) by (repeat split; assumption).
        destruct (IH (length t) Hlt t eq_refl (rev e ++ with_sep rooted out) dd)
          as (out' & dd' & H1 & H2).
        exists out', dd'. split.
        -- now rewrite cl_real.
        -- intros p2. rewrite <- app_assoc. rewrite cl_real by auto. apply H2.
Qed.

(** The buffer turned into the result: the empty string becomes [.]. *)
Definition final (out : bytes) : bytes :=
  match out with
  | [] => [dot]
  | _ => rev out
  end.

Lemma clean_cl (p : bytes) :
  clean p =
    match p with
    | [] => [dot]
    | c :: rest =>
        final (if IsPathSeparator c then cl true rest [Separator] 1
               else cl false p [] 0)
    end.
Proof.
  unfold clean, final. destruct p as [|c rest]; [reflexivity|].
  destruct (IsPathSeparator c).
  - rewrite clean_loop_cl by (simpl; lia). reflexivity.
  - rewrite clean_loop_cl by (simpl; lia). reflexivity.
Qed.

(** *** The shape of the buffer

    The buffer holds, from its start: the root [/], or [k] elements [..]
    (not rooted); then a stack of real elements.  All are kept in reverse,
    as the buffer is. *)

Fixpoint rdots (k : nat) : bytes :=
  match k with
  | O => []
  | S k' => dot :: dot :: with_sep false (rdots k')
  end.

Definition rbase (rooted : bool) (k : nat) : bytes :=
  if rooted then [Separator] else rdots k.

Fixpoint rbuf (rooted : bool) (k : nat) (stack : list bytes) : bytes :=
  match stack with
  | [] => rbase rooted k
  | e :: stack' => rev e ++ with_sep rooted (rbuf rooted k stack')
  end.

Definition ddof (rooted : bool) (k : nat) : nat := length (rbase rooted k).

Definition good (rooted : bool) (k : nat) (stack : list bytes) : Prop :=
  (rooted = true -> k = 0) /\ Forall real stack.

Lemma with_sep_length rooted out : length out <= length (with_sep rooted out).
Proof. unfold with_sep. destruct (need_sep rooted out); simpl; lia. Qed.

Lemma rbuf_length rooted k stack : ddof rooted k <= length (rbuf rooted k stack).
Proof.
  induction stack as [|e stack IH]; [reflexivity|].
  cbn [rbuf]. rewrite length_app.
  pose proof (with_sep_length rooted (rbuf rooted k stack)). lia.
Qed.

Lemma backtrack_sep (dd : nat) (d : ascii) (xr b : bytes) :
  no_sep (d :: xr) -> dd <= length b ->
  backtrack dd d (xr ++ Separator :: b) = b.
Proof.
  revert d. induction xr as [|c xr IH]; intros d Hns Hdd.
  - cbn [app backtrack]. inversion Hns; subst.
    replace (dd <? length (Separator :: b))%nat with true
      by (symmetry; apply Nat.ltb_lt; simpl; lia).
    rewrite H1. cbn [andb negb]. destruct b as [|d' b']; [reflexivity|].
    cbn [backtrack]. replace (IsPathSeparator Separator) with true by reflexivity.
    now rewrite andb_false_r.
  - cbn [app backtrack]. inversion Hns; subst.
    replace (dd <? length (c :: xr ++ Separator :: b))%nat with true
      by (symmetry; apply Nat.ltb_lt; simpl; rewrite length_app; simpl; lia).
    rewrite H1. cbn [andb negb]. apply IH; assumption.
Qed.

Lemma backtrack_base (dd : nat) (d : ascii) (xr b : bytes) :
  no_sep (d :: xr) -> length b = dd ->
  backtrack dd d (xr ++ b) = b.
Proof.
  revert d. induction xr as [|c xr IH]; intros d Hns Hdd.
  - cbn [app]. destruct b as [|d' b']; [reflexivity|].
    cbn [backtrack].
    replace (dd <? length (d' :: b'))%nat with false
      by (symmetry; apply Nat.ltb_ge; lia).
    reflexivity.
  - cbn [app backtrack]. inversion Hns; subst.
    replace (length b <? length (c :: xr ++ b))%nat with true
      by (symmetry; apply Nat.ltb_lt; simpl; rewrite length_app; lia).
    rewrite H1. cbn [andb negb]. apply IH; [assumption | reflexivity].
Qed.

Lemma no_sep_rev (e : bytes) : no_sep e -> no_sep (rev e).
Proof. unfold no_sep. intros H. now apply List.Forall_rev. Qed.

(** A [..] element on a buffer of that shape: it pops the last real element,
    or stays at the root, or adds one more [..]. *)
Definition pop (rooted : bool) (k : nat) (stack : list bytes) : nat * list bytes :=
  match stack with
  | _ :: stack' => (k, stack')
  | [] => if rooted then (k, []) else (S k, [])
  end.

Lemma dotdot_step_good rooted k stack :
  good rooted k stack ->
  dotdot_step rooted (rbuf rooted k stack) (ddof rooted k) =
    (rbuf rooted (fst (pop rooted k stack)) (snd (pop rooted k stack)),
     ddof rooted (fst (pop rooted k stack))).
Proof.
  intros [Hk Hst]. destruct stack as [|e stack'].
  - cbn [rbuf pop]. unfold ddof, rbase.
    destruct rooted.
    + reflexivity.
    + cbn [fst snd rbuf rbase]. destruct k as [|j].
      * reflexivity.
      * cbn [rdots]. unfold dotdot_step.
        rewrite Nat.ltb_irrefl. cbn [negb rdots].
        unfold with_sep at 3. unfold need_sep. cbn [negb andb orb length Nat.eqb].
        reflexivity.
  - cbn [pop fst snd rbuf]. inversion Hst as [|? ? He Hst']; subst.
    destruct He as (Hne & Hns & _).
    pose proof (no_sep_rev e Hns) as Hr.
    destruct (rev e) as [|d xr] eqn:Erev.
    { exfalso. apply Hne. apply (f_equal (@rev ascii)) in Erev.
      now rewrite rev_involutive in Erev. }
    cbn [app]. unfold dotdot_step.
    pose proof (rbuf_length rooted k stack') as Hlen.
    pose proof (with_sep_length rooted (rbuf rooted k stack')) as Hws.
    replace (ddof rooted k <? length (d :: xr ++ with_sep rooted (rbuf rooted k stack')))%nat
      with true
      by (symmetry; apply Nat.ltb_lt; simpl; rewrite length_app; lia).
    f_equal. unfold with_sep.
    destruct (need_sep rooted (rbuf rooted k stack')) eqn:En.
    + apply backtrack_sep; assumption.
    + apply backtrack_base; [assumption|].
      unfold need_sep in En. unfold ddof, rbase in *.
      destruct rooted; cbn [andb orb negb] in En.
      * rewrite orb_false_r in En. apply negb_false_iff in En.
        apply Nat.eqb_eq in En. simpl. exact En.
      * apply negb_false_iff in En. apply Nat.eqb_eq in En. simpl in *. lia.
Qed.

Lemma pop_good rooted k stack :
  good rooted k stack -> good rooted (fst (pop rooted k stack)) (snd (pop rooted k stack)).
Proof.
  intros [Hk Hst]. destruct stack as [|e stack']; cbn [pop].
  - destruct rooted; cbn [fst snd]; split; auto. discriminate.
  - cbn [fst snd]. inversion Hst; subst. split; auto.
Qed.

(** The loop keeps the shape of the buffer. *)
Lemma cl_good rooted (p : bytes) :
  forall k stack, good rooted k stack ->
    exists k' stack', good rooted k' stack'
      /\ cl rooted p (rbuf rooted k stack) (ddof rooted k) = rbuf rooted k' stack'.
Proof.
  remember (length p) as n eqn:Hn. revert p Hn.
  induction n as [n IH] using lt_wf_ind. intros p Hn k stack Hg.
  destruct p as [|c p1].
  - exists k, stack. split; [assumption | reflexivity].
  - destruct (IsPathSeparator c) eqn:Ec.
    + apply IsPathSeparator_true in Ec. subst c. rewrite cl_sep.
      apply (IH (length p1)); [simpl in Hn; lia | reflexivity | assumption].
    + destruct (first_elem c p1 Ec) as (e & t & Heq & Hne & Hns & Ht & Hl).
      rewrite Heq.
      assert (Hlt : length t < n) by (simpl in Hn; lia).
      destruct (decide (e = [dot])) as [Hd|Hd];
        [|destruct (decide (e = [dot; dot])) as [Hdd|Hdd]].
      * subst e. cbn [app]. rewrite cl_dot by assumption.
        apply (IH (length t)); [assumption | reflexivity | assumption].
      * subst e. cbn [app]. rewrite cl_dotdot by assumption.
        rewrite dotdot_step_good by assumption. cbn [fst snd].
        apply (IH (length t)); [assumption | reflexivity |].
        now apply pop_good.
      * assert (Hreal : real e) by (repeat split; assumption).
        rewrite cl_real by assumption.
        change (rev e ++ with_sep rooted (rbuf rooted k stack))
          with (rbuf rooted k (e :: stack)).
        apply (IH (length t)); [assumption | reflexivity |].
        destruct Hg as [Hk Hst]. split; [assumption | constructor; assumption].
Qed.

(** The result of [clean] has that shape. *)
Lemma clean_shape (p : bytes) :
  exists rooted k stack,
    good rooted k stack /\ clean p = final (rbuf rooted k stack)
    /\ (rooted = true <-> exists rest, p = Separator :: rest).
Proof.
  rewrite clean_cl. destruct p as [|c rest].
  - exists false, 0, []. split; [split; [discriminate | constructor]|].
    split; [reflexivity|]. split; [discriminate | intros [r Hr]; discriminate].
  - destruct (IsPathSeparator c) eqn:Ec.
    + apply IsPathSeparator_true in Ec. subst c.
      destruct (cl_good true rest 0 [] ltac:(split; [reflexivity | constructor]))
        as (k' & stack' & Hg & Hcl).
      exists true, k', stack'. split; [assumption|]. cbn [rbuf rbase ddof length] in Hcl.
      rewrite Hcl. split; [reflexivity|]. split; [intros _; eexists; reflexivity | reflexivity].
    + destruct (cl_good false (c :: rest) 0 [] ltac:(split; [discriminate | constructor]))
        as (k' & stack' & Hg & Hcl).
      exists false, k', stack'. split; [assumption|]. cbn [rbuf rbase ddof length rdots] in Hcl.
      rewrite Hcl. split; [reflexivity|]. split; [discriminate|].
      intros [r Hr]. injection Hr as -> _. discriminate Ec.
Qed.

(** *** Cleaning a clean path *)

(** Pushing real elements, and the text that is read for it. *)
Fixpoint push_all (rooted : bool) (out : bytes) (es : list bytes) : bytes :=
  match es with
  | [] => out
  | e :: es' => push_all rooted (rev e ++ with_sep rooted out) es'
  end.

Fixpoint elems_text (rooted : bool) (out : bytes) (es : list bytes) : bytes :=
  match es with
  | [] => []
  | e :: es' =>
      (if need_sep rooted out then [Separator] else [])
      ++ e ++ elems_text rooted (rev e ++ with_sep rooted out) es'
  end.

Lemma rbuf_push_all rooted k stack :
  rbuf rooted k stack = push_all rooted (rbase rooted k) (rev stack).
Proof.
  assert (G : forall es out e,
             push_all rooted out (es ++ [e])
             = rev e ++ with_sep rooted (push_all rooted out es)).
  { induction es as [|x es IH]; intros out e; [reflexivity|].
    cbn [app push_all]. apply IH. }
  induction stack as [|e stack IH]; [reflexivity|].
  cbn [rbuf rev]. rewrite G. now rewrite IH.
Qed.

Lemma rev_push_all rooted out es :
  rev (push_all rooted out es) = rev out ++ elems_text rooted out es.
Proof.
  revert out. induction es as [|e es IH]; intros out.
  - cbn. now rewrite app_nil_r.
  - cbn [push_all elems_text]. rewrite IH. rewrite rev_app_distr, rev_involutive.
    unfold with_sep. destruct (need_sep rooted out); cbn [rev app];
      now rewrite <- ?app_assoc.
Qed.

Lemma real_head_not_sep (e t : bytes) :
  real e -> exists c r, e ++ t = c :: r /\ IsPathSeparator c = false.
Proof.
  intros (Hne & Hns & _). destruct e as [|c e']; [congruence|].
  inversion Hns; subst. exists c, (e' ++ t). auto.
Qed.

Lemma need_sep_after_push rooted e out :
  e <> [] -> (rooted = true -> out <> []) ->
  need_sep rooted (rev e ++ with_sep rooted out) = true.
Proof.
  intros Hne Hout. unfold need_sep.
  assert (Hl : 1 <= length (rev e)).
  { rewrite length_rev. destruct e; [congruence | simpl; lia]. }
  pose proof (with_sep_length rooted out) as Hw.
  rewrite length_app.
  destruct rooted; cbn [andb orb negb].
  - assert (1 <= length out) by (destruct out; [now specialize (Hout eq_refl) | simpl; lia]).
    rewrite orb_false_r. apply negb_true_iff. apply Nat.eqb_neq. lia.
  - apply negb_true_iff. apply Nat.eqb_neq. lia.
Qed.

Lemma elems_text_end rooted out es :
  need_sep rooted out = true -> elem_end (elems_text rooted out es) = true.
Proof.
  intros Hn. destruct es as [|e es]; [reflexivity|].
  cbn [elems_text]. rewrite Hn. reflexivity.
Qed.

Lemma cl_elems rooted es :
  forall out dd,
    Forall real es -> (rooted = true -> out <> []) ->
    cl rooted (elems_text rooted out es) out dd = push_all rooted out es.
Proof.
  induction es as [|e es IH]; intros out dd Hes Hout; [reflexivity|].
  inversion Hes as [|? ? He Hes']; subst.
  cbn [elems_text push_all].
  assert (Hend : elem_end (elems_text rooted (rev e ++ with_sep rooted out) es) = true).
  { apply elems_text_end. apply need_sep_after_push; [apply He | assumption]. }
  assert (Hne : rooted = true -> rev e ++ with_sep rooted out <> []).
  { intros _ Hnil. apply app_eq_nil in Hnil. destruct Hnil as [Hr _].
    destruct He as [Hne _]. apply Hne. apply (f_equal (@rev ascii)) in Hr.
    now rewrite rev_involutive in Hr. }
  destruct (need_sep rooted out); cbn [app].
  - rewrite cl_sep. rewrite cl_real by assumption. now apply IH.
  - rewrite cl_real by assumption. now apply IH.
Qed.

(** The text of [k] more [..] elements after [j] of them. *)
Fixpoint dots_text (j k : nat) : bytes :=
  match k with
  | O => []
  | S k' =>
      (if need_sep false (rdots j) then [Separator] else [])
      ++ dot :: dot :: dots_text (S j) k'
  end.

Lemma rdots_nonempty j : rdots (S j) <> [].
Proof. discriminate. Qed.

Lemma need_sep_rdots j : need_sep false (rdots (S j)) = true.
Proof. reflexivity. Qed.

Lemma rev_rdots j k : rev (rdots (k + j)) = rev (rdots j) ++ dots_text j k.
Proof.
  revert j. induction k as [|k IH]; intros j.
  - cbn. now rewrite app_nil_r.
  - replace (S k + j) with (k + S j) by lia. rewrite IH.
    cbn [rdots dots_text]. unfold with_sep.
    destruct (need_sep false (rdots j)); cbn [rev app];
      rewrite <- ?app_assoc; reflexivity.
Qed.

Lemma dots_text_end j k t :
  elem_end t = true -> elem_end (dots_text (S j) k ++ t) = true.
Proof. intros Ht. destruct k; [exact Ht | reflexivity]. Qed.

Lemma cl_dots (k : nat) :
  forall j t, (k = 0 \/ elem_end t = true) ->
    cl false (dots_text j k ++ t) (rdots j) (length (rdots j))
    = cl false t (rdots (k + j)) (length (rdots (k + j))).
Proof.
  induction k as [|k IH]; intros j t Ht; [reflexivity|].
  destruct Ht as [Ht|Ht]; [discriminate|].
  cbn [dots_text].
  assert (Hstep : dotdot_step false (rdots j) (length (rdots j))
                  = (rdots (S j), length (rdots (S j)))).
  { pose proof (dotdot_step_good false j []
                  ltac:(split; [discriminate | constructor])) as Hs.
    exact Hs. }
  replace (S k + j) with (k + S j) by lia.
  destruct (need_sep false (rdots j)); cbn [app]; rewrite <- ?app_assoc.
  - rewrite cl_sep. cbn [app]. rewrite cl_dotdot by (now apply dots_text_end).
    rewrite Hstep. cbn [fst snd]. apply IH. now right.
  - cbn [app]. rewrite cl_dotdot by (now apply dots_text_end).
    rewrite Hstep. cbn [fst snd]. apply IH. now right.
Qed.

Lemma final_nonempty (out : bytes) : out <> [] -> final out = rev out.
Proof. destruct out; [congruence | reflexivity]. Qed.

Lemma clean_dot : clean [dot] = [dot].
Proof. reflexivity. Qed.

(** A path of the shape that [clean] produces is left as it is. *)
Lemma clean_final_rbuf rooted k stack :
  good rooted k stack ->
  clean (final (rbuf rooted k stack)) = final (rbuf rooted k stack).
Proof.
  intros [Hk Hst].
  assert (Hes : Forall real (rev stack)) by (now apply List.Forall_rev).
  rewrite rbuf_push_all.
  destruct rooted.
  - (* rooted: "/" and the elements *)
    cbn [rbase].
    assert (Hne : push_all true [Separator] (rev stack) <> []).
    { intros Hnil. apply (f_equal (@rev ascii)) in Hnil.
      rewrite rev_push_all in Hnil. discriminate Hnil. }
    rewrite (final_nonempty _ Hne). rewrite rev_push_all. cbn [rev app].
    rewrite clean_cl. cbn [IsPathSeparator].
    replace (IsPathSeparator Separator) with true by reflexivity.
    rewrite cl_elems by (auto; discriminate).
    rewrite (final_nonempty _ Hne). now rewrite rev_push_all.
  - cbn [rbase].
    destruct (decide (push_all false (rdots k) (rev stack) = [])) as [Hnil|Hne].
    { rewrite Hnil. apply clean_dot. }
    set (q := dots_text 0 k ++ elems_text false (rdots k) (rev stack)).
    assert (Hq : rev (push_all false (rdots k) (rev stack)) = q).
    { rewrite rev_push_all.
      pose proof (rev_rdots 0 k) as Hr. rewrite Nat.add_0_r in Hr.
      rewrite Hr. reflexivity. }
    assert (Hcl : cl false q [] 0 = push_all false (rdots k) (rev stack)).
    { assert (Ht : k = 0 \/ elem_end (elems_text false (rdots k) (rev stack)) = true).
      { destruct k as [|k']; [now left | right].
        apply elems_text_end. apply need_sep_rdots. }
      pose proof (cl_dots k 0 (elems_text false (rdots k) (rev stack)) Ht) as Hd.
      rewrite Nat.add_0_r in Hd. cbn [rdots length] in Hd. unfold q. rewrite Hd.
      apply cl_elems; [assumption | discriminate]. }
    rewrite (final_nonempty _ Hne). rewrite Hq.
    assert (Hhead : exists c rest, q = c :: rest /\ IsPathSeparator c = false).
    { unfold q. destruct k as [|k'].
      - cbn [dots_text app].
        destruct (rev stack) as [|e es] eqn:Erev.
        { exfalso. apply Hne. reflexivity. }
        cbn [elems_text rdots]. unfold need_sep.
        cbn [length Nat.eqb negb andb orb app].
        inversion Hes as [|? ? He _]; subst.
        apply real_head_not_sep. exact He.
      - cbn [dots_text rdots]. unfold need_sep.
        cbn [length Nat.eqb negb andb orb app].
        eexists _, _. split; reflexivity. }
    destruct Hhead as (c & rest & Hqeq & Hc).
    rewrite clean_cl. rewrite Hqeq. rewrite Hc. rewrite <- Hqeq.
    rewrite Hcl. rewrite (final_nonempty _ Hne). exact Hq.
Qed.

(** [Clean] is idempotent. *)
Lemma clean_idempotent (p : bytes) : clean (clean p) = clean p.
Proof.
  destruct (clean_shape p) as (rooted & k & stack & Hg & Heq & _).
  rewrite Heq. now apply clean_final_rbuf.
Qed.

Lemma Clean_idempotent (p : string) : Clean (Clean p) = Clean p.
Proof. unfold Clean. rewrite s2b_b2s. now rewrite clean_idempotent. Qed.

(** *** Relative local paths, and joining them to a base *)

(** Real elements joined by separators: the clean, relative, local paths
    other than [.]. *)
Definition canon (q : bytes) : Prop :=
  exists es, es <> [] /\ Forall real es /\ q = elems_text false [] es.

Definition slashed (es : list bytes) : bytes :=
  concat (map (fun e => Separator :: e) es).

Lemma elems_text_slashed rooted es :
  forall out, Forall real es -> need_sep rooted out = true ->
    (rooted = true -> out <> []) ->
    elems_text rooted out es = slashed es.
Proof.
  induction es as [|e es IH]; intros out Hes Hn Hout; [reflexivity|].
  inversion Hes as [|? ? He Hes']; subst.
  cbn [elems_text]. rewrite Hn. unfold slashed. cbn [map concat app].
  f_equal. f_equal. apply IH; [assumption | |].
  - apply need_sep_after_push; [apply He | assumption].
  - intros _ Hnil. apply app_eq_nil in Hnil. destruct Hnil as [Hr _].
    destruct He as [Hne _]. apply Hne. apply (f_equal (@rev ascii)) in Hr.
    now rewrite rev_involutive in Hr.
Qed.

Lemma canon_text (e : bytes) (es : list bytes) :
  Forall real (e :: es) -> elems_text false [] (e :: es) = e ++ slashed es.
Proof.
  intros Hes. inversion Hes as [|? ? He Hes']; subst.
  cbn [elems_text]. unfold need_sep, with_sep, need_sep.
  cbn [length Nat.eqb negb andb orb app]. f_equal.
  apply elems_text_slashed; [assumption | | discriminate].
  rewrite app_nil_r. unfold need_sep. cbn [negb andb orb].
  apply negb_true_iff. apply Nat.eqb_neq. rewrite length_rev.
  destruct He as [Hne _]. destruct e; [congruence | simpl; lia].
Qed.

Lemma slashed_end es : elem_end (slashed es) = true.
Proof. destruct es; reflexivity. Qed.

Lemma escapes_dots (k : nat) (t : bytes) :
  elem_end t = true -> escapes (rev (rdots (S k)) ++ t) = true.
Proof.
  intros Ht.
  pose proof (rev_rdots 0 (S k)) as Hr. rewrite Nat.add_0_r in Hr.
  rewrite Hr. cbn [rdots rev app dots_text]. unfold need_sep.
  cbn [length Nat.eqb negb andb orb app].
  unfold escapes.
  destruct (dots_text 1 k ++ t) as [|c r] eqn:E.
  - reflexivity.
  - assert (Hc : IsPathSeparator c = true).
    { destruct k as [|k'].
      - cbn [dots_text app] in E. subst t. exact Ht.
      - cbn [dots_text] in E. rewrite need_sep_rdots in E. cbn [app] in E.
        injection E as <- _. reflexivity. }
    apply IsPathSeparator_true in Hc. subst c.
    apply orb_true_iff. right. reflexivity.
Qed.

Lemma is_local_clean (q : bytes) :
  clean q = q ->
  is_local q =
    match q with
    | [] => false
    | c :: _ => if IsPathSeparator c then false else negb (escapes q)
    end.
Proof.
  intros Hq. unfold is_local. destruct q as [|c r]; [reflexivity|].
  destruct (IsPathSeparator c); [reflexivity|].
  rewrite Hq. now destruct (has_dots _ _).
Qed.

(** A cleaned path that is relative and local is [.] or real elements. *)
Lemma relative_local_shape (p : bytes) :
  Strings.has_prefix (clean p) [Separator] = false ->
  is_local (clean p) = true ->
  clean p = [dot] \/ canon (clean p).
Proof.
  intros Habs Hloc.
  rewrite is_local_clean in Hloc by apply clean_idempotent.
  destruct (clean_shape p) as (rooted & k & stack & [Hk Hst] & Heq & _).
  rewrite Heq in *. clear Heq.
  assert (Hes : Forall real (rev stack)) by (now apply List.Forall_rev).
  rewrite rbuf_push_all in *.
  destruct rooted.
  - exfalso. cbn [rbase] in *.
    assert (Hne : push_all true [Separator] (rev stack) <> []).
    { intros Hnil. apply (f_equal (@rev ascii)) in Hnil.
      rewrite rev_push_all in Hnil. discriminate Hnil. }
    rewrite (final_nonempty _ Hne) in Habs. rewrite rev_push_all in Habs.
    cbn in Habs. discriminate Habs.
  - cbn [rbase] in *.
    destruct (decide (push_all false (rdots k) (rev stack) = [])) as [Hnil|Hne].
    { left. rewrite Hnil. reflexivity. }
    rewrite (final_nonempty _ Hne) in *. rewrite rev_push_all in *.
    destruct k as [|k'].
    + right. cbn [rdots rev app] in *.
      exists (rev stack). split; [|split; [assumption | reflexivity]].
      intros Hnil. apply Hne. rewrite Hnil. reflexivity.
    + exfalso.
      assert (Hesc : escapes (rev (rdots (S k')) ++ elems_text false (rdots (S k')) (rev stack))
                     = true).
      { apply escapes_dots. apply elems_text_end. apply need_sep_rdots. }
      rewrite Hesc in Hloc.
      destruct (rev (rdots (S k')) ++ _) as [|c r]; [discriminate|].
      destruct (IsPathSeparator c); discriminate.
Qed.

Lemma canon_nonempty q : canon q -> q <> [].
Proof.
  intros (es & Hne & Hes & ->). destruct es as [|e es]; [congruence|].
  rewrite canon_text by assumption. inversion Hes as [|? ? He _]; subst.
  destruct He as [He _]. destruct e; [congruence | discriminate].
Qed.

Lemma canon_not_dot q : canon q -> q <> [dot].
Proof.
  intros (es & Hne & Hes & ->) Heq. destruct es as [|e es]; [congruence|].
  rewrite canon_text in Heq by assumption. inversion Hes as [|? ? He _]; subst.
  destruct He as (He & _ & Hd & _).
  destruct e as [|c e]; [congruence|]. cbn [app] in Heq.
  injection Heq as -> Hrest. apply app_eq_nil in Hrest. destruct Hrest as [-> _].
  now apply Hd.
Qed.

Lemma canon_head q :
  canon q -> exists c r, q = c :: r /\ IsPathSeparator c = false.
Proof.
  intros (es & Hne & Hes & ->). destruct es as [|e es]; [congruence|].
  rewrite canon_text by assumption.
  apply real_head_not_sep. now apply List.Forall_inv in Hes.
Qed.

Lemma canon_not_sep q : canon q -> q <> [Separator].
Proof.
  intros Hq Heq. destruct (canon_head q Hq) as (c & r & Hcr & Hc).
  rewrite Hcr in Heq. injection Heq as -> _. discriminate Hc.
Qed.

(** The text of a buffer: rooted, it starts with the separator; not rooted,
    it is neither the separator nor a dot. *)
Lemma rbuf_text rooted k stack :
  good rooted k stack -> rbuf rooted k stack <> [] ->
  (rooted = true ->
     exists t, rev (rbuf rooted k stack) = Separator :: t
       /\ (length (rbuf rooted k stack) = 1 -> t = []))
  /\ (rooted = false ->
        rev (rbuf rooted k stack) <> [Separator]
        /\ rev (rbuf rooted k stack) <> [dot]).
Proof.
  intros [Hk Hst] Hne.
  assert (Hes : Forall real (rev stack)) by (now apply List.Forall_rev).
  rewrite rbuf_push_all in *. rewrite rev_push_all. split.
  - intros ->. cbn [rbase rev app]. eexists. split; [reflexivity|].
    intros Hlen.
    assert (Hl : length (rev (push_all true [Separator] (rev stack))) = 1)
      by now rewrite length_rev.
    rewrite rev_push_all in Hl. cbn [rev app length] in Hl.
    destruct (elems_text true [Separator] (rev stack)); [reflexivity | discriminate].
  - intros ->. cbn [rbase] in *. destruct k as [|k'].
    + cbn [rdots rev app] in *.
      assert (Hc : canon (elems_text false [] (rev stack))).
      { exists (rev stack). split; [|split; [assumption | reflexivity]].
        intros Hnil. apply Hne. rewrite Hnil. reflexivity. }
      split; [now apply canon_not_sep | now apply canon_not_dot].
    + pose proof (rev_rdots 0 (S k')) as Hr. rewrite Nat.add_0_r in Hr.
      rewrite Hr. cbn [rdots rev app dots_text]. unfold need_sep.
      cbn [length Nat.eqb negb andb orb app]. split; discriminate.
Qed.

(** Cleaning [b ++ "/" ++ c] for a non-empty base [b] and a relative local
    [c]: the cleaned base, then [c] after a separator where one is needed. *)
Lemma clean_join (b : bytes) :
  b <> [] ->
  exists (x sep0 : bytes),
    clean (b ++ Separator :: [dot]) = clean b
    /\ ((x = [] /\ sep0 = [] /\ clean b = [dot])
        \/ (clean b = x /\ x = [Separator] /\ sep0 = [])
        \/ (clean b = x /\ x <> [Separator] /\ x <> [dot] /\ sep0 = [Separator]))
    /\ forall c, canon c -> clean (b ++ Separator :: c) = x ++ sep0 ++ c.
Proof.
  intros Hb. destruct b as [|cb brest]; [congruence|].
  set (rooted := IsPathSeparator cb).
  set (input := if rooted then brest else cb :: brest).
  set (out0 := if rooted then [Separator] else @nil ascii).
  set (dd0 := if rooted then 1 else 0).
  assert (Hclean : forall t,
             clean ((cb :: brest) ++ t) = final (cl rooted (input ++ t) out0 dd0)).
  { intros t. rewrite clean_cl. cbn [app]. unfold input, out0, dd0, rooted.
    destruct (IsPathSeparator cb); reflexivity. }
  assert (Hgood0 : good rooted 0 []).
  { split; [reflexivity | constructor]. }
  assert (Hstart : out0 = rbuf rooted 0 [] /\ dd0 = ddof rooted 0).
  { unfold out0, dd0. destruct rooted; split; reflexivity. }
  destruct Hstart as [Hout0 Hdd0].
  destruct (cl_compose rooted input out0 dd0) as (out' & dd' & Hcl & Hcomp).
  destruct (cl_good rooted input 0 [] Hgood0) as (k' & stack' & Hg' & Hshape).
  rewrite <- Hout0, <- Hdd0, Hcl in Hshape.
  assert (Hne' : rooted = true -> out' <> []).
  { intros Hr Hnil. pose proof (rbuf_length rooted k' stack') as Hl.
    rewrite <- Hshape, Hnil, Hr in Hl. cbn in Hl. lia. }
  assert (Hcb : clean (cb :: brest) = final out').
  { pose proof (Hclean []) as Hc. rewrite !app_nil_r in Hc. now rewrite Hc, Hcl. }
  exists (rev out'), (if need_sep rooted out' then [Separator] else []).
  split; [|split].
  - rewrite Hclean, Hcomp. rewrite cl_sep. rewrite cl_dot by reflexivity.
    rewrite cl_nil. now rewrite Hcb.
  - rewrite Hcb. destruct (decide (out' = [])) as [->|Hnil].
    { left. split; [reflexivity|]. split; [|reflexivity].
      unfold need_sep. destruct rooted; [now specialize (Hne' eq_refl) | reflexivity]. }
    right. rewrite (final_nonempty _ Hnil).
    assert (Hnil' : rbuf rooted k' stack' <> []) by now rewrite <- Hshape.
    destruct (rbuf_text rooted k' stack' Hg' Hnil') as [Hroot Hfree].
    rewrite <- Hshape in Hroot, Hfree.
    destruct rooted.
    + destruct (Hroot eq_refl) as (t & Ht & Hlen). unfold need_sep.
      cbn [andb orb negb]. rewrite orb_false_r.
      destruct (length out' =? 1)%nat eqn:E; cbn [negb].
      * left. apply Nat.eqb_eq in E. rewrite Ht, (Hlen E). auto.
      * right. apply Nat.eqb_neq in E. split; [reflexivity|].
        split; [|split; [|reflexivity]].
        -- intros Hx. apply E. rewrite <- length_rev, Hx. reflexivity.
        -- rewrite Ht. discriminate.
    + right. destruct (Hfree eq_refl) as [H1 H2].
      split; [reflexivity|]. split; [exact H1|]. split; [exact H2|].
      unfold need_sep. cbn [andb orb negb].
      destruct out'; [congruence | reflexivity].
  - intros c (es & Hes_ne & Hes & ->).
    destruct es as [|e es]; [congruence|].
    rewrite canon_text by assumption.
    pose proof (List.Forall_inv Hes) as He.
    pose proof (List.Forall_inv_tail Hes) as Hes'.
    rewrite Hclean, Hcomp. rewrite cl_sep.
    rewrite cl_real by (auto using slashed_end).
    assert (Hpush : rooted = true -> rev e ++ with_sep rooted out' <> []).
    { intros _ Hnil. apply app_eq_nil in Hnil. destruct Hnil as [Hr _].
      destruct He as [Hne _]. apply Hne. apply (f_equal (@rev ascii)) in Hr.
      now rewrite rev_involutive in Hr. }
    assert (Hneed : need_sep rooted (rev e ++ with_sep rooted out') = true).
    { apply need_sep_after_push; [apply He | assumption]. }
    rewrite <- (elems_text_slashed rooted es (rev e ++ with_sep rooted out'))
      by assumption.
    rewrite cl_elems by assumption.
    assert (Hne2 : push_all rooted (rev e ++ with_sep rooted out') es <> []).
    { intros Hnil. apply (f_equal (@rev ascii)) in Hnil.
      rewrite rev_push_all in Hnil. rewrite rev_app_distr, rev_involutive in Hnil.
      cbn [rev] in Hnil. apply app_eq_nil in Hnil. destruct Hnil as [Hnil _].
      apply app_eq_nil in Hnil. destruct Hnil as [_ Hnil].
      destruct He as [Hne _]. now apply Hne. }
    rewrite (final_nonempty _ Hne2). rewrite rev_push_all.
    rewrite rev_app_distr, rev_involutive.
    rewrite (elems_text_slashed rooted es) by assumption.
    unfold with_sep. destruct (need_sep rooted out'); cbn [rev app];
      rewrite <- ?app_assoc; reflexivity.
Qed.

(** Two relative local paths joined to the same base clean to different
    paths, unless they are equal. *)
Lemma clean_join_injective (b c1 c2 : bytes) :
  b <> [] ->
  (c1 = [dot] \/ canon c1) -> (c2 = [dot] \/ canon c2) ->
  clean (b ++ Separator :: c1) = clean (b ++ Separator :: c2) ->
  c1 = c2.
Proof.
  intros Hb H1 H2 Heq.
  destruct (clean_join b Hb) as (x & sep0 & Hdot & Hx & Hcanon).
  assert (Hmixed : forall c, canon c -> clean b <> x ++ sep0 ++ c).
  { intros c Hc Habs.
    assert (Hcase : clean b = x \/ (x = [] /\ sep0 = [] /\ clean b = [dot])).
    { destruct Hx as [H|[(H & _)|(H & _)]]; auto. }
    destruct Hcase as [Hx'|(-> & -> & Hx')].
    - rewrite Hx' in Habs. rewrite <- (app_nil_r x) in Habs at 1.
      apply app_inv_head in Habs. symmetry in Habs.
      apply app_eq_nil in Habs. destruct Habs as [_ Habs].
      now apply (canon_nonempty c).
    - cbn [app] in Habs. rewrite Hx' in Habs. symmetry in Habs.
      now apply (canon_not_dot c). }
  destruct H1 as [->|Hc1], H2 as [->|Hc2].
  - reflexivity.
  - exfalso. rewrite Hdot, (Hcanon _ Hc2) in Heq. now apply (Hmixed c2).
  - exfalso. rewrite Hdot, (Hcanon _ Hc1) in Heq. symmetry in Heq.
    now apply (Hmixed c1).
  - rewrite (Hcanon _ Hc1), (Hcanon _ Hc2) in Heq.
    apply app_inv_head in Heq. now apply app_inv_head in Heq.
Qed.

(** The joined path, spelled out. *)
Lemma clean_join_text (b c : bytes) :
  b <> [] -> canon c ->
  clean (b ++ Separator :: c) =
    if decide (clean b = [Separator]) then Separator :: c
    else if decide (clean b = [dot]) then c
    else clean b ++ Separator :: c.
Proof.
  intros Hb Hc. destruct (clean_join b Hb) as (x & sep0 & _ & Hx & Hcanon).
  rewrite (Hcanon c Hc).
  destruct Hx as [(-> & -> & Hd)|[(Hx & -> & ->)|(Hx & Hx1 & Hx2 & ->)]].
  - rewrite Hd. destruct (decide ([dot] = [Separator])) as [E|_]; [discriminate E|].
    destruct (decide ([dot] = [dot])) as [_|E]; [reflexivity | congruence].
  - rewrite Hx. destruct (decide ([Separator] = [Separator])) as [_|E];
      [reflexivity | congruence].
  - rewrite Hx. destruct (decide (x = [Separator])) as [E|_]; [contradiction|].
    destruct (decide (x = [dot])) as [E|_]; [contradiction|]. reflexivity.
Qed.

End CleanPaths.

(** ** Staging paths

    The executor finds the staged file of an indirect target path [p] at
    [Clean(Join(RunPath, p))]. *)

(** What a resolver makes of the remainder of a name: clean, relative and
    local. *)
Definition relative_local (c : string) : Prop :=
  Filepath.Clean c = c /\ Filepath.IsAbs c = false /\ Filepath.IsLocal c = true.

Lemma relative_local_Clean (rem : string) :
  Filepath.IsAbs (Filepath.Clean rem) = false ->
  Filepath.IsLocal (Filepath.Clean rem) = true ->
  relative_local (Filepath.Clean rem).
Proof.
  intros Habs Hloc. split; [apply CleanPaths.Clean_idempotent | split; assumption].
Qed.

Lemma relative_local_bytes (c : string) :
  relative_local c ->
  s2b c = [CleanPaths.dot] \/ CleanPaths.canon (s2b c).
Proof.
  intros (Hc & Habs & Hloc).
  assert (Hcb : Filepath.clean (s2b c) = s2b c).
  { unfold Filepath.Clean in Hc. apply (f_equal s2b) in Hc.
    now rewrite s2b_b2s in Hc. }
  rewrite <- Hcb. apply CleanPaths.relative_local_shape.
  - rewrite Hcb. exact Habs.
  - rewrite Hcb. exact Hloc.
Qed.

Lemma relative_local_nonempty (c : string) : relative_local c -> c <> "".
Proof. intros (_ & _ & Hloc) ->. discriminate Hloc. Qed.

Lemma Join_base (run c : string) :
  c <> "" ->
  Filepath.Join [run; c] =
    if String.eqb run "" then Filepath.Clean c
    else Filepath.Clean (run ++ "/" ++ c).
Proof.
  intros Hc. unfold Filepath.Join. destruct (String.eqb run "").
  - destruct (String.eqb c "") eqn:E; [|reflexivity].
    apply String.eqb_eq in E. contradiction.
  - reflexivity.
Qed.

(** The staged path is the absolute path of the handle. *)
Lemma staged_path_clean (run c : string) :
  relative_local c ->
  Filepath.Clean (Filepath.Join [run; c]) = Filepath.Join [run; c].
Proof.
  intros Hc. rewrite Join_base by now apply relative_local_nonempty.
  destruct (String.eqb run ""); apply CleanPaths.Clean_idempotent.
Qed.

(** Different indirect target paths are staged at different places. *)
Lemma staged_path_injective (run c1 c2 : string) :
  relative_local c1 -> relative_local c2 ->
  Filepath.Join [run; c1] = Filepath.Join [run; c2] -> c1 = c2.
Proof.
  intros H1 H2.
  rewrite !Join_base by now apply relative_local_nonempty.
  destruct (String.eqb run "") eqn:Hrun.
  - destruct H1 as [-> _], H2 as [-> _]. auto.
  - intros Heq. apply s2b_inj.
    unfold Filepath.Clean in Heq. apply (f_equal s2b) in Heq.
    rewrite !s2b_b2s, !s2b_app in Heq.
    apply (CleanPaths.clean_join_injective (s2b run)).
    + intros Hnil. apply String.eqb_neq in Hrun. apply Hrun.
      apply s2b_inj. exact Hnil.
    + now apply relative_local_bytes.
    + now apply relative_local_bytes.
    + exact Heq.
Qed.

(** ** Uniform path rules *)

(** An element of a cleaned path that is neither [.] nor [..]. *)
Definition path_element (e : string) : Prop :=
  e <> "" /\ e <> "." /\ e <> ".." /\ Strings.Contains e "/" = false.

(** A path without [.] and [..] elements, or the single element [.]. *)
Definition lexically_local (c : string) : Prop :=
  c = "." \/ exists es, es <> [] /\ Forall path_element es /\ c = Strings.Join es "/".

(** [c] below [base], spelled out. *)
Definition below (base c : string) : string :=
  if String.eqb base "" then c
  else if String.eqb c "." then Filepath.Clean base
  else if String.eqb (Filepath.Clean base) "/" then "/" ++ c
  else if String.eqb (Filepath.Clean base) "." then c
  else Filepath.Clean base ++ "/" ++ c.

Lemma ascii_eqb_sym (a b : ascii) : ascii_eqb a b = ascii_eqb b a.
Proof. unfold ascii_eqb. apply Ascii.eqb_sym. Qed.

Lemma no_sep_cut (l : bytes) :
  CleanPaths.no_sep l <-> Strings.cut l [Filepath.Separator] = None.
Proof.
  unfold CleanPaths.no_sep. induction l as [|c l IH].
  - split; [reflexivity | constructor].
  - cbn [Strings.cut Strings.has_prefix]. rewrite andb_true_r.
    rewrite ascii_eqb_sym. fold (Filepath.IsPathSeparator c).
    destruct (Filepath.IsPathSeparator c) eqn:Ec.
    + split; [|discriminate]. intros H. apply List.Forall_inv in H. congruence.
    + destruct (Strings.cut l [Filepath.Separator]) as [[b a]|].
      * split; [|discriminate]. intros H. apply List.Forall_inv_tail in H.
        apply IH in H. discriminate.
      * split; [reflexivity|]. intros _. constructor; [exact Ec | now apply IH].
Qed.

Lemma real_path_element (e : bytes) : CleanPaths.real e -> path_element (b2s e).
Proof.
  intros (Hne & Hns & Hd & Hdd).
  assert (Hinj : forall t, b2s e = t -> e = s2b t).
  { intros t <-. now rewrite s2b_b2s. }
  split; [|split; [|split]].
  - intros E. apply Hinj in E. contradiction.
  - intros E. apply Hinj in E. contradiction.
  - intros E. apply Hinj in E. contradiction.
  - unfold Strings.Contains. rewrite s2b_b2s.
    apply no_sep_cut in Hns. cbn [s2b] in *.
    change (s2b "/") with [Filepath.Separator].
    now rewrite Hns.
Qed.

Lemma s2b_Join_slashed (e : string) (es : list string) :
  s2b (Strings.Join (e :: es) "/") = s2b e ++ CleanPaths.slashed (map s2b es).
Proof.
  revert e. induction es as [|x es IH]; intros e.
  - cbn [Strings.Join map]. unfold CleanPaths.slashed. cbn. now rewrite app_nil_r.
  - change (Strings.Join (e :: x :: es) "/")
      with (e ++ "/" ++ Strings.Join (x :: es) "/")%string.
    rewrite !s2b_app, IH. unfold CleanPaths.slashed. cbn [map concat].
    reflexivity.
Qed.

(** A clean, relative, local path has no [.] and no [..] element, unless it
    is [.] itself. *)
Lemma relative_local_elements (c : string) :
  relative_local c -> lexically_local c.
Proof.
  intros Hc. destruct (relative_local_bytes c Hc) as [Hd|(es & Hne & Hes & Heq)].
  - left. apply s2b_inj. exact Hd.
  - right. exists (map b2s es). split; [|split].
    + destruct es; [congruence | discriminate].
    + apply List.Forall_map. eapply List.Forall_impl; [|exact Hes].
      intros e He. now apply real_path_element.
    + apply s2b_inj. rewrite Heq.
      destruct es as [|e es]; [congruence|].
      rewrite CleanPaths.canon_text by assumption.
      cbn [map]. rewrite s2b_Join_slashed, s2b_b2s, map_map.
      f_equal. f_equal. symmetry. rewrite <- (map_id es) at 2.
      apply map_ext. intros a. apply s2b_b2s.
Qed.

Lemma Clean_eq_bytes (p : string) (q : bytes) :
  String.eqb (Filepath.Clean p) (b2s q) = true <-> Filepath.clean (s2b p) = q.
Proof.
  rewrite String.eqb_eq. unfold Filepath.Clean. split.
  - intros H. apply (f_equal s2b) in H. now rewrite !s2b_b2s in H.
  - now intros ->.
Qed.

(** Where a handle of a file-backed resolver lies. *)
Lemma Join_below (base c : string) :
  relative_local c -> Filepath.Join [base; c] = below base c.
Proof.
  intros Hc. rewrite Join_base by now apply relative_local_nonempty.
  unfold below. destruct (String.eqb base "") eqn:Hbase; [apply Hc|].
  assert (Hb : s2b base <> []).
  { intros Hnil. apply String.eqb_neq in Hbase. apply Hbase.
    apply s2b_inj. exact Hnil. }
  unfold Filepath.Clean at 1. rewrite !s2b_app.
  change (s2b "/") with [Filepath.Separator]. cbn [app].
  destruct (relative_local_bytes c Hc) as [Hd|Hcanon].
  - assert (c = ".") by (apply s2b_inj; exact Hd). subst c.
    cbn [String.eqb Ascii.eqb Bool.eqb]. 
    destruct (CleanPaths.clean_join (s2b base) Hb) as (x & sep0 & Hdot & _).
    change (s2b ".") with [CleanPaths.dot]. now rewrite Hdot.
  - destruct (String.eqb c ".") eqn:Ec.
    { apply String.eqb_eq in Ec. subst c. exfalso.
      now apply (CleanPaths.canon_not_dot _ Hcanon). }
    rewrite (CleanPaths.clean_join_text _ _ Hb Hcanon).
    destruct (decide (Filepath.clean (s2b base) = [Filepath.Separator])) as [E|E].
    + apply (Clean_eq_bytes base [Filepath.Separator]) in E.
      change (b2s [Filepath.Separator]) with "/" in E. rewrite E.
      cbn [b2s]. change (b2s (Filepath.Separator :: s2b c))
        with (String Filepath.Separator (b2s (s2b c))).
      now rewrite b2s_s2b.
    + destruct (String.eqb (Filepath.Clean base) "/") eqn:E1.
      { exfalso. apply E. now apply (Clean_eq_bytes base [Filepath.Separator]). }
      destruct (decide (Filepath.clean (s2b base) = [CleanPaths.dot])) as [E2|E2].
      * apply (Clean_eq_bytes base [CleanPaths.dot]) in E2.
        change (b2s [CleanPaths.dot]) with "." in E2. rewrite E2.
        apply b2s_s2b.
      * destruct (String.eqb (Filepath.Clean base) ".") eqn:E3.
        { exfalso. apply E2. now apply (Clean_eq_bytes base [CleanPaths.dot]). }
        apply s2b_inj. rewrite s2b_b2s, !s2b_app.
        unfold Filepath.Clean. now rewrite s2b_b2s.
Qed.

Lemma clean_nonempty (p : bytes) : Filepath.clean p <> [].
Proof.
  destruct (CleanPaths.clean_shape p) as (rooted & k & stack & _ & -> & _).
  unfold CleanPaths.final. destruct (CleanPaths.rbuf rooted k stack) as [|c r] eqn:E;
    [discriminate|].
  intros H. apply (f_equal (@length ascii)) in H.
  rewrite length_rev in H. discriminate H.
Qed.

(** A cleaned relative path is not local exactly when it starts with a [..]
    element. *)
Lemma not_local_escapes (rem : string) :
  Filepath.IsAbs (Filepath.Clean rem) = false ->
  (Filepath.IsLocal (Filepath.Clean rem) = false
   <-> Filepath.Clean rem = ".." \/ Strings.HasPrefix (Filepath.Clean rem) "../" = true).
Proof.
  unfold Filepath.IsAbs, Filepath.IsLocal, Strings.HasPrefix, Filepath.Clean.
  rewrite !s2b_b2s. intros Habs.
  rewrite CleanPaths.is_local_clean by apply CleanPaths.clean_idempotent.
  pose proof (clean_nonempty (s2b rem)) as Hne.
  destruct (Filepath.clean (s2b rem)) as [|c r] eqn:E; [congruence|].
  assert (Hc : Filepath.IsPathSeparator c = false).
  { cbn in Habs. rewrite andb_true_r in Habs. rewrite ascii_eqb_sym in Habs.
    exact Habs. }
  rewrite Hc. unfold Filepath.escapes. rewrite negb_false_iff, orb_true_iff.
  rewrite bytes_eqb_eq. split.
  - intros [H|H]; [left | right; exact H]. rewrite H. reflexivity.
  - intros [H|H]; [left | right; exact H].
    apply (f_equal s2b) in H. now rewrite s2b_b2s in H.
Qed.

Definition resolver_prefix (r : FSResolver) : string :=
  match r with
  | NewFileBackedFSResolver _ prefix _ => prefix
  | NewMapFSResolver _ prefix _ => prefix
  end.

Definition resolver_name (r : FSResolver) : string :=
  match r with
  | NewFileBackedFSResolver rname _ _ => rname
  | NewMapFSResolver rname _ _ => rname
  end.

(** Below the base of its resolver: for a file-backed resolver the cleaned
    remainder joined to the base directory; for the map resolver the mapped
    input itself, or a cleaned, relative, local path below a mapped
    directory. *)
Definition under_base (r : FSResolver) (cleanPath : string) (h : FSHandle) : Prop :=
  match r with
  | NewFileBackedFSResolver _ _ baseDir =>
      indirectTargetPath h = cleanPath
      /\ absPath h = Filepath.Join [baseDir; cleanPath]
      /\ absPath h = below baseDir cleanPath
  | NewMapFSResolver _ _ inputs =>
      exists ri, In ri inputs
        /\ ((absPath h = ResolvedPath ri /\ indirectTargetPath h = UserPath ri)
            \/ (exists next,
                  Type_ ri = RPackInputTypeDirectory
                  /\ Filepath.IsAbs (Filepath.Clean next) = false
                  /\ Filepath.IsLocal (Filepath.Clean next) = true
                  /\ lexically_local (Filepath.Clean next)
                  /\ absPath h = Filepath.Join [ResolvedPath ri; Filepath.Clean next]
                  /\ absPath h = below (ResolvedPath ri) (Filepath.Clean next)
                  /\ indirectTargetPath h =
                       Filepath.Join [UserPath ri; Filepath.Clean next]))
  end.

Lemma find_input_In (inputs : list RPackResolvedInput) (base : string)
    (ri : RPackResolvedInput) :
  find_input inputs base = Some ri -> In ri inputs /\ Name ri = base.
Proof.
  induction inputs as [|x xs IH]; simpl; [discriminate|].
  destruct (String.eqb (Name x) base) eqn:E.
  - intros [= <-]. apply String.eqb_eq in E. auto.
  - intros Hf. destruct (IH Hf). auto.
Qed.

(** C7. For each resolver (file-backed: [rpack:], [temp:], target; and
    [map:]) and each friendly path it owns: when the remainder after the
    prefix, lexically cleaned, is absolute or not local, which for a
    relative path means that it is [..] or starts with a [..] element,
    resolution fails with a path-validation error and there is no handle, so
    that every operation of the filesystem returns that error without
    running a hook or touching the disk; and a handle that is produced has
    the friendly path [prefix ++ cleaned remainder], where the cleaned
    remainder is left alone by cleaning, is relative and local, has no [.]
    and no [..] element unless it is [.], and lies under the base of its
    resolver. *)
Theorem uniform_path_rules (r : FSResolver) (name rem : string) :
  Strings.CutPrefix name (resolver_prefix r) = (rem, true) ->
  (Filepath.IsAbs (Filepath.Clean rem) = true ->
     Resolve r name = Matched (Err (Errorf "Path %q needs to be relative" [name])))
  /\ (Filepath.IsAbs (Filepath.Clean rem) = false ->
      Filepath.IsLocal (Filepath.Clean rem) = false ->
      Resolve r name = Matched (Err (Errorf "Path %q needs to be local" [name])))
  /\ (Filepath.IsAbs (Filepath.Clean rem) = false ->
      (Filepath.IsLocal (Filepath.Clean rem) = false
       <-> Filepath.Clean rem = ".."
           \/ Strings.HasPrefix (Filepath.Clean rem) "../" = true))
  /\ (forall h,
        Resolve r name = Matched (Ok h) ->
        Filepath.IsAbs (Filepath.Clean rem) = false
        /\ Filepath.IsLocal (Filepath.Clean rem) = true
        /\ Filepath.Clean (Filepath.Clean rem) = Filepath.Clean rem
        /\ lexically_local (Filepath.Clean rem)
        /\ friendlyPath h = (resolver_prefix r ++ Filepath.Clean rem)%string
        /\ resolver h = resolver_name r
        /\ under_base r (Filepath.Clean rem) h)
  /\ (forall (fs : BaseFS) (d : disk) e,
        resolve fs name = Err e ->
        (forall b, Base.Write fs d name b = (fs, d, Some e))
        /\ Base.Read fs d name = (fs, Err e)
        /\ Base.Stat fs d name = (fs, (false, false, Some e))
        /\ Base.ReadDir fs d name = (fs, Err e)
        /\ (forall fuel, Base.ReadDirAll (S fuel) fs d name = (fs, Err e))).
Proof.
  intros Hcut.
  split; [|split; [|split; [|split]]].
  - intros Habs. destruct r; simpl in *;
      unfold FileBacked_Resolve, Map_Resolve; rewrite Hcut; simpl;
      now rewrite Habs.
  - intros Habs Hloc. destruct r; simpl in *;
      unfold FileBacked_Resolve, Map_Resolve; rewrite Hcut; simpl;
      now rewrite Habs, Hloc.
  - apply not_local_escapes.
  - intros h Hres.
    assert (Hpath : Filepath.IsAbs (Filepath.Clean rem) = false
                    /\ Filepath.IsLocal (Filepath.Clean rem) = true).
    { destruct r as [rname prefix baseDir | rname prefix inputs]; simpl in *;
        unfold FileBacked_Resolve, Map_Resolve in Hres; rewrite Hcut in Hres;
        simpl in Hres;
        destruct (Filepath.IsAbs (Filepath.Clean rem)); try discriminate;
        destruct (Filepath.IsLocal (Filepath.Clean rem)); try discriminate; auto. }
    destruct Hpath as [Habs Hloc].
    pose proof (relative_local_Clean rem Habs Hloc) as Hrl.
    split; [exact Habs|]. split; [exact Hloc|].
    split; [apply CleanPaths.Clean_idempotent|].
    split; [now apply relative_local_elements|].
    destruct r as [rname prefix baseDir | rname prefix inputs]; simpl in *.
    + unfold FileBacked_Resolve in Hres. rewrite Hcut, Habs, Hloc in Hres.
      simpl in Hres. injection Hres as <-. simpl.
      split; [reflexivity|]. split; [reflexivity|]. split; [reflexivity|].
      split; [reflexivity|]. now apply Join_below.
    + unfold Map_Resolve in Hres. rewrite Hcut, Habs, Hloc in Hres. simpl in Hres.
      destruct (Strings.Cut rem "/") as [[base nextPath] found].
      destruct (find_input inputs base) as [ri|] eqn:Hfind; [|discriminate].
      destruct (find_input_In _ _ _ Hfind) as [Hin _].
      destruct found.
      * destruct (Type_ ri) eqn:Hty; [discriminate|].
        destruct (Filepath.IsAbs (Filepath.Clean nextPath)) eqn:Ha; [discriminate|].
        destruct (Filepath.IsLocal (Filepath.Clean nextPath)) eqn:Hl; [|discriminate].
        simpl in Hres. injection Hres as <-. simpl.
        split; [reflexivity|]. split; [reflexivity|].
        exists ri. split; [assumption|]. right. exists nextPath.
        pose proof (relative_local_Clean nextPath Ha Hl) as Hnext.
        split; [exact Hty|]. split; [exact Ha|]. split; [exact Hl|].
        split; [now apply relative_local_elements|].
        split; [reflexivity|]. split; [now apply Join_below | reflexivity].
      * injection Hres as <-. simpl.
        split; [reflexivity|]. split; [reflexivity|].
        exists ri. split; [assumption|]. left. auto.
  - intros fs d e. apply resolve_error_all_ops.
Qed.

Lemma uniform_path_rules_witness :
  Resolve (NewFileBackedFSResolver RPackResolver "rpack:" "/src") "rpack:a/../../x"
    = Matched (Err (Errorf "Path %q needs to be local" ["rpack:a/../../x"])).
Proof.
  apply (uniform_path_rules (NewFileBackedFSResolver RPackResolver "rpack:" "/src")
           "rpack:a/../../x" "a/../../x"); reflexivity.
Defined.

(** ** The purity gate *)


(** The handles that an operation list makes the purity hook track. *)
Definition tracked (typ : FSAccessType) (res : string)
    (ops : list (FSAccessType * FSHandle)) : list FSHandle :=
  map snd
    (List.filter
       (fun op => FSAccessType_eqb (fst op) typ && String.eqb (resolver (snd op)) res)
       ops).




Lemma In_tracked typ res ops h :
  In h (tracked typ res ops) <-> In (typ, h) ops /\ resolver h = res.
Proof.
  unfold tracked. rewrite in_map_iff. split.
  - intros [[t h'] [Heq Hin]]. simpl in Heq. subst h'.
    apply filter_In in Hin. destruct Hin as [Hin Hb]. simpl in Hb.
    apply andb_true_iff in Hb. destruct Hb as [Ht Hr].
    apply String.eqb_eq in Hr. split; [|assumption].
    destruct t, typ; try discriminate Ht; assumption.
  - intros [Hin Hr]. exists (typ, h). split; [reflexivity|].
    apply filter_In. split; [assumption|]. simpl.
    apply andb_true_iff. split; [now destruct typ | now apply String.eqb_eq].
Qed.









(** ** Invariants of the hook list *)

(** A property of the hook list that every round of hooks keeps is kept by
    every operation of the filesystem and by every script. *)
Section HookInvariant.
Variable I : list FSAccessHook -> Prop.
Hypothesis I_run_hooks :
  forall typ hooks h, I hooks -> I (fst (run_hooks typ hooks h)).




Lemma I_Stat fs d name : I (Hooks fs) -> I (Hooks (fst (Base.Stat fs d name))).
Proof.
  intros HI. unfold Base.Stat. destruct (resolve fs name) as [h|e]; [|exact HI].
  pose proof (I_run_hooks FSAccessTypeStat (Hooks fs) h HI) as H1.
  destruct (run_hooks FSAccessTypeStat (Hooks fs) h) as [hooks [e|]]; exact H1.
Qed.










End HookInvariant.















(** ** What a run records *)

Definition target_handles (recs : list FSRecorderRecord) : list FSHandle :=
  map Handle
    (List.filter (fun record => TargetTransferHandleFilterFn (Typ record) (Handle record))
       recs).

(** The hook list of an [RPackFS], with the records of its recorder. *)
Definition recording (hooks : list FSAccessHook) (recs : list FSRecorderRecord) : Prop :=
  exists p r, hooks = [AccessControlHook; EnsurePureHook p; RecorderHook r]
    /\ filterFn r = None /\ records r = recs.

Lemma recording_handles (fs : RPackFS) (recs : list FSRecorderRecord) :
  recording (Hooks (BaseFS_ fs)) recs -> TargetWriteHandles fs = target_handles recs.
Proof.
  intros (p & r & Hh & _ & <-). unfold TargetWriteHandles, Recorder, Records.
  now rewrite Hh.
Qed.

Lemma recording_inj hooks recs recs' :
  recording hooks recs -> recording hooks recs' -> recs = recs'.
Proof.
  intros (p & r & -> & _ & <-) (p' & r' & [= _ <-] & _ & <-). reflexivity.
Qed.

Lemma run_hooks_recording typ hooks h recs :
  recording hooks recs ->
  recording (fst (run_hooks typ hooks h))
    (match snd (run_hooks typ hooks h) with
     | None => recs ++ [{| Typ := typ; Handle := h |}]
     | Some _ => recs
     end).
Proof.
  intros (p & r & -> & Hf & <-). cbn [run_hooks hook_call].
  destruct (match typ with
            | FSAccessTypeRead => RPackAccessControlFSHook.Read h
            | FSAccessTypeWrite => RPackAccessControlFSHook.Write h
            | FSAccessTypeStat => RPackAccessControlFSHook.Stat h
            | FSAccessTypeReadDir => RPackAccessControlFSHook.ReadDir h
            end) as [e|].
  { cbn [fst snd]. exists p, r. auto. }
  destruct (Pure.call typ p h) as [p' [e|]].
  { cbn [fst snd]. exists p', r. auto. }
  cbn [fst snd]. exists p', (filterRecord r typ h).
  unfold filterRecord. rewrite Hf. auto.
Qed.

Lemma target_handles_app recs recs' :
  target_handles (recs ++ recs') = target_handles recs ++ target_handles recs'.
Proof. unfold target_handles. now rewrite List.filter_app, map_app. Qed.

(** Hooks run for anything but a write leave the target writes alone. *)
Definition hooks_quiet (hooks hooks' : list FSAccessHook) : Prop :=
  forall recs, recording hooks recs ->
    exists recs', recording hooks' recs' /\ target_handles recs' = target_handles recs.

Lemma hooks_quiet_refl hooks : hooks_quiet hooks hooks.
Proof. intros recs H. exists recs. auto. Qed.

Lemma hooks_quiet_trans h1 h2 h3 :
  hooks_quiet h1 h2 -> hooks_quiet h2 h3 -> hooks_quiet h1 h3.
Proof.
  intros H12 H23 recs H. destruct (H12 recs H) as (r2 & Hr2 & E2).
  destruct (H23 r2 Hr2) as (r3 & Hr3 & E3). exists r3. split; [assumption|].
  congruence.
Qed.

Lemma run_hooks_quiet typ hooks h :
  typ <> FSAccessTypeWrite -> hooks_quiet hooks (fst (run_hooks typ hooks h)).
Proof.
  intros Htyp recs H. pose proof (run_hooks_recording typ hooks h recs H) as Hr.
  eexists. split; [exact Hr|].
  destruct (snd (run_hooks typ hooks h)); [reflexivity|].
  rewrite target_handles_app. unfold target_handles at 2.
  cbn [List.filter Typ Handle]. unfold TargetTransferHandleFilterFn.
  destruct typ; cbn; try now rewrite app_nil_r. congruence.
Qed.

Lemma stat_children_quiet handles :
  forall hooks, hooks_quiet hooks (fst (Base.stat_children hooks handles)).
Proof.
  induction handles as [|h handles IH]; intros hooks; cbn [Base.stat_children].
  - apply hooks_quiet_refl.
  - pose proof (run_hooks_quiet FSAccessTypeStat hooks h ltac:(discriminate)) as H1.
    destruct (run_hooks FSAccessTypeStat hooks h) as [hooks1 [e|]]; [exact H1|].
    cbn [fst] in H1. specialize (IH hooks1).
    destruct (Base.stat_children hooks1 handles) as [hooks2 [names|e]];
      cbn [fst] in *; eapply hooks_quiet_trans; eauto.
Qed.

Definition fs_quiet (fs fs' : BaseFS) : Prop :=
  Resolvers fs' = Resolvers fs /\ hooks_quiet (Hooks fs) (Hooks fs').

Lemma fs_quiet_refl fs : fs_quiet fs fs.
Proof. split; [reflexivity | apply hooks_quiet_refl]. Qed.

Lemma fs_quiet_trans f1 f2 f3 : fs_quiet f1 f2 -> fs_quiet f2 f3 -> fs_quiet f1 f3.
Proof.
  intros [R12 H12] [R23 H23]. split; [congruence|].
  eapply hooks_quiet_trans; eauto.
Qed.

Lemma with_hooks_quiet fs hooks :
  hooks_quiet (Hooks fs) hooks -> fs_quiet fs (with_hooks fs hooks).
Proof. intros H. split; [reflexivity | exact H]. Qed.

Lemma Read_quiet fs d name : fs_quiet fs (fst (Base.Read fs d name)).
Proof.
  unfold Base.Read. destruct (resolve fs name) as [h|e]; [|apply fs_quiet_refl].
  pose proof (run_hooks_quiet FSAccessTypeRead (Hooks fs) h ltac:(discriminate)) as H1.
  destruct (run_hooks FSAccessTypeRead (Hooks fs) h) as [hooks [e|]];
    now apply with_hooks_quiet.
Qed.

Lemma Stat_quiet fs d name : fs_quiet fs (fst (Base.Stat fs d name)).
Proof.
  unfold Base.Stat. destruct (resolve fs name) as [h|e]; [|apply fs_quiet_refl].
  pose proof (run_hooks_quiet FSAccessTypeStat (Hooks fs) h ltac:(discriminate)) as H1.
  destruct (run_hooks FSAccessTypeStat (Hooks fs) h) as [hooks [e|]];
    now apply with_hooks_quiet.
Qed.

Lemma ReadDir_quiet fs d name : fs_quiet fs (fst (Base.ReadDir fs d name)).
Proof.
  unfold Base.ReadDir. destruct (resolve fs name) as [h|e]; [|apply fs_quiet_refl].
  pose proof (run_hooks_quiet FSAccessTypeStat (Hooks fs) h ltac:(discriminate)) as H1.
  destruct (run_hooks FSAccessTypeStat (Hooks fs) h) as [hooks [e|]];
    cbn [fst] in H1; [now apply with_hooks_quiet|].
  destruct (Handle_Stat d h) as [[ex dir] [e|]]; [now apply with_hooks_quiet|].
  destruct (negb ex); [now apply with_hooks_quiet|].
  destruct (negb dir); [now apply with_hooks_quiet|].
  pose proof (run_hooks_quiet FSAccessTypeReadDir hooks h ltac:(discriminate)) as H2.
  destruct (run_hooks FSAccessTypeReadDir hooks h) as [hooks1 [e|]];
    cbn [fst] in H2.
  { apply with_hooks_quiet. eapply hooks_quiet_trans; eauto. }
  destruct (Handle_ReadDir d h) as [[files dirs]|e].
  2:{ apply with_hooks_quiet. eapply hooks_quiet_trans; eauto. }
  pose proof (stat_children_quiet files hooks1) as H3.
  destruct (Base.stat_children hooks1 files) as [hooks2 [namesFile|e]];
    cbn [fst] in H3.
  2:{ apply with_hooks_quiet. eauto using hooks_quiet_trans. }
  pose proof (stat_children_quiet dirs hooks2) as H4.
  destruct (Base.stat_children hooks2 dirs) as [hooks3 [namesDir|e]];
    cbn [fst] in H4; apply with_hooks_quiet; eauto using hooks_quiet_trans.
Qed.

Lemma read_dir_all_quiet fuel d :
  forall fs queue files dirs,
    fs_quiet fs (fst (Base.read_dir_all fuel fs d queue files dirs)).
Proof.
  induction fuel as [|fuel IH]; intros fs queue files dirs;
    destruct queue as [|cur queue]; cbn [Base.read_dir_all fst];
    try apply fs_quiet_refl.
  pose proof (ReadDir_quiet fs d cur) as H1.
  destruct (Base.ReadDir fs d cur) as [fs1 [[newFiles newDirs]|e]];
    cbn [fst] in *; [|exact H1].
  eapply fs_quiet_trans; [exact H1 | apply IH].
Qed.

(** A write that succeeds is recorded, and went through to the handle. *)
Lemma Write_ok fs d name b fs' d' recs :
  recording (Hooks fs) recs ->
  Base.Write fs d name b = (fs', d', None) ->
  exists h, resolve fs name = Ok h
    /\ Resolvers fs' = Resolvers fs
    /\ recording (Hooks fs') (recs ++ [{| Typ := FSAccessTypeWrite; Handle := h |}])
    /\ Handle_Write d h b = (d', None).
Proof.
  intros Hrec. unfold Base.Write.
  destruct (resolve fs name) as [h|e]; [|discriminate].
  pose proof (run_hooks_recording FSAccessTypeWrite (Hooks fs) h recs Hrec) as Hr.
  destruct (run_hooks FSAccessTypeWrite (Hooks fs) h) as [hooks [e|]];
    [discriminate|].
  cbn [fst snd] in Hr.
  destruct (Handle_Write d h b) as [d1 e] eqn:Hw. intros [= <- <- ->].
  exists h. auto.
Qed.

(** ** What a write does to the disk *)

Lemma node_at_insert_ne (d : disk) (p q : string) (n : node) :
  p <> q -> OS.node_at (<[q := n]> d) p = OS.node_at d p.
Proof.
  intros Hne. unfold OS.node_at. destruct (_ || _); [reflexivity|].
  apply lookup_insert_ne. congruence.
Qed.

Lemma node_at_insert_file (d : disk) (p : string) (b : string) :
  OS.node_at d p <> Some Directory ->
  OS.node_at (<[p := File b]> d) p = Some (File b).
Proof.
  unfold OS.node_at. destruct (_ || _); [congruence|].
  intros _. apply lookup_insert_eq.
Qed.


Lemma ReadFile_file (d : disk) (P : string) (b : string) :
  OS.ReadFile d P = Ok b <-> OS.node_at d P = Some (File b).
Proof.
  unfold OS.ReadFile. destruct (OS.node_at d P) as [[c|]|]; split; congruence.
Qed.

(** [MkdirAll] keeps the regular files, also when it fails. *)
Lemma mkdir_all_keeps (fuel : nat) :
  forall d path P c,
    OS.node_at d P = Some (File c) ->
    OS.node_at (fst (OS.mkdir_all fuel d path)) P = Some (File c).
Proof.
  induction fuel as [|fuel IH]; intros d path P c HP; cbn [OS.mkdir_all].
  - destruct (OS.node_at d path) as [[?|]|]; exact HP.
  - destruct (OS.node_at d path) as [[?|]|] eqn:Hpath; try exact HP.
    specialize (IH d (Filepath.Dir path) P c HP).
    destruct (OS.mkdir_all fuel d (Filepath.Dir path)) as [d1 [e|]];
      cbn [fst] in *; [exact IH|].
    rewrite node_at_insert_ne; [exact IH|].
    intros ->. congruence.
Qed.

Lemma WriteFile_ok (d : disk) (name b : string) (d' : disk) :
  OS.WriteFile d name b = (d', None) ->
  OS.node_at d' name = Some (File b)
  /\ forall P, P <> name -> OS.node_at d' P = OS.node_at d P.
Proof.
  unfold OS.WriteFile. intros H.
  assert (Hnd : OS.node_at d name <> Some Directory).
  { intros E. rewrite E in H. discriminate. }
  assert (Hd' : d' = <[name := File b]> d).
  { destruct (OS.node_at d name) as [[?|]|];
      destruct (OS.node_at d (Filepath.Dir name)) as [[?|]|]; congruence. }
  subst d'. split.
  - now apply node_at_insert_file.
  - intros P HP. now apply node_at_insert_ne.
Qed.

Lemma Handle_Write_ok (d : disk) (h : FSHandle) (b : string) (d' : disk) :
  Handle_Write d h b = (d', None) ->
  OS.node_at d' (absPath h) = Some (File b)
  /\ forall P c, P <> absPath h ->
       OS.node_at d P = Some (File c) -> OS.node_at d' P = Some (File c).
Proof.
  unfold Handle_Write, OS.MkdirAll. intros H.
  pose proof (mkdir_all_keeps (String.length (Filepath.Dir (absPath h))) d
                (Filepath.Dir (absPath h))) as Hkeep.
  destruct (OS.mkdir_all _ d (Filepath.Dir (absPath h))) as [d1 [e|]];
    [discriminate|].
  cbn [fst] in Hkeep.
  destruct (OS.WriteFile d1 (absPath h) b) as [d2 [e|]] eqn:Hw; [discriminate|].
  injection H as <-. apply WriteFile_ok in Hw. destruct Hw as [Hat Hother].
  split; [exact Hat|]. intros P c HP Hc. rewrite Hother by exact HP. auto.
Qed.

(** ** Line IO *)

Definition CR : string := String "013"%char "".

Definition cr : ascii := "013"%char.
Definition nl : ascii := "010"%char.

(** The bytes of the lines, each followed by the separator. *)
Definition terminated (ls : list bytes) (sep : bytes) : bytes :=
  concat (map (fun l => l ++ sep) ls).

Lemma Join_terminated (ls : list string) (sep : string) :
  ls <> [] ->
  s2b (Strings.Join ls sep ++ sep) = terminated (map s2b ls) (s2b sep).
Proof.
  intros Hne. unfold terminated.
  induction ls as [|e rest IH]; [congruence|].
  destruct rest as [|e' rest'].
  - simpl. rewrite s2b_app. now rewrite app_nil_r.
  - assert (Hne' : e' :: rest' <> []) by discriminate.
    specialize (IH Hne').
    change (Strings.Join (e :: e' :: rest') sep)
      with (e ++ sep ++ Strings.Join (e' :: rest') sep)%string.
    rewrite !s2b_app.
    change (map s2b (e :: e' :: rest')) with (s2b e :: map s2b (e' :: rest')).
    remember (map s2b (e' :: rest')) as tail eqn:Etail.
    cbn [map concat]. rewrite <- IH. rewrite !s2b_app.
    now rewrite <- !app_assoc.
Qed.

Lemma has_prefix_app (p s : bytes) : Strings.has_prefix (p ++ s) p = true.
Proof.
  induction p as [|c p IH]; simpl; [now destruct s|].
  unfold ascii_eqb. rewrite Ascii.eqb_refl. exact IH.
Qed.

Lemma HasSuffix_app (s suffix : string) : Strings.HasSuffix (s ++ suffix) suffix = true.
Proof.
  unfold Strings.HasSuffix. rewrite s2b_app, rev_app_distr. apply has_prefix_app.
Qed.

Lemma cut_cons (c : ascii) (l sep : bytes) :
  Strings.cut (c :: l) sep =
    if Strings.has_prefix (c :: l) sep then Some ([], drop (length sep) (c :: l))
    else match Strings.cut l sep with
         | Some (b, a) => Some (c :: b, a)
         | None => None
         end.
Proof. reflexivity. Qed.

Lemma cut_none_cons (c : ascii) (l sep : bytes) :
  Strings.cut (c :: l) sep = None ->
  Strings.has_prefix (c :: l) sep = false /\ Strings.cut l sep = None.
Proof.
  rewrite cut_cons. destruct (Strings.has_prefix (c :: l) sep); [discriminate|].
  destruct (Strings.cut l sep) as [[b a]|]; [discriminate|]. auto.
Qed.

(** The first CR LF of [l ++ cr :: nl :: rest] ends [l] if [l] has none. *)
Lemma cut_crlf (l rest : bytes) :
  Strings.cut l [cr; nl] = None ->
  Strings.cut (l ++ cr :: nl :: rest) [cr; nl] = Some (l, rest).
Proof.
  induction l as [|c l IH]; intros Hl.
  - reflexivity.
  - apply cut_none_cons in Hl. destruct Hl as [Hp Hl].
    specialize (IH Hl).
    change ((c :: l) ++ cr :: nl :: rest) with (c :: (l ++ cr :: nl :: rest)).
    rewrite cut_cons, IH.
    replace (Strings.has_prefix (c :: l ++ cr :: nl :: rest) [cr; nl]) with false;
      [reflexivity|].
    symmetry. cbn [Strings.has_prefix] in *.
    destruct (ascii_eqb cr c) eqn:Ec; [|reflexivity].
    destruct l as [|d l']; [reflexivity|].
    cbn [app]. cbn [andb] in Hp.
    destruct (ascii_eqb nl d); [discriminate | reflexivity].
Qed.

(** The first line feed of [l ++ nl :: rest] ends [l] if [l] has none. *)
Lemma cut_lf (l rest : bytes) :
  Strings.cut l [nl] = None ->
  Strings.cut (l ++ nl :: rest) [nl] = Some (l, rest).
Proof.
  induction l as [|c l IH]; intros Hl.
  - reflexivity.
  - apply cut_none_cons in Hl. destruct Hl as [Hp Hl].
    specialize (IH Hl).
    change ((c :: l) ++ nl :: rest) with (c :: (l ++ nl :: rest)).
    rewrite cut_cons, IH.
    assert (Hq : Strings.has_prefix (c :: l ++ nl :: rest) [nl] = false)
      by (cbn [Strings.has_prefix] in *; exact Hp).
    now rewrite Hq.
Qed.

Lemma ends_in_cr_cons (c : ascii) (l : bytes) :
  l <> [] ->
  Strings.has_prefix (rev (c :: l)) [cr] = Strings.has_prefix (rev l) [cr].
Proof.
  intros Hne. cbn [rev].
  destruct (rev l) as [|x xs] eqn:E.
  - exfalso. apply Hne. apply (f_equal (@rev ascii)) in E.
    now rewrite rev_involutive in E.
  - reflexivity.
Qed.

(** A line without line feed that does not end in CR, followed by a line
    feed, brings no CR LF. *)
Lemma cut_crlf_none (l rest : bytes) :
  Strings.cut l [nl] = None ->
  Strings.has_prefix (rev l) [cr] = false ->
  Strings.cut rest [cr; nl] = None ->
  Strings.cut (l ++ nl :: rest) [cr; nl] = None.
Proof.
  induction l as [|c l IH]; intros Hl Hcr Hrest.
  - change ([] ++ nl :: rest) with (nl :: rest). rewrite cut_cons, Hrest.
    reflexivity.
  - apply cut_none_cons in Hl. destruct Hl as [Hp Hl].
    change ((c :: l) ++ nl :: rest) with (c :: (l ++ nl :: rest)).
    rewrite cut_cons.
    destruct l as [|d l'].
    + cbn [app]. rewrite cut_cons, Hrest.
      cbn [rev app Strings.has_prefix] in Hcr.
      cbn [Strings.has_prefix].
      destruct (ascii_eqb cr c); [discriminate Hcr | reflexivity].
    + rewrite IH; auto.
      * cbn [app Strings.has_prefix].
        destruct (ascii_eqb cr c); [|reflexivity].
        apply cut_none_cons in Hl. destruct Hl as [Hd _].
        cbn [Strings.has_prefix] in Hd. cbn [andb].
        destruct (ascii_eqb nl d); [discriminate | reflexivity].
      * rewrite <- (ends_in_cr_cons c (d :: l')); [assumption | discriminate].
Qed.

Lemma terminated_no_crlf (ls : list bytes) :
  Forall (fun l => Strings.cut l [nl] = None) ls ->
  Forall (fun l => Strings.has_prefix (rev l) [cr] = false) ls ->
  Strings.cut (terminated ls [nl]) [cr; nl] = None.
Proof.
  intros H1 H2. unfold terminated.
  induction ls as [|l ls IH]; [reflexivity|].
  inversion H1; subst. inversion H2; subst.
  cbn [map concat]. rewrite <- app_assoc. cbn [app].
  apply cut_crlf_none; auto.
Qed.

(** Splitting the terminated lines gives the lines and a last empty one. *)
Lemma split_terminated (sep : bytes) (ls : list bytes) (k : nat) :
  sep <> [] ->
  (forall l rest, Strings.cut l sep = None ->
                  Strings.cut (l ++ sep ++ rest) sep = Some (l, rest)) ->
  Forall (fun l => Strings.cut l sep = None) ls ->
  Strings.split (length ls + k) (terminated ls sep) sep = ls ++ [[]].
Proof.
  intros Hsep Hcut Hls. unfold terminated.
  induction ls as [|l ls IH].
  - cbn. destruct k; [reflexivity|]. cbn.
    destruct sep; [congruence | reflexivity].
  - inversion Hls; subst.
    cbn [length Nat.add map concat Strings.split].
    rewrite <- app_assoc. rewrite Hcut by assumption.
    now rewrite IH.
Qed.

Lemma length_terminated (sep : bytes) (ls : list bytes) :
  sep <> [] -> length ls <= length (terminated ls sep).
Proof.
  intros Hsep. unfold terminated. induction ls as [|l ls IH]; [simpl; lia|].
  cbn [map concat length]. rewrite !length_app.
  destruct sep; [congruence|]. simpl length. simpl in IH. lia.
Qed.

Lemma removelast_snoc {A} (l : list A) (x : A) : removelast (l ++ [x]) = l.
Proof. now rewrite removelast_last. Qed.

Lemma last_snoc {A} (l : list A) (x d : A) : List.last (l ++ [x]) d = x.
Proof. now rewrite last_last. Qed.

(** Reading back what [write_lines] wrote with a final newline. *)
Lemma read_back_lines (ls : list string) (sep : string) :
  sep = LF \/ sep = CRLF ->
  ls <> [] ->
  Forall (fun l => Strings.Contains l sep = false) ls ->
  (sep = LF -> Forall (fun l => Strings.HasSuffix l CR = false) ls) ->
  let content := (Strings.Join ls sep ++ sep)%string in
  (if Strings.Contains content CRLF then CRLF else LF) = sep
  /\ Strings.HasSuffix content sep = true
  /\ Strings.Split content sep = ls ++ [""].
Proof.
  intros Hsep Hne Hno Hcr content.
  assert (Hbytes : s2b content = terminated (map s2b ls) (s2b sep))
    by (now apply Join_terminated).
  assert (Hno' : Forall (fun l => Strings.cut l (s2b sep) = None) (map s2b ls)).
  { apply List.Forall_map. eapply List.Forall_impl; [|exact Hno].
    intros l Hl. unfold Strings.Contains in Hl.
    destruct (Strings.cut (s2b l) (s2b sep)); [discriminate | reflexivity]. }
  assert (Hsplit : Strings.Split content sep = ls ++ [""]).
  { unfold Strings.Split. rewrite Hbytes.
    assert (Hsepne : s2b sep <> []) by (destruct Hsep; subst; discriminate).
    destruct (s2b sep) as [|s0 srest] eqn:Es; [congruence|]. rewrite <- Es in *.
    pose proof (length_terminated (s2b sep) (map s2b ls) Hsepne) as Hlen.
    replace (length (terminated (map s2b ls) (s2b sep)))
      with (length (map s2b ls)
            + (length (terminated (map s2b ls) (s2b sep)) - length (map s2b ls)))
      by lia.
    rewrite split_terminated; auto.
    - rewrite map_app, map_map. cbn [map]. f_equal.
      rewrite <- (map_id ls) at 2. apply map_ext. intros l. apply b2s_s2b.
    - intros l rest Hl. destruct Hsep; subst sep.
      + apply cut_lf. exact Hl.
      + apply cut_crlf. exact Hl. }
  split; [|split; [apply HasSuffix_app | exact Hsplit]].
  unfold Strings.Contains. rewrite Hbytes.
  destruct Hsep; subst sep.
  - rewrite terminated_no_crlf; [reflexivity | exact Hno' |].
    apply List.Forall_map. eapply List.Forall_impl; [|exact (Hcr eq_refl)].
    intros l Hl. exact Hl.
  - destruct ls as [|l ls']; [congruence|].
    inversion Hno'; subst. unfold terminated. cbn [map concat].
    rewrite <- app_assoc.
    change (s2b CRLF) with [cr; nl]. cbn [app].
    rewrite cut_crlf by assumption. reflexivity.
Qed.

(** A filesystem state on which a read of [p] returns what a successful
    write to [p] has just written. *)
Definition reads_back {T : Type} `{FS T} (fs : T) (p : string) : Prop :=
  forall content fs1,
    fs_Write fs p content = (fs1, None) ->
    snd (fs_Read fs1 p) = Ok content.

(** C8 (amended).  For a non-empty list of lines and a separator LF or
    CR LF such that no line contains the separator and, when the separator
    is LF, no line ends in CR: after [write_lines(p, lines, sep, true)] has
    succeeded on a filesystem that reads back what was written,
    [read_lines(p)] returns the record with these lines, this separator and
    a true final newline. *)
Theorem write_lines_read_lines_roundtrip {T : Type} `{FS T}
    (fs fs1 : T) (p : string) (ls : list string) (sep : string) :
  sep = LF \/ sep = CRLF ->
  ls <> [] ->
  Forall (fun l => Strings.Contains l sep = false) ls ->
  (sep = LF -> Forall (fun l => Strings.HasSuffix l CR = false) ls) ->
  reads_back fs p ->
  luaWriteLines fs p ls (Some sep) (Some true) = (fs1, None) ->
  snd (luaReadLines fs1 p) =
    Ok {| lines := ls; separator := sep; finalNewline := true |}.
Proof.
  intros Hsep Hne Hno Hcr Hback Hwrite.
  unfold luaWriteLines in Hwrite. cbn [default from_option id] in Hwrite.
  destruct (fs_Write fs p (Strings.Join ls sep ++ sep)%string) as [fs' [e|]] eqn:Hw;
    [discriminate|].
  injection Hwrite as ->.
  specialize (Hback _ _ Hw).
  unfold luaReadLines.
  destruct (fs_Read fs1 p) as [fs2 r]. simpl in Hback. subst r.
  destruct (read_back_lines ls sep Hsep Hne Hno Hcr) as [Hdet [Hsuf Hsplit]].
  cbn zeta in Hdet, Hsuf, Hsplit.
  rewrite Hdet, Hsuf, Hsplit. cbn [snd].
  rewrite last_snoc, removelast_snoc.
  rewrite length_app. cbn [length].
  replace (0 <? length ls + 1)%nat with true
    by (symmetry; apply Nat.ltb_lt; lia).
  reflexivity.
Qed.

(** [InMemoryFS] reads back what was written. *)
Lemma InMemoryFS_reads_back (fs : InMemoryFS) (p : string) : reads_back fs p.
Proof.
  intros content fs1 Hw. cbn in Hw. unfold InMemory.Write in Hw.
  cbn. unfold InMemory.Read.
  destruct (Tree fs !! p) as [entry|] eqn:E.
  - destruct (IsDir entry) eqn:Ed; [discriminate|].
    injection Hw as <-. cbn. rewrite lookup_insert_eq. reflexivity.
  - cbn in Hw. injection Hw as <-. cbn. rewrite lookup_insert_eq. reflexivity.
Qed.

(** The pack filesystem reads back what was written through the [temp:]
    resolver, the one resolver that may be both written and read. *)
Lemma RPackFS_reads_back_temp (fs : RPackFS) (d : disk) (p : string) (h : FSHandle)
    (recs : list FSRecorderRecord) :
  recording (Hooks (BaseFS_ fs)) recs ->
  resolve (BaseFS_ fs) p = Ok h ->
  resolver h = TempResolver ->
  reads_back (fs, d) p.
Proof.
  intros Hrec Hres Htemp content st1.
  cbn [fs_Write fs_Read RPackFS_FS fst snd].
  destruct (Base.Write (BaseFS_ fs) d p content) as [[fs' d'] e] eqn:Hw.
  intros [= <- ->]. cbn [fst snd BaseFS_].
  destruct (Write_ok _ _ _ _ _ _ recs Hrec Hw) as (h' & Hres' & Hrs & Hrec' & Hhw).
  assert (h' = h) by congruence. subst h'.
  apply Handle_Write_ok in Hhw. destruct Hhw as [Hat _].
  unfold Base.Read, resolve. rewrite Hrs. fold (resolve (BaseFS_ fs) p). rewrite Hres.
  destruct Hrec' as (pure & r & -> & _ & _).
  cbn [run_hooks hook_call Pure.call].
  unfold RPackAccessControlFSHook.Read, Pure.Read. rewrite Htemp.
  cbn [String.eqb Ascii.eqb Bool.eqb TempResolver TargetResolver MapResolver snd].
  unfold Handle_Read. apply ReadFile_file in Hat. now rewrite Hat.
Qed.

Definition line_example_fs : RPackFS :=
  NewRPackFS true "/src" "/run" "/tmp" "/exec" [].

Definition line_example_disk : disk :=
  list_to_map [("/src", Directory); ("/run", Directory); ("/tmp", Directory);
               ("/exec", Directory)].

Lemma write_lines_read_lines_roundtrip_witness :
  snd (luaReadLines
         (fst (luaWriteLines InMemory.New "notes.txt" ["alpha"; ""; "beta"]
                 (Some CRLF) (Some true)))
         "notes.txt")
  = Ok {| lines := ["alpha"; ""; "beta"]; separator := CRLF; finalNewline := true |}
  /\ snd (luaReadLines
            (fst (luaWriteLines (line_example_fs, line_example_disk) "temp:notes.txt"
                    ["alpha"; ""; "beta"] (Some LF) (Some true)))
            "temp:notes.txt")
     = Ok {| lines := ["alpha"; ""; "beta"]; separator := LF; finalNewline := true |}.
Proof.
  split.
  - apply (write_lines_read_lines_roundtrip InMemory.New
             (fst (luaWriteLines InMemory.New "notes.txt" ["alpha"; ""; "beta"]
                     (Some CRLF) (Some true)))
             "notes.txt" ["alpha"; ""; "beta"] CRLF).
    + right; reflexivity.
    + discriminate.
    + repeat constructor.
    + intros Heq. discriminate Heq.
    + apply InMemoryFS_reads_back.
    + reflexivity.
  - apply (write_lines_read_lines_roundtrip (line_example_fs, line_example_disk)
             (fst (luaWriteLines (line_example_fs, line_example_disk) "temp:notes.txt"
                     ["alpha"; ""; "beta"] (Some LF) (Some true)))
             "temp:notes.txt" ["alpha"; ""; "beta"] LF).
    + left; reflexivity.
    + discriminate.
    + repeat constructor.
    + intros _. repeat constructor.
    + apply (RPackFS_reads_back_temp line_example_fs line_example_disk "temp:notes.txt"
               (NewFileBackedFSHandle "/tmp/notes.txt" "temp:notes.txt" TempResolver
                  "notes.txt") []).
      * eexists _, _. repeat split; reflexivity.
      * vm_compute. reflexivity.
      * reflexivity.
    + vm_compute. reflexivity.
Defined.

(** C8 (as stated, refuted).  With the separator LF, a line that ends in CR
    comes back without it and with the separator CR LF; and the empty list of
    lines comes back as one empty line.  No line contains the separator in
    either case.  It is so on the in-memory filesystem and on the pack
    filesystem. *)
Lemma round_trip_fails_on_cr_and_on_no_lines :
  Strings.Contains ("a" ++ CR) LF = false
  /\ snd (luaReadLines
            (fst (luaWriteLines InMemory.New "p" [("a" ++ CR)%string] (Some LF) (Some true)))
            "p")
     = Ok {| lines := ["a"]; separator := CRLF; finalNewline := true |}
  /\ snd (luaReadLines
            (fst (luaWriteLines InMemory.New "p" [] (Some LF) (Some true))) "p")
     = Ok {| lines := [""]; separator := LF; finalNewline := true |}
  /\ snd (luaReadLines
            (fst (luaWriteLines (line_example_fs, line_example_disk) "temp:p"
                    [("a" ++ CR)%string] (Some LF) (Some true)))
            "temp:p")
     = Ok {| lines := ["a"]; separator := CRLF; finalNewline := true |}
  /\ snd (luaReadLines
            (fst (luaWriteLines (line_example_fs, line_example_disk) "temp:p" []
                    (Some LF) (Some true)))
            "temp:p")
     = Ok {| lines := [""]; separator := LF; finalNewline := true |}.
Proof. repeat split; vm_compute; reflexivity. Qed.

(** ** The writes of a run *)

(** The bytes that the last write to the file at [P] left there. *)
Fixpoint last_write (ws : list (FSHandle * string)) (P : string) : option string :=
  match ws with
  | [] => None
  | (h, b) :: rest =>
      match last_write rest P with
      | Some b' => Some b'
      | None => if String.eqb (absPath h) P then Some b else None
      end
  end.

Lemma last_write_snoc ws h b P :
  last_write (ws ++ [(h, b)]) P =
    if String.eqb (absPath h) P then Some b else last_write ws P.
Proof.
  induction ws as [|[h' b'] ws IH]; cbn [last_write app].
  - reflexivity.
  - rewrite IH. destruct (String.eqb (absPath h) P); [reflexivity|].
    destruct (last_write ws P); reflexivity.
Qed.

Lemma last_write_In ws h b :
  In (h, b) ws -> exists b', last_write ws (absPath h) = Some b'.
Proof.
  induction ws as [|[h' b'] ws IH]; intros Hin; [destruct Hin|].
  cbn [last_write]. destruct Hin as [[= -> ->]|Hin].
  - destruct (last_write ws (absPath h)); [eauto|].
    rewrite String.eqb_refl. eauto.
  - destruct (IH Hin) as [b'' ->]. eauto.
Qed.

(** A filesystem that, next to the [RPackFS] and its disk, keeps the list of
    the writes that succeeded, each with its handle and its bytes.  The list
    is there to state properties of a run; the run does not depend on it. *)
Record Logged := {
  state : RPackFS * disk;
  written : list (FSHandle * string)
}.

#[export] Instance Logged_FS : FS Logged := {
  fs_Write l name b :=
    let '(st, e) := fs_Write (state l) name b in
    ({| state := st;
        written :=
          match e, resolve (BaseFS_ (fst (state l))) name with
          | None, Ok h => written l ++ [(h, b)]
          | _, _ => written l
          end |}, e);
  fs_Read l name :=
    let '(st, r) := fs_Read (state l) name in
    ({| state := st; written := written l |}, r);
  fs_Stat l name :=
    let '(st, r) := fs_Stat (state l) name in
    ({| state := st; written := written l |}, r);
  fs_ReadDir l name :=
    let '(st, r) := fs_ReadDir (state l) name in
    ({| state := st; written := written l |}, r);
  fs_ReadDirAll l name :=
    let '(st, r) := fs_ReadDirAll (state l) name in
    ({| state := st; written := written l |}, r)
}.


(** The list of writes is a spectator of the run. *)
Lemma Logged_Write l name b :
  fs_Write (state l) name b
  = (state (fst (fs_Write l name b)), snd (fs_Write l name b)).
Proof.
  cbn [fs_Write Logged_FS]. destruct (fs_Write (state l) name b) as [st e].
  reflexivity.
Qed.

Lemma Logged_Read l name :
  fs_Read (state l) name = (state (fst (fs_Read l name)), snd (fs_Read l name)).
Proof.
  cbn [fs_Read Logged_FS]. destruct (fs_Read (state l) name) as [st e].
  reflexivity.
Qed.

Lemma Logged_ReadDir l name :
  fs_ReadDir (state l) name
  = (state (fst (fs_ReadDir l name)), snd (fs_ReadDir l name)).
Proof.
  cbn [fs_ReadDir Logged_FS]. destruct (fs_ReadDir (state l) name) as [st e].
  reflexivity.
Qed.

Lemma Logged_ReadDirAll l name :
  fs_ReadDirAll (state l) name
  = (state (fst (fs_ReadDirAll l name)), snd (fs_ReadDirAll l name)).
Proof.
  cbn [fs_ReadDirAll Logged_FS]. destruct (fs_ReadDirAll (state l) name) as [st e].
  reflexivity.
Qed.

Lemma Logged_do_call l c :
  do_call (state l) c = (state (fst (do_call l c)), snd (do_call l c)).
Proof.
  destruct c; cbn [do_call].
  - unfold luaCopy. rewrite (Logged_Read l).
    destruct (fs_Read l in_) as [l1 [b|e]]; cbn [fst snd]; [|reflexivity].
    rewrite (Logged_Write l1).
    destruct (fs_Write l1 out b) as [l2 [e|]]; reflexivity.
  - unfold luaWrite. rewrite (Logged_Write l).
    destruct (fs_Write l friendly content) as [l1 [e|]]; reflexivity.
  - unfold luaRead. rewrite (Logged_Read l).
    destruct (fs_Read l friendly) as [l1 [b|e]]; reflexivity.
  - unfold luaReadDir. destruct recursive.
    + rewrite (Logged_ReadDirAll l).
      destruct (fs_ReadDirAll l friendly) as [l1 [[fl dl]|e]]; reflexivity.
    + rewrite (Logged_ReadDir l).
      destruct (fs_ReadDir l friendly) as [l1 [[fl dl]|e]]; reflexivity.
  - unfold luaReadLines. rewrite (Logged_Read l).
    destruct (fs_Read l friendly) as [l1 [b|e]]; reflexivity.
  - unfold luaWriteLines. rewrite (Logged_Write l).
    match goal with |- context [fs_Write l ?n ?b] =>
      destruct (fs_Write l n b) as [l1 [e|]] end; reflexivity.
Qed.

Lemma Logged_ExecuteLua script :
  forall l,
    ExecuteLua script (state l)
    = (state (fst (ExecuteLua script l)), snd (ExecuteLua script l)).
Proof.
  induction script as [|c script IH]; intros l; cbn [ExecuteLua].
  - reflexivity.
  - rewrite (Logged_do_call l c).
    destruct (do_call l c) as [l1 [e|]]; cbn [fst snd]; [reflexivity | apply IH].
Qed.

(** ** The invariant of a run *)

Definition is_target (h : FSHandle) : bool := String.eqb (resolver h) TargetResolver.

(** While a script runs on resolvers [rs]: the target handles of the
    recorder are the target writes so far, every write went to a handle that
    [rs] produced, and the disk holds what was last written. *)
Definition run_inv (rs : list FSResolver) (l : Logged) : Prop :=
  Resolvers (BaseFS_ (fst (state l))) = rs
  /\ (exists recs, recording (Hooks (BaseFS_ (fst (state l)))) recs
        /\ target_handles recs = List.filter is_target (map fst (written l)))
  /\ (forall h b, In (h, b) (written l) -> exists name, resolve_in rs name = Ok h)
  /\ (forall P b, last_write (written l) P = Some b ->
        OS.node_at (snd (state l)) P = Some (File b)).

Lemma run_inv_quiet rs l l' :
  run_inv rs l ->
  fs_quiet (BaseFS_ (fst (state l))) (BaseFS_ (fst (state l'))) ->
  snd (state l') = snd (state l) ->
  written l' = written l ->
  run_inv rs l'.
Proof.
  intros (Hrs & (recs & Hrec & Hth) & Hprov & Hdisk) [Hq1 Hq2] Hd Hw.
  split; [congruence|]. split; [|split].
  - destruct (Hq2 recs Hrec) as (recs' & Hrec' & Heq). exists recs'.
    split; [assumption|]. rewrite Hw. congruence.
  - rewrite Hw. exact Hprov.
  - rewrite Hw, Hd. exact Hdisk.
Qed.

Lemma Logged_Read_inv rs l name :
  run_inv rs l -> run_inv rs (fst (fs_Read l name)).
Proof.
  intros Hinv. apply (run_inv_quiet rs l); [assumption| | |];
    cbn [fs_Read Logged_FS RPackFS_FS];
    pose proof (Read_quiet (BaseFS_ (fst (state l))) (snd (state l)) name) as Hq;
    destruct (Base.Read (BaseFS_ (fst (state l))) (snd (state l)) name) as [fs r];
    cbn [fst snd state written BaseFS_] in *; auto.
Qed.

Lemma Logged_ReadDir_inv rs l name :
  run_inv rs l -> run_inv rs (fst (fs_ReadDir l name)).
Proof.
  intros Hinv. apply (run_inv_quiet rs l); [assumption| | |];
    cbn [fs_ReadDir Logged_FS RPackFS_FS];
    pose proof (ReadDir_quiet (BaseFS_ (fst (state l))) (snd (state l)) name) as Hq;
    destruct (Base.ReadDir (BaseFS_ (fst (state l))) (snd (state l)) name) as [fs r];
    cbn [fst snd state written BaseFS_] in *; auto.
Qed.

Lemma Logged_ReadDirAll_inv rs l name :
  run_inv rs l -> run_inv rs (fst (fs_ReadDirAll l name)).
Proof.
  intros Hinv. apply (run_inv_quiet rs l); [assumption| | |];
    cbn [fs_ReadDirAll Logged_FS RPackFS_FS]; unfold Base.ReadDirAll;
    pose proof (read_dir_all_quiet (S (size (snd (state l)))) (snd (state l))
                  (BaseFS_ (fst (state l))) [name] [] []) as Hq;
    destruct (Base.read_dir_all (S (size (snd (state l)))) (BaseFS_ (fst (state l)))
                (snd (state l)) [name] [] []) as [fs r];
    cbn [fst snd state written BaseFS_] in *; auto.
Qed.

Lemma target_handles_write recs h :
  target_handles (recs ++ [{| Typ := FSAccessTypeWrite; Handle := h |}])
  = target_handles recs ++ (if is_target h then [h] else []).
Proof.
  rewrite target_handles_app. f_equal. unfold target_handles, is_target.
  cbn [List.filter Typ Handle]. unfold TargetTransferHandleFilterFn.
  cbn [FSAccessType_eqb negb].
  destruct (String.eqb (resolver h) TargetResolver); reflexivity.
Qed.

Lemma Logged_Write_inv rs l name b l' :
  run_inv rs l -> fs_Write l name b = (l', None) -> run_inv rs l'.
Proof.
  intros (Hrs & (recs & Hrec & Hth) & Hprov & Hdisk).
  cbn [fs_Write Logged_FS RPackFS_FS].
  destruct (Base.Write (BaseFS_ (fst (state l))) (snd (state l)) name b)
    as [[fs' d'] e] eqn:Hw.
  intros [= <- ->].
  destruct (Write_ok _ _ _ _ _ _ recs Hrec Hw) as (h & Hres & Hrs' & Hrec' & Hhw).
  rewrite Hres. unfold run_inv. cbn [state written fst snd BaseFS_].
  apply Handle_Write_ok in Hhw. destruct Hhw as [Hat Hother].
  split; [congruence|]. split; [|split].
  - eexists. split; [exact Hrec'|]. rewrite target_handles_write, Hth.
    rewrite map_app, List.filter_app. cbn [map fst List.filter].
    reflexivity.
  - intros h' b' Hin. apply in_app_or in Hin. destruct Hin as [Hin|[[= <- <-]|[]]].
    + eauto.
    + exists name. unfold resolve in Hres. congruence.
  - intros P b'. rewrite last_write_snoc.
    destruct (String.eqb (absPath h) P) eqn:E.
    + apply String.eqb_eq in E. subst P. intros [= <-]. exact Hat.
    + apply String.eqb_neq in E. intros Hl. apply Hother; [congruence|].
      now apply Hdisk.
Qed.

Lemma do_call_inv rs l c l' :
  run_inv rs l -> do_call l c = (l', None) -> run_inv rs l'.
Proof.
  intros Hinv. destruct c; cbn [do_call].
  - unfold luaCopy. pose proof (Logged_Read_inv rs l in_ Hinv) as H1.
    destruct (fs_Read l in_) as [l1 [b|e]]; [|discriminate]. cbn [fst] in H1.
    destruct (fs_Write l1 out b) as [l2 [e|]] eqn:Hw; [discriminate|].
    intros [= <-]. eapply Logged_Write_inv; eauto.
  - unfold luaWrite.
    destruct (fs_Write l friendly content) as [l1 [e|]] eqn:Hw; [discriminate|].
    intros [= <-]. eapply Logged_Write_inv; eauto.
  - unfold luaRead. pose proof (Logged_Read_inv rs l friendly Hinv) as H1.
    destruct (fs_Read l friendly) as [l1 [b|e]]; [|discriminate].
    intros [= <-]. exact H1.
  - unfold luaReadDir. destruct recursive.
    + pose proof (Logged_ReadDirAll_inv rs l friendly Hinv) as H1.
      destruct (fs_ReadDirAll l friendly) as [l1 [[fl dl]|e]]; [|discriminate].
      intros [= <-]. exact H1.
    + pose proof (Logged_ReadDir_inv rs l friendly Hinv) as H1.
      destruct (fs_ReadDir l friendly) as [l1 [[fl dl]|e]]; [|discriminate].
      intros [= <-]. exact H1.
  - unfold luaReadLines. pose proof (Logged_Read_inv rs l friendly Hinv) as H1.
    destruct (fs_Read l friendly) as [l1 [b|e]]; [|discriminate].
    intros [= <-]. exact H1.
  - unfold luaWriteLines.
    match goal with |- context [fs_Write l ?n ?b] =>
      destruct (fs_Write l n b) as [l1 [e|]] eqn:Hw end; [discriminate|].
    intros [= <-]. eapply Logged_Write_inv; eauto.
Qed.

Lemma ExecuteLua_inv rs script :
  forall l l', run_inv rs l -> ExecuteLua script l = (l', None) -> run_inv rs l'.
Proof.
  induction script as [|c script IH]; intros l l' Hinv; cbn [ExecuteLua].
  - now intros [= <-].
  - destruct (do_call l c) as [l1 [e|]] eqn:Hc; [discriminate|].
    apply IH. eapply do_call_inv; eauto.
Qed.

Lemma run_inv_start enforcePure src run tmp exec inputs (d0 : disk) :
  run_inv (Resolvers (BaseFS_ (NewRPackFS enforcePure src run tmp exec inputs)))
    {| state := (NewRPackFS enforcePure src run tmp exec inputs, d0); written := [] |}.
Proof.
  split; [reflexivity|]. split; [|split].
  - exists []. split; [|reflexivity]. eexists _, _. repeat split; reflexivity.
  - intros h b [].
  - intros P b [=].
Qed.

(** ** Handles of the target resolver *)

Lemma Resolve_resolver (r : FSResolver) (name : string) (h : FSHandle) :
  Resolve r name = Matched (Ok h) -> resolver h = resolver_name r.
Proof.
  destruct r as [rname prefix baseDir | rname prefix inputs]; cbn [Resolve resolver_name].
  - unfold FileBacked_Resolve.
    destruct (Strings.CutPrefix name prefix) as [suffix [|]]; cbn [negb]; [|discriminate].
    destruct (Filepath.IsAbs (Filepath.Clean suffix)); [discriminate|].
    destruct (Filepath.IsLocal (Filepath.Clean suffix)); cbn [negb]; [|discriminate].
    now intros [= <-].
  - unfold Map_Resolve.
    destruct (Strings.CutPrefix name prefix) as [suffix [|]]; cbn [negb]; [|discriminate].
    destruct (Filepath.IsAbs (Filepath.Clean suffix)); [discriminate|].
    destruct (Filepath.IsLocal (Filepath.Clean suffix)); cbn [negb]; [|discriminate].
    destruct (Strings.Cut suffix "/") as [[base nextPath] found].
    destruct (find_input inputs base) as [ri|]; [|discriminate].
    destruct found.
    + destruct (Type_ ri); [discriminate|].
      destruct (Filepath.IsAbs (Filepath.Clean nextPath)); [discriminate|].
      destruct (Filepath.IsLocal (Filepath.Clean nextPath)); cbn [negb]; [|discriminate].
      now intros [= <-].
    + now intros [= <-].
Qed.

Lemma FileBacked_Resolve_handle (rname prefix baseDir name : string) (h : FSHandle) :
  FileBacked_Resolve rname prefix baseDir name = Matched (Ok h) ->
  exists c, relative_local c
    /\ absPath h = Filepath.Join [baseDir; c] /\ indirectTargetPath h = c.
Proof.
  unfold FileBacked_Resolve.
  destruct (Strings.CutPrefix name prefix) as [suffix [|]]; cbn [negb]; [|discriminate].
  destruct (Filepath.IsAbs (Filepath.Clean suffix)) eqn:Habs; [discriminate|].
  destruct (Filepath.IsLocal (Filepath.Clean suffix)) eqn:Hloc; cbn [negb]; [|discriminate].
  intros [= <-]. exists (Filepath.Clean suffix).
  split; [now apply relative_local_Clean | split; reflexivity].
Qed.

(** A handle of the target resolver has a clean, relative, local indirect
    target path and lies in the run directory. *)
Lemma target_handle_shape enforcePure src run tmp exec inputs name (h : FSHandle) :
  resolve_in (Resolvers (BaseFS_ (NewRPackFS enforcePure src run tmp exec inputs))) name
    = Ok h ->
  is_target h = true ->
  exists c, relative_local c
    /\ absPath h = Filepath.Join [run; c] /\ indirectTargetPath h = c.
Proof.
  cbn [NewRPackFS BaseFS_ Resolvers resolve_in]. intros Hres Ht.
  assert (Hother : forall r, resolver_name r <> TargetResolver ->
            Resolve r name = Matched (Ok h) -> False).
  { intros r Hr Hm. apply Resolve_resolver in Hm. unfold is_target in Ht.
    apply String.eqb_eq in Ht. congruence. }
  destruct (Resolve (NewFileBackedFSResolver RPackResolver "rpack:" src) name)
    as [|res] eqn:E1.
  2:{ subst res. exfalso. eapply Hother; [|exact E1]. discriminate. }
  destruct (Resolve (NewFileBackedFSResolver TempResolver "temp:" tmp) name)
    as [|res] eqn:E2.
  2:{ subst res. exfalso. eapply Hother; [|exact E2]. discriminate. }
  destruct (Resolve (NewMapFSResolver MapResolver MapFSResolverPrefix inputs) name)
    as [|res] eqn:E3.
  2:{ subst res. exfalso. eapply Hother; [|exact E3]. discriminate. }
  destruct (Resolve (NewFileBackedFSResolver TargetResolver "" run) name)
    as [|res] eqn:E4; [discriminate|].
  subst res. cbn [Resolve] in E4. now apply FileBacked_Resolve_handle in E4.
Qed.

(** ** The commit phase *)

(** A list without the repetitions of its elements: every element stays
    where it occurs first. *)
Fixpoint first_occurrences_from (seen l : list string) : list string :=
  match l with
  | [] => []
  | p :: rest =>
      if decide (p ∈ seen) then first_occurrences_from seen rest
      else p :: first_occurrences_from (p :: seen) rest
  end.

Definition first_occurrences (l : list string) : list string :=
  first_occurrences_from [] l.

Lemma first_occurrences_from_elem (l : list string) :
  forall seen p,
    p ∈ first_occurrences_from seen l <-> p ∈ l /\ p ∉ seen.
Proof.
  induction l as [|x l IH]; intros seen p; cbn [first_occurrences_from].
  - rewrite !elem_of_nil. tauto.
  - destruct (decide (x ∈ seen)) as [Hx|Hx].
    + rewrite IH, elem_of_cons. split; [tauto|].
      intros [[->|Hp] Hn]; [contradiction | tauto].
    + rewrite !elem_of_cons, IH, elem_of_cons.
      destruct (decide (p = x)) as [->|Hne]; tauto.
Qed.

Lemma first_occurrences_from_NoDup (l : list string) :
  forall seen, NoDup (first_occurrences_from seen l).
Proof.
  induction l as [|x l IH]; intros seen; cbn [first_occurrences_from].
  - constructor.
  - destruct (decide (x ∈ seen)); [apply IH|].
    constructor; [|apply IH].
    rewrite first_occurrences_from_elem, elem_of_cons. tauto.
Qed.

(** Where the executor looks for the staged file of an indirect target
    path. *)
Definition staged (runPath p : string) : string :=
  Filepath.Clean (Filepath.Join [runPath; p]).

Definition to_move (runPath p : string) : ControlledFile :=
  {| cf_Path := p; cf_AbsPath := staged runPath p |}.

Lemma staged_injective run p q :
  relative_local p -> relative_local q -> staged run p = staged run q -> p = q.
Proof.
  intros Hp Hq. unfold staged. rewrite !staged_path_clean by assumption.
  now apply staged_path_injective.
Qed.

(** Every file to move has the checksum of its staged bytes. *)
Definition sums_ok (d : disk) (cs : gmap string string) (fl : list ControlledFile)
    : Prop :=
  forall f, In f fl ->
    exists b, OS.ReadFile d (cf_AbsPath f) = Ok b
      /\ cs !! cf_AbsPath f = Some (Util.Sha256String b).

Lemma collect_spec (d : disk) (run : string) (hs : list FSHandle) :
  forall acc seen,
    (forall h, In h hs ->
       relative_local (indirectTargetPath h)
       /\ exists b, OS.ReadFile d (staged run (indirectTargetPath h)) = Ok b) ->
    Forall relative_local seen ->
    (forall k, k ∈ Exec.visitedPaths acc <-> exists p, p ∈ seen /\ k = staged run p) ->
    sums_ok d (Exec.checksums acc) (Exec.filesToMove acc) ->
    exists c,
      Exec.collect d run hs acc = Ok c
      /\ Exec.filesToMove c =
           Exec.filesToMove acc
           ++ map (to_move run) (first_occurrences_from seen (map indirectTargetPath hs))
      /\ sums_ok d (Exec.checksums c) (Exec.filesToMove c).
Proof.
  induction hs as [|h hs IH]; intros acc seen Hhs Hseen Hvis Hsums.
  - exists acc. cbn [Exec.collect map first_occurrences_from].
    rewrite app_nil_r. auto.
  - cbn [Exec.collect map first_occurrences_from].
    destruct (Hhs h (or_introl eq_refl)) as [Hrl [b Hb]].
    fold (staged run (indirectTargetPath h)).
    assert (Hrest : forall h', In h' hs ->
              relative_local (indirectTargetPath h')
              /\ exists b, OS.ReadFile d (staged run (indirectTargetPath h')) = Ok b).
    { intros h' Hin. apply Hhs. now right. }
    assert (Hiff : staged run (indirectTargetPath h) ∈ Exec.visitedPaths acc
                   <-> indirectTargetPath h ∈ seen).
    { rewrite Hvis. split.
      - intros (p & Hp & Heq). apply staged_injective in Heq; [congruence|assumption|].
        rewrite List.Forall_forall in Hseen. apply Hseen. now apply list_elem_of_In.
      - intros Hin. eauto. }
    destruct (decide (staged run (indirectTargetPath h) ∈ Exec.visitedPaths acc))
      as [Hv|Hv];
      destruct (decide (indirectTargetPath h ∈ seen)) as [Hs|Hs]; try tauto.
    + apply IH; assumption.
    + unfold Util.Sha256File. rewrite Hb.
      edestruct (IH {| Exec.visitedPaths :=
                         {[staged run (indirectTargetPath h)]} ∪ Exec.visitedPaths acc;
                       Exec.checksums :=
                         <[staged run (indirectTargetPath h) := Sha256.Sum b]>
                           (Exec.checksums acc);
                       Exec.filesToMove :=
                         Exec.filesToMove acc
                         ++ [{| cf_Path := indirectTargetPath h;
                                cf_AbsPath := staged run (indirectTargetPath h) |}] |}
                   (indirectTargetPath h :: seen)) as (c & Hc & Hfiles & Hsums');
        try assumption.
      * constructor; assumption.
      * intros k. cbn [Exec.visitedPaths]. rewrite elem_of_union, elem_of_singleton, Hvis.
        split.
        -- intros [->|(p & Hp & ->)].
           ++ exists (indirectTargetPath h). split; [now left | reflexivity].
           ++ exists p. split; [now right | reflexivity].
        -- intros (p & Hp & ->). apply elem_of_cons in Hp.
           destruct Hp as [->|Hp]; [now left | right; eauto].
      * intros f Hin. cbn [Exec.checksums Exec.filesToMove] in *.
        apply in_app_or in Hin. destruct Hin as [Hin|[<-|[]]].
        -- destruct (Hsums f Hin) as (b' & Hb' & Hcs).
           exists b'. split; [assumption|].
           destruct (decide (cf_AbsPath f = staged run (indirectTargetPath h)))
             as [E|E].
           ++ rewrite E, lookup_insert_eq. rewrite E in Hb'.
              unfold Util.Sha256String. congruence.
           ++ rewrite lookup_insert_ne by congruence. exact Hcs.
        -- cbn [cf_AbsPath]. exists b. split; [assumption|].
           now rewrite lookup_insert_eq.
      * exists c. split; [exact Hc|]. split; [|exact Hsums'].
        rewrite Hfiles. cbn [Exec.filesToMove]. rewrite <- app_assoc. reflexivity.
Qed.

Lemma build_lockfile_spec (d : disk) (cs : gmap string string)
    (fl : list ControlledFile) :
  forall lock,
    sums_ok d cs fl ->
    exists lock',
      Exec.build_lockfile cs fl lock = Ok lock'
      /\ map Path (Files lock') = map Path (Files lock) ++ map cf_Path fl
      /\ (forall e, In e (Files lock) -> In e (Files lock'))
      /\ (forall f, In f fl ->
            exists b, OS.ReadFile d (cf_AbsPath f) = Ok b
              /\ In {| Path := cf_Path f; Sha := Util.Sha256String b |} (Files lock')).
Proof.
  induction fl as [|f fl IH]; intros lock Hsums; cbn [Exec.build_lockfile].
  - exists lock. rewrite app_nil_r. repeat split; auto. intros f [].
  - destruct (Hsums f (or_introl eq_refl)) as (b & Hb & Hcs). rewrite Hcs.
    destruct (IH (AddFile lock (cf_Path f) (Util.Sha256String b)))
      as (lock' & Hbuild & Hpaths & Hkeep & Hentries).
    { intros f' Hin. apply Hsums. now right. }
    exists lock'. split; [exact Hbuild|]. split; [|split].
    + rewrite Hpaths. cbn [AddFile Files]. rewrite map_app. cbn [map Path].
      rewrite <- app_assoc. reflexivity.
    + intros e Hin. apply Hkeep. cbn [AddFile Files]. apply in_or_app. now left.
    + intros f' [<-|Hin].
      * exists b. split; [assumption|]. apply Hkeep. cbn [AddFile Files].
        apply in_or_app. right. now left.
      * now apply Hentries.
Qed.

(** ** Moving the staged files *)

(** Where the executor moves the file of an indirect target path. *)
Definition moved_to (execPath p : string) : string :=
  Filepath.Clean (Filepath.Join [execPath; p]).




(** The indirect target paths of the recorded target writes, each where it
    occurs first. *)
Definition committed_paths (fs : RPackFS) : list string :=
  first_occurrences (map indirectTargetPath (TargetWriteHandles fs)).

(** ** Removing the files that are no longer maintained *)





(** The exec path of a run: the override, or the directory of the
    configuration. *)
Definition exec_path (e : Executor) (ci : RPackConfigInstance) : string :=
  if negb (String.eqb (OverrideExecPath e) "") then OverrideExecPath e
  else ConfigPath ci.


(** A script that writes [out/a.txt] twice, under two spellings, and
    [b.txt] in between. *)
Definition commit_example_pi : RPackInstance :=
  {| ExecPath := "/exec"; CachePath := "/cache"; TempPath := "/cache/tmp";
     RunPath := "/cache/run"; SourcePath := "/cache/src"; ResolvedInputs := [] |}.

Definition commit_example_script : list lua_call :=
  [call_write "out/a.txt" "first"; call_write "b.txt" "b";
   call_write "out/./a.txt" "second"].

Definition commit_example_fs : RPackFS :=
  fst (fst (ExecuteLua commit_example_script (initial_fs commit_example_pi, (∅ : disk)))).



Definition commit_example_run : world * option error :=
  ExecRPack {| OverrideExecPath := ""; DryRun := false; Force := false |}
    {| ConfigPath := "/exec"; LockFile := NewRPackLockFile;
       LockFilePath := "/exec/x.rpack.lock.yaml" |}
    commit_example_pi commit_example_script {| files := ∅; lockfiles := ∅ |}.


(** A pack whose directories lie where [LoadRPack] puts them, below the
    exec path [/exec]. *)
Definition overlap_example_pi : RPackInstance :=
  LoadRPack_paths "./pack" "/exec" "/exec" [].


Definition overlap_example_inner : string :=
  Filepath.Join [RPackCacheDir; Util.Sha256String "./pack"; Util.Sha256String "/exec";
                 RPackCacheDirRun; "x"].




(** * Further properties of the code

    The integrity check and the checker, the inputs of a pack, the resolvers
    and the path functions that a script calls, what a script and a run can
    do to the disk, and where the run directory lies. *)

(** Where the integrity check looks for a locked file. *)
Definition locked_at (path : string) (file : RPackLockFileFile) : string :=
  Filepath.Join [Filepath.Clean path; Path file].

Definition is_removed (d : disk) (path : string) (file : RPackLockFileFile) : bool :=
  match OS.node_at d (locked_at path file) with
  | Some (File _) => false
  | _ => true
  end.

Definition is_modified (d : disk) (path : string) (file : RPackLockFileFile) : bool :=
  match OS.node_at d (locked_at path file) with
  | Some (File content) => negb (String.eqb (Sha file) (Util.Sha256String content))
  | _ => false
  end.

Lemma check_integrity_spec (d : disk) (path : string) (fl : list RPackLockFileFile) :
  forall res,
    check_integrity d (Filepath.Clean path) fl res =
      Ok {| Modified := Modified res ++ map Path (List.filter (is_modified d path) fl);
            Removed := Removed res ++ map Path (List.filter (is_removed d path) fl) |}.
Proof.
  induction fl as [|file fl IH]; intros res; cbn [check_integrity List.filter map].
  - rewrite !app_nil_r. now destruct res.
  - unfold is_removed at 1, is_modified at 1. fold (locked_at path file).
    unfold Util.CheckFileExists, Util.FileExists, Util.Sha256File, OS.Stat, OS.ReadFile,
      Util.Sha256String.
    destruct (OS.node_at d (locked_at path file)) as [[content|]|]; cbn.
    + destruct (String.eqb (Sha file) (Sha256.Sum content)); cbn; rewrite IH; cbn.
      * reflexivity.
      * now rewrite <- app_assoc.
    + rewrite IH. cbn. now rewrite <- app_assoc.
    + rewrite IH. cbn. now rewrite <- app_assoc.
Qed.

(** X1.  [RPackLockFile.CheckIntegrity] on a disk whose regular files can all
    be read: it does not fail, and it reports the paths of the lockfile in
    the order of the lockfile, as removed those with no regular file at
    [Join(Clean(path), file.Path)] (a directory there counts as removed), as
    modified those whose file there has a checksum other than the recorded
    one. *)
Theorem integrity_check_characterization (f : RPackLockFile) (d : disk) (path : string) :
  CheckIntegrity f d path =
    Ok {| Modified := map Path (List.filter (is_modified d path) (Files f));
          Removed := map Path (List.filter (is_removed d path) (Files f)) |}.
Proof. unfold CheckIntegrity. now rewrite check_integrity_spec. Qed.

Lemma filter_nil_iff {A} (p : A -> bool) (l : list A) :
  List.filter p l = [] <-> forall x, In x l -> p x = false.
Proof.
  induction l as [|a l IH]; cbn [List.filter].
  - split; [intros _ x [] | reflexivity].
  - destruct (p a) eqn:E.
    + split; [discriminate|]. intros H. specialize (H a (or_introl eq_refl)). congruence.
    + rewrite IH. split.
      * intros H x [<-|Hx]; auto.
      * intros H x Hx. apply H. now right.
Qed.

Lemma length_pos_nil {A} (l : list A) : (0 <? length l)%nat = false <-> l = [].
Proof. destruct l; cbn; split; congruence. Qed.

Lemma map_nil_iff {A B} (f : A -> B) (l : list A) : map f l = [] <-> l = [].
Proof. destruct l; cbn; split; congruence. Qed.

Lemma Checker_passes_iff (c : Checker.t) (ci : RPackConfigInstance) (d : disk) :
  Checker.CheckIntegrity c ci d = None
  <-> forall file, In file (Files (LockFile ci)) ->
        exists content,
          OS.ReadFile d
            (locked_at (if negb (String.eqb (Checker.OverrideExecPath c) "")
                        then Checker.OverrideExecPath c else ConfigPath ci) file)
            = Ok content
          /\ Sha file = Util.Sha256String content.
Proof.
  unfold Checker.CheckIntegrity, CheckIntegrity.
  set (execPath := if negb (String.eqb (Checker.OverrideExecPath c) "")
                   then Checker.OverrideExecPath c else ConfigPath ci).
  rewrite check_integrity_spec. cbn [Modified Removed app].
  destruct (0 <? length (map Path (List.filter (is_modified d execPath) (Files (LockFile ci)))))%nat
    eqn:Em.
  { split; [discriminate|]. intros H. exfalso.
    destruct (List.filter (is_modified d execPath) (Files (LockFile ci))) as [|x l] eqn:Ef;
      [discriminate|].
    assert (Hx : In x (List.filter (is_modified d execPath) (Files (LockFile ci))))
      by (rewrite Ef; now left).
    apply List.filter_In in Hx. destruct Hx as [Hx Hm].
    destruct (H x Hx) as (content & Hr & Hs). unfold is_modified in Hm.
    apply ReadFile_file in Hr. rewrite Hr, Hs, String.eqb_refl in Hm. discriminate. }
  apply length_pos_nil in Em. apply map_nil_iff in Em. rewrite filter_nil_iff in Em.
  destruct (0 <? length (map Path (List.filter (is_removed d execPath) (Files (LockFile ci)))))%nat
    eqn:Er.
  { split; [discriminate|]. intros H. exfalso.
    destruct (List.filter (is_removed d execPath) (Files (LockFile ci))) as [|x l] eqn:Ef;
      [discriminate|].
    assert (Hx : In x (List.filter (is_removed d execPath) (Files (LockFile ci))))
      by (rewrite Ef; now left).
    apply List.filter_In in Hx. destruct Hx as [Hx Hm].
    destruct (H x Hx) as (content & Hr & Hs). unfold is_removed in Hm.
    apply ReadFile_file in Hr. rewrite Hr in Hm. discriminate. }
  apply length_pos_nil in Er. apply map_nil_iff in Er. rewrite filter_nil_iff in Er.
  split; [|reflexivity]. intros _ file Hin.
  specialize (Em file Hin). specialize (Er file Hin).
  unfold is_modified in Em. unfold is_removed in Er.
  destruct (OS.node_at d (locked_at execPath file)) as [[content|]|] eqn:En;
    try discriminate.
  exists content. split; [now apply ReadFile_file|].
  apply negb_false_iff, String.eqb_eq in Em. exact Em.
Qed.

(** X2.  [Checker.CheckIntegrity] passes exactly when every file of the
    lockfile is a regular file below the exec path (the override if one is
    set, the path of the configuration otherwise) whose content has the
    recorded checksum. *)
Theorem checker_passes_exactly_on_intact_files (c : Checker.t)
    (ci : RPackConfigInstance) (d : disk) :
  Checker.CheckIntegrity c ci d = None
  <-> forall file, In file (Files (LockFile ci)) ->
        exists content,
          OS.ReadFile d
            (locked_at (if negb (String.eqb (Checker.OverrideExecPath c) "")
                        then Checker.OverrideExecPath c else ConfigPath ci) file)
            = Ok content
          /\ Sha file = Util.Sha256String content.
Proof. apply Checker_passes_iff. Qed.

(** ** Validation of the inputs *)

Lemma visit_names_spec (names : list string) :
  forall visited,
    visit_names names visited = None
    <-> NoDup names /\ forall n, In n names -> n ∉ visited.
Proof.
  induction names as [|n names IH]; intros visited; cbn [visit_names].
  - split; [|reflexivity]. intros _. split; [constructor | intros n []].
  - destruct (decide (n ∈ visited)) as [Hin|Hnin].
    + split; [discriminate|]. intros [_ H]. exfalso. apply (H n); [now left | exact Hin].
    + rewrite IH. split.
      * intros [Hnd Hfresh]. split.
        -- constructor; [|exact Hnd]. intros Hn. apply list_elem_of_In in Hn.
           apply (Hfresh n Hn). apply elem_of_union. left. now apply elem_of_singleton.
        -- intros m [<-|Hm]; [exact Hnin|]. intros Hv. apply (Hfresh m Hm).
           apply elem_of_union. now right.
      * intros [Hnd Hfresh]. apply NoDup_cons in Hnd. destruct Hnd as [Hn Hnd].
        split; [exact Hnd|]. intros m Hm Hv.
        apply elem_of_union in Hv. destruct Hv as [Hv|Hv].
        -- apply elem_of_singleton in Hv. subst m. apply Hn. now apply list_elem_of_In.
        -- apply (Hfresh m); [now right | exact Hv].
Qed.

Lemma match_def_input_Some (defInputs : list RPackDefInput) (name : string)
    (defIn : RPackDefInput) :
  match_def_input defInputs name = Some defIn ->
  In defIn defInputs /\ def_Name defIn = name.
Proof.
  induction defInputs as [|x l IH]; cbn [match_def_input]; [discriminate|].
  destruct (String.eqb name (def_Name x)) eqn:E.
  - intros [= <-]. apply String.eqb_eq in E. split; [now left | now symmetry].
  - intros H. destruct (IH H). split; [now right | assumption].
Qed.

Lemma match_def_input_None (defInputs : list RPackDefInput) (name : string) :
  match_def_input defInputs name = None ->
  forall defIn, In defIn defInputs -> def_Name defIn <> name.
Proof.
  induction defInputs as [|x l IH]; cbn [match_def_input]; [intros _ ? []|].
  destruct (String.eqb name (def_Name x)) eqn:E; [discriminate|].
  intros H defIn [<-|Hin].
  - apply String.eqb_neq in E. congruence.
  - now apply IH.
Qed.

Lemma match_def_input_unique (defInputs : list RPackDefInput) (defIn : RPackDefInput) :
  NoDup (map def_Name defInputs) ->
  In defIn defInputs ->
  match_def_input defInputs (def_Name defIn) = Some defIn.
Proof.
  induction defInputs as [|x l IH]; intros Hnd Hin; [destruct Hin|].
  cbn [map] in Hnd. apply NoDup_cons in Hnd. destruct Hnd as [Hx Hnd].
  cbn [match_def_input]. destruct Hin as [->|Hin].
  - now rewrite String.eqb_refl.
  - destruct (String.eqb (def_Name defIn) (def_Name x)) eqn:E.
    + apply String.eqb_eq in E. exfalso. apply Hx. rewrite <- E.
      apply list_elem_of_In. now apply in_map.
    + now apply IH.
Qed.

(** The type that a definition asks for, if it asks for one. *)
Definition type_matches (defIn : RPackDefInput) (in_ : RPackResolvedInput) : Prop :=
  (def_Type defIn = RPackDefInputTypeFile -> Type_ in_ = RPackInputTypeFile)
  /\ (def_Type defIn = RPackDefInputTypeDirectory -> Type_ in_ = RPackInputTypeDirectory).

Lemma match_inputs_spec (resolvedInputs : list RPackResolvedInput)
    (defInputs : list RPackDefInput) :
  match_inputs resolvedInputs defInputs = None
  <-> forall in_, In in_ resolvedInputs ->
        exists defIn, match_def_input defInputs (Name in_) = Some defIn
                      /\ type_matches defIn in_.
Proof.
  induction resolvedInputs as [|x l IH]; cbn [match_inputs].
  - split; [intros _ ? [] | reflexivity].
  - destruct (match_def_input defInputs (Name x)) as [m|] eqn:Em.
    2:{ split; [discriminate|]. intros H.
        destruct (H x (or_introl eq_refl)) as (m & Hm & _). congruence. }
    assert (Htm : type_matches m x
                  <-> (String.eqb (def_Type m) RPackDefInputTypeFile
                       && negb (RPackInputType_eqb (Type_ x) RPackInputTypeFile) = false)
                      /\ (String.eqb (def_Type m) RPackDefInputTypeDirectory
                          && negb (RPackInputType_eqb (Type_ x) RPackInputTypeDirectory)
                          = false)).
    { unfold type_matches. rewrite !andb_false_iff, !negb_false_iff, !String.eqb_neq.
      split.
      - intros [H1 H2]. split.
        + destruct (string_dec (def_Type m) RPackDefInputTypeFile) as [E|E]; [|now left].
          right. now rewrite (H1 E).
        + destruct (string_dec (def_Type m) RPackDefInputTypeDirectory) as [E|E];
            [|now left].
          right. now rewrite (H2 E).
      - intros [H1 H2]. split; intros E.
        + destruct H1 as [H1|H1]; [contradiction|]. now destruct (Type_ x).
        + destruct H2 as [H2|H2]; [contradiction|]. now destruct (Type_ x). }
    destruct (String.eqb (def_Type m) RPackDefInputTypeFile
              && negb (RPackInputType_eqb (Type_ x) RPackInputTypeFile)) eqn:E1.
    { split; [discriminate|]. intros H.
      destruct (H x (or_introl eq_refl)) as (m' & Hm & Ht).
      assert (m' = m) by congruence. subst m'. apply Htm in Ht. destruct Ht; discriminate. }
    destruct (String.eqb (def_Type m) RPackDefInputTypeDirectory
              && negb (RPackInputType_eqb (Type_ x) RPackInputTypeDirectory)) eqn:E2.
    { split; [discriminate|]. intros H.
      destruct (H x (or_introl eq_refl)) as (m' & Hm & Ht).
      assert (m' = m) by congruence. subst m'. apply Htm in Ht. destruct Ht; discriminate. }
    rewrite IH. split.
    + intros H in_ [<-|Hin]; [|now apply H].
      exists m. split; [exact Em|]. apply Htm. auto.
    + intros H in_ Hin. apply H. now right.
Qed.

(** X3.  [ValidateRPackInputs] accepts exactly when the names of the resolved
    inputs are pairwise different, the names of the defined inputs are
    pairwise different, and every resolved input has a definition of its
    name whose type, if it is [file] or [dir], is the type of the input.
    (A definition without an input is accepted, and so is a definition with
    any other type.) *)
Theorem input_validation_characterization (resolvedInputs : list RPackResolvedInput)
    (defInputs : list RPackDefInput) :
  ValidateRPackInputs resolvedInputs defInputs = None
  <-> NoDup (map Name resolvedInputs)
      /\ NoDup (map def_Name defInputs)
      /\ forall in_, In in_ resolvedInputs ->
           exists defIn, In defIn defInputs /\ def_Name defIn = Name in_
                         /\ type_matches defIn in_.
Proof.
  unfold ValidateRPackInputs.
  pose proof (visit_names_spec (map Name resolvedInputs) ∅) as H1.
  pose proof (visit_names_spec (map def_Name defInputs) ∅) as H2.
  destruct (visit_names (map Name resolvedInputs) ∅) as [n|].
  { split; [discriminate|]. intros (Hnd & _ & _).
    assert (Some n = None); [|discriminate]. apply H1. split; [exact Hnd|].
    intros m _. apply not_elem_of_empty. }
  destruct (visit_names (map def_Name defInputs) ∅) as [n|].
  { split; [discriminate|]. intros (_ & Hnd & _).
    assert (Some n = None); [|discriminate]. apply H2. split; [exact Hnd|].
    intros m _. apply not_elem_of_empty. }
  destruct (proj1 H1 eq_refl) as [Hnd1 _]. destruct (proj1 H2 eq_refl) as [Hnd2 _].
  rewrite match_inputs_spec. split.
  - intros H. split; [exact Hnd1|]. split; [exact Hnd2|].
    intros in_ Hin. destruct (H in_ Hin) as (m & Hm & Ht).
    apply match_def_input_Some in Hm. destruct Hm. eauto.
  - intros (_ & _ & H) in_ Hin. destruct (H in_ Hin) as (m & Hm & Hname & Ht).
    exists m. split; [|exact Ht]. rewrite <- Hname. now apply match_def_input_unique.
Qed.

(** ** Canonical paths *)

Lemma canon_clean (q : bytes) : CleanPaths.canon q -> Filepath.clean q = q.
Proof.
  intros (es & Hne & Hes & ->).
  destruct es as [|e es]; [congruence|].
  pose proof (CleanPaths.real_head_not_sep e
                (CleanPaths.elems_text false (rev e ++ CleanPaths.with_sep false []) es)
                (List.Forall_inv Hes)) as (c & r & Hcr & Hc).
  assert (Htext : CleanPaths.elems_text false [] (e :: es) = c :: r).
  { cbn [CleanPaths.elems_text]. unfold CleanPaths.need_sep. cbn. exact Hcr. }
  rewrite CleanPaths.clean_cl. rewrite Htext. rewrite Hc. rewrite <- Htext.
  rewrite CleanPaths.cl_elems by (assumption || discriminate).
  assert (Hrev : rev (CleanPaths.push_all false [] (e :: es))
                 = CleanPaths.elems_text false [] (e :: es)).
  { rewrite CleanPaths.rev_push_all. reflexivity. }
  unfold CleanPaths.final.
  destruct (CleanPaths.push_all false [] (e :: es)) as [|x xs] eqn:E.
  - rewrite Htext in Hrev. discriminate.
  - exact Hrev.
Qed.

Lemma real_not_escaping (e t : bytes) :
  CleanPaths.real e -> Filepath.elem_end t = true -> Filepath.escapes (e ++ t) = false.
Proof.
  intros (Hne & Hns & Hd & Hdd) Ht. unfold Filepath.escapes.
  apply orb_false_iff. split.
  - apply not_true_iff_false. rewrite bytes_eqb_eq. intros E.
    destruct e as [|a [|b [|c e']]]; cbn [app] in E.
    + congruence.
    + destruct t as [|x [|y t']]; try discriminate E.
      injection E as -> ->. cbn in Ht. discriminate Ht.
    + destruct t; [|discriminate E]. exact (Hdd E).
    + discriminate E.
  - destruct e as [|a [|b [|c e']]]; cbn [app Strings.has_prefix].
    + congruence.
    + destruct (ascii_eqb "." a) eqn:Ea; [|reflexivity]. cbn [andb].
      destruct t as [|x t']; [reflexivity|]. cbn in Ht.
      apply CleanPaths.IsPathSeparator_true in Ht. subst x. reflexivity.
    + destruct (ascii_eqb "." a) eqn:Ea; [|reflexivity].
      destruct (ascii_eqb "." b) eqn:Eb; [|reflexivity]. exfalso.
      apply CleanPaths.ascii_eqb_eq in Ea, Eb. subst a b. now apply Hdd.
    + destruct (ascii_eqb "." a) eqn:Ea; [|reflexivity].
      destruct (ascii_eqb "." b) eqn:Eb; [|reflexivity]. cbn [andb].
      apply List.Forall_inv_tail, List.Forall_inv_tail, List.Forall_inv in Hns.
      unfold Filepath.IsPathSeparator in Hns. rewrite ascii_eqb_sym in Hns.
      now rewrite Hns.
Qed.

Lemma canon_not_escaping (q : bytes) : CleanPaths.canon q -> Filepath.escapes q = false.
Proof.
  intros (es & Hne & Hes & ->). destruct es as [|e es]; [congruence|].
  rewrite CleanPaths.canon_text by assumption.
  apply real_not_escaping; [exact (List.Forall_inv Hes) | apply CleanPaths.slashed_end].
Qed.

Lemma canon_relative_local (c : string) : CleanPaths.canon (s2b c) -> relative_local c.
Proof.
  intros Hc. pose proof (canon_clean _ Hc) as Hclean.
  destruct (CleanPaths.canon_head _ Hc) as (c0 & r & Hq & Hc0).
  split; [|split].
  - unfold Filepath.Clean. rewrite Hclean. apply b2s_s2b.
  - unfold Filepath.IsAbs, Strings.HasPrefix. rewrite Hq.
    change (s2b "/") with [Filepath.Separator]. cbn [Strings.has_prefix].
    rewrite ascii_eqb_sym. fold (Filepath.IsPathSeparator c0). now rewrite Hc0.
  - unfold Filepath.IsLocal. rewrite CleanPaths.is_local_clean by exact Hclean.
    rewrite Hq, Hc0. rewrite <- Hq. now rewrite canon_not_escaping.
Qed.

Lemma path_element_real (e : string) : path_element e -> CleanPaths.real (s2b e).
Proof.
  intros (Hne & Hd & Hdd & Hns).
  assert (Hinj : forall t, s2b e = s2b t -> e = t) by (intros t; apply s2b_inj).
  split; [|split; [|split]].
  - intros E. apply Hne. now apply (Hinj "").
  - apply no_sep_cut. unfold Strings.Contains in Hns.
    change (s2b "/") with [Filepath.Separator] in Hns.
    destruct (Strings.cut (s2b e) [Filepath.Separator]); [discriminate | reflexivity].
  - intros E. apply Hd. now apply (Hinj ".").
  - intros E. apply Hdd. now apply (Hinj "..").
Qed.

Lemma relative_local_dot : relative_local ".".
Proof. repeat split. Qed.

Lemma lexically_local_relative_local (c : string) :
  lexically_local c -> relative_local c.
Proof.
  intros [->|(es & Hne & Hes & ->)]; [apply relative_local_dot|].
  apply canon_relative_local. destruct es as [|e es]; [congruence|].
  exists (map s2b (e :: es)). split; [discriminate|]. split.
  - apply List.Forall_map. eapply List.Forall_impl; [|exact Hes].
    intros a. apply path_element_real.
  - rewrite s2b_Join_slashed. cbn [map]. rewrite CleanPaths.canon_text; [reflexivity|].
    change (s2b e :: map s2b es) with (map s2b (e :: es)).
    apply List.Forall_map. eapply List.Forall_impl; [|exact Hes].
    intros a. apply path_element_real.
Qed.

Lemma relative_local_iff (c : string) : relative_local c <-> lexically_local c.
Proof.
  split; [apply relative_local_elements | apply lexically_local_relative_local].
Qed.

Lemma CutPrefix_app (prefix s : string) :
  Strings.CutPrefix (prefix ++ s) prefix = (s, true).
Proof.
  unfold Strings.CutPrefix, Strings.HasPrefix. rewrite s2b_app, has_prefix_app.
  f_equal. rewrite drop_app_length. apply b2s_s2b.
Qed.

(** X4.  A file-backed resolver on a name that carries its prefix.  When the
    cleaned remainder is [.] or a sequence of path elements other than [.]
    and [..], the handle lies at that remainder below the base directory,
    with the cleaned remainder as indirect target path and the prefix
    followed by the cleaned remainder as friendly path; for every other
    remainder the resolver matches and fails. *)
Theorem file_backed_resolver_acceptance (rname prefix baseDir rem : string) :
  (lexically_local (Filepath.Clean rem) ->
   FileBacked_Resolve rname prefix baseDir (prefix ++ rem)
   = Matched (Ok (NewFileBackedFSHandle (below baseDir (Filepath.Clean rem))
                    (prefix ++ Filepath.Clean rem) rname (Filepath.Clean rem))))
  /\ (~ lexically_local (Filepath.Clean rem) ->
      exists e, FileBacked_Resolve rname prefix baseDir (prefix ++ rem) = Matched (Err e)).
Proof.
  unfold FileBacked_Resolve. rewrite CutPrefix_app. cbn [negb]. split.
  - intros Hl. apply lexically_local_relative_local in Hl.
    destruct Hl as (Hc & Habs & Hloc). rewrite Habs, Hloc. cbn [negb].
    rewrite Join_below; [reflexivity|]. now split.
  - intros Hn. destruct (Filepath.IsAbs (Filepath.Clean rem)) eqn:Habs; [eauto|].
    destruct (Filepath.IsLocal (Filepath.Clean rem)) eqn:Hloc; cbn [negb]; [|eauto].
    exfalso. apply Hn. apply relative_local_elements. now apply relative_local_Clean.
Qed.

Lemma Clean_nonempty (p : string) : Filepath.Clean p <> "".
Proof.
  unfold Filepath.Clean. intros E. apply (f_equal s2b) in E. rewrite s2b_b2s in E.
  now apply (clean_nonempty (s2b p)).
Qed.

Lemma below_Clean (e c : string) : below (Filepath.Clean e) c = below e c.
Proof.
  unfold below. rewrite CleanPaths.Clean_idempotent.
  rewrite (string_eqb_false (Filepath.Clean e) "") by apply Clean_nonempty.
  destruct (String.eqb e "") eqn:Ee; [|reflexivity].
  apply String.eqb_eq in Ee. subst e.
  change (Filepath.Clean "") with ".". cbn [String.eqb Ascii.eqb Bool.eqb].
  destruct (String.eqb c ".") eqn:Ec; [|reflexivity].
  apply String.eqb_eq in Ec. now subst c.
Qed.

(** The integrity check looks where the executor moves the file. *)
Lemma locked_at_moved_to (execPath : string) (file : RPackLockFileFile) :
  relative_local (Path file) -> locked_at execPath file = moved_to execPath (Path file).
Proof.
  intros Hp. unfold locked_at, moved_to.
  rewrite staged_path_clean by exact Hp.
  rewrite !Join_below by exact Hp. apply below_Clean.
Qed.

(** ** Invariants of a script, whatever its outcome *)

Section FSInvariant.
Context {T : Type} `{FS T}.
Variable J : T -> Prop.
Hypothesis J_Write : forall fs name b, J fs -> J (fst (fs_Write fs name b)).
Hypothesis J_Read : forall fs name, J fs -> J (fst (fs_Read fs name)).
Hypothesis J_ReadDir : forall fs name, J fs -> J (fst (fs_ReadDir fs name)).
Hypothesis J_ReadDirAll : forall fs name, J fs -> J (fst (fs_ReadDirAll fs name)).

Lemma J_do_call fs c : J fs -> J (fst (do_call fs c)).
Proof.
  intros HJ. destruct c; cbn [do_call].
  - unfold luaCopy. pose proof (J_Read fs in_ HJ) as H1.
    destruct (fs_Read fs in_) as [fs1 [b|e]]; cbn [fst] in *; [|exact H1].
    pose proof (J_Write fs1 out b H1) as H2.
    destruct (fs_Write fs1 out b) as [fs2 [e|]]; exact H2.
  - unfold luaWrite. pose proof (J_Write fs friendly content HJ) as H1.
    destruct (fs_Write fs friendly content) as [fs1 [e|]]; exact H1.
  - unfold luaRead. pose proof (J_Read fs friendly HJ) as H1.
    destruct (fs_Read fs friendly) as [fs1 [b|e]]; exact H1.
  - unfold luaReadDir. destruct recursive.
    + pose proof (J_ReadDirAll fs friendly HJ) as H1.
      destruct (fs_ReadDirAll fs friendly) as [fs1 [[fl dl]|e]]; exact H1.
    + pose proof (J_ReadDir fs friendly HJ) as H1.
      destruct (fs_ReadDir fs friendly) as [fs1 [[fl dl]|e]]; exact H1.
  - unfold luaReadLines. pose proof (J_Read fs friendly HJ) as H1.
    destruct (fs_Read fs friendly) as [fs1 [b|e]]; exact H1.
  - unfold luaWriteLines.
    match goal with |- context [fs_Write fs ?n ?b] =>
      pose proof (J_Write fs n b HJ) as H1;
      destruct (fs_Write fs n b) as [fs1 [e|]] end; exact H1.
Qed.

Lemma J_ExecuteLua script : forall fs, J fs -> J (fst (ExecuteLua script fs)).
Proof.
  induction script as [|c script IH]; intros fs HJ; cbn [ExecuteLua].
  - exact HJ.
  - pose proof (J_do_call fs c HJ) as H1.
    destruct (do_call fs c) as [fs1 [e|]]; cbn [fst] in *; [exact H1 | now apply IH].
Qed.

End FSInvariant.

(** ** What a script can do to the disk *)

(** From [d] to [d']: regular files change only at the paths [A], no
    directory is touched, nothing is removed. *)
Definition touches_only (A : string -> Prop) (d d' : disk) : Prop :=
  (forall P, ~ A P ->
     forall c, OS.node_at d' P = Some (File c) <-> OS.node_at d P = Some (File c))
  /\ (forall P, OS.node_at d P = Some Directory -> OS.node_at d' P = Some Directory)
  /\ (forall P, OS.node_at d P <> None -> OS.node_at d' P <> None).

Lemma touches_only_refl A d : touches_only A d d.
Proof. repeat split; auto. Qed.

Lemma touches_only_trans A d1 d2 d3 :
  touches_only A d1 d2 -> touches_only A d2 d3 -> touches_only A d1 d3.
Proof.
  intros (F12 & D12 & N12) (F23 & D23 & N23). split; [|split].
  - intros P HP c. rewrite (F23 P HP c). apply F12. exact HP.
  - auto.
  - auto.
Qed.

Lemma touches_only_weaken (A B : string -> Prop) d d' :
  (forall P, A P -> B P) -> touches_only A d d' -> touches_only B d d'.
Proof.
  intros HAB (F & D & N). split; [|split]; [|exact D|exact N].
  intros P HP. apply F. intros HA. apply HP. now apply HAB.
Qed.

Lemma node_at_insert_here (d d1 : disk) (p : string) (n : node) :
  OS.node_at d p = None -> OS.node_at (<[p := n]> d1) p = Some n.
Proof.
  unfold OS.node_at. destruct (_ || _); [discriminate|].
  intros _. apply lookup_insert_eq.
Qed.

(** [MkdirAll] makes directories and nothing else, also when it fails. *)
Lemma mkdir_all_touches (fuel : nat) :
  forall d path, touches_only (fun _ => False) d (fst (OS.mkdir_all fuel d path)).
Proof.
  induction fuel as [|fuel IH]; intros d path; cbn [OS.mkdir_all].
  - destruct (OS.node_at d path) as [[?|]|]; apply touches_only_refl.
  - destruct (OS.node_at d path) as [[?|]|] eqn:Hpath; try apply touches_only_refl.
    specialize (IH d (Filepath.Dir path)).
    destruct (OS.mkdir_all fuel d (Filepath.Dir path)) as [d1 [e|]];
      cbn [fst] in *; [exact IH|].
    eapply touches_only_trans; [exact IH|].
    pose proof (node_at_insert_here d d1 path Directory Hpath) as Hhere.
    assert (Hnf : forall c, OS.node_at d1 path <> Some (File c)).
    { intros c Hc. apply (proj1 IH path (fun f => f)) in Hc. congruence. }
    split; [|split].
    + intros P _ c. destruct (decide (P = path)) as [->|Hne].
      * rewrite Hhere. split; [discriminate|]. intros Hc. now apply Hnf in Hc.
      * now rewrite node_at_insert_ne.
    + intros P HP. destruct (decide (P = path)) as [->|Hne]; [exact Hhere|].
      now rewrite node_at_insert_ne.
    + intros P HP. destruct (decide (P = path)) as [->|Hne]; [now rewrite Hhere|].
      now rewrite node_at_insert_ne.
Qed.

Lemma WriteFile_touches (d : disk) (name b : string) :
  touches_only (eq name) d (fst (OS.WriteFile d name b)).
Proof.
  unfold OS.WriteFile.
  destruct (OS.node_at d name) as [[c0|]|] eqn:Hn; try apply touches_only_refl;
    destruct (OS.node_at d (Filepath.Dir name)) as [[?|]|];
    cbn [fst]; try apply touches_only_refl.
  - split; [|split].
    + intros P HP c. rewrite node_at_insert_ne; [reflexivity | congruence].
    + intros P HP. rewrite node_at_insert_ne; [exact HP | congruence].
    + intros P HP. destruct (decide (P = name)) as [->|Hne].
      * rewrite node_at_insert_file; [discriminate | congruence].
      * now rewrite node_at_insert_ne.
  - split; [|split].
    + intros P HP c. rewrite node_at_insert_ne; [reflexivity | congruence].
    + intros P HP. rewrite node_at_insert_ne; [exact HP | congruence].
    + intros P HP. destruct (decide (P = name)) as [->|Hne]; [congruence|].
      now rewrite node_at_insert_ne.
Qed.

(** A write through a handle, also one that fails, changes no regular file
    but the one at the absolute path of the handle. *)
Lemma Handle_Write_touches (d : disk) (h : FSHandle) (b : string) :
  touches_only (eq (absPath h)) d (fst (Handle_Write d h b)).
Proof.
  unfold Handle_Write, OS.MkdirAll.
  pose proof (mkdir_all_touches (String.length (Filepath.Dir (absPath h))) d
                (Filepath.Dir (absPath h))) as H1.
  apply (touches_only_weaken _ (eq (absPath h))) in H1; [|intros P []].
  destruct (OS.mkdir_all _ d (Filepath.Dir (absPath h))) as [d1 [e|]];
    cbn [fst] in *; [exact H1|].
  pose proof (WriteFile_touches d1 (absPath h) b) as H2.
  destruct (OS.WriteFile d1 (absPath h) b) as [d2 [e|]]; cbn [fst] in *;
    eapply touches_only_trans; eauto.
Qed.

(** Where the script may write: below the run directory and below the temp
    directory. *)
Definition staging_path (pi : RPackInstance) (P : string) : Prop :=
  exists c, relative_local c
    /\ (P = Filepath.Join [RunPath pi; c] \/ P = Filepath.Join [TempPath pi; c]).

Lemma writable_handle_shape enforcePure src run tmp exec inputs name (h : FSHandle) :
  resolve_in (Resolvers (BaseFS_ (NewRPackFS enforcePure src run tmp exec inputs))) name
    = Ok h ->
  RPackAccessControlFSHook.Write h = None ->
  exists c, relative_local c
    /\ (absPath h = Filepath.Join [run; c] \/ absPath h = Filepath.Join [tmp; c]).
Proof.
  cbn [NewRPackFS BaseFS_ Resolvers resolve_in]. intros Hres Hac.
  assert (Hother : forall r,
            resolver_name r = RPackResolver \/ resolver_name r = MapResolver ->
            Resolve r name = Matched (Ok h) -> False).
  { intros r Hr Hm. apply Resolve_resolver in Hm.
    unfold RPackAccessControlFSHook.Write in Hac. rewrite Hm in Hac.
    destruct Hr as [Hr|Hr]; rewrite Hr in Hac; cbn in Hac; discriminate. }
  destruct (Resolve (NewFileBackedFSResolver RPackResolver "rpack:" src) name)
    as [|res] eqn:E1.
  2:{ subst res. exfalso. eapply Hother; [|exact E1]. now left. }
  destruct (Resolve (NewFileBackedFSResolver TempResolver "temp:" tmp) name)
    as [|res] eqn:E2.
  2:{ subst res. cbn [Resolve] in E2. apply FileBacked_Resolve_handle in E2.
      destruct E2 as (c & Hc & Habs & _). exists c. auto. }
  destruct (Resolve (NewMapFSResolver MapResolver MapFSResolverPrefix inputs) name)
    as [|res] eqn:E3.
  2:{ subst res. exfalso. eapply Hother; [|exact E3]. now right. }
  destruct (Resolve (NewFileBackedFSResolver TargetResolver "" run) name)
    as [|res] eqn:E4; [discriminate|].
  subst res. cbn [Resolve] in E4. apply FileBacked_Resolve_handle in E4.
  destruct E4 as (c & Hc & Habs & _). exists c. auto.
Qed.

(** The state of a run of the pack [pi] that started from the disk [d0]. *)
Definition sandboxed (pi : RPackInstance) (d0 : disk) (st : RPackFS * disk) : Prop :=
  Resolvers (BaseFS_ (fst st)) = Resolvers (BaseFS_ (initial_fs pi))
  /\ (exists recs, recording (Hooks (BaseFS_ (fst st))) recs)
  /\ touches_only (staging_path pi) d0 (snd st).

Lemma sandboxed_quiet pi d0 (st : RPackFS * disk) fs' :
  sandboxed pi d0 st ->
  fs_quiet (BaseFS_ (fst st)) fs' ->
  sandboxed pi d0 ({| BaseFS_ := fs' |}, snd st).
Proof.
  intros (Hrs & (recs & Hrec) & Hd) [Hq1 Hq2]. split; [|split].
  - cbn [fst BaseFS_]. congruence.
  - cbn [fst BaseFS_]. destruct (Hq2 recs Hrec) as (recs' & Hrec' & _). eauto.
  - exact Hd.
Qed.

Lemma sandboxed_Read pi d0 st name :
  sandboxed pi d0 st -> sandboxed pi d0 (fst (fs_Read st name)).
Proof.
  intros Hs. cbn [fs_Read RPackFS_FS].
  pose proof (Read_quiet (BaseFS_ (fst st)) (snd st) name) as Hq.
  destruct (Base.Read (BaseFS_ (fst st)) (snd st) name) as [fs r]. cbn [fst] in *.
  now apply sandboxed_quiet.
Qed.

Lemma sandboxed_ReadDir pi d0 st name :
  sandboxed pi d0 st -> sandboxed pi d0 (fst (fs_ReadDir st name)).
Proof.
  intros Hs. cbn [fs_ReadDir RPackFS_FS].
  pose proof (ReadDir_quiet (BaseFS_ (fst st)) (snd st) name) as Hq.
  destruct (Base.ReadDir (BaseFS_ (fst st)) (snd st) name) as [fs r]. cbn [fst] in *.
  now apply sandboxed_quiet.
Qed.

Lemma sandboxed_ReadDirAll pi d0 st name :
  sandboxed pi d0 st -> sandboxed pi d0 (fst (fs_ReadDirAll st name)).
Proof.
  intros Hs. cbn [fs_ReadDirAll RPackFS_FS]. unfold Base.ReadDirAll.
  pose proof (read_dir_all_quiet (S (size (snd st))) (snd st) (BaseFS_ (fst st))
                [name] [] []) as Hq.
  destruct (Base.read_dir_all (S (size (snd st))) (BaseFS_ (fst st)) (snd st)
              [name] [] []) as [fs r]. cbn [fst] in *.
  now apply sandboxed_quiet.
Qed.

Lemma sandboxed_Write pi d0 st name b :
  sandboxed pi d0 st -> sandboxed pi d0 (fst (fs_Write st name b)).
Proof.
  intros (Hrs & (recs & Hrec) & Hd). cbn [fs_Write RPackFS_FS]. unfold Base.Write.
  destruct (resolve (BaseFS_ (fst st)) name) as [h|e] eqn:Hres.
  2:{ cbn [fst]. split; [exact Hrs|]. split; [eauto | exact Hd]. }
  pose proof (run_hooks_recording FSAccessTypeWrite _ h recs Hrec) as Hrec'.
  assert (Hac : snd (run_hooks FSAccessTypeWrite (Hooks (BaseFS_ (fst st))) h) = None ->
                RPackAccessControlFSHook.Write h = None).
  { destruct Hrec as (p & r & -> & _). cbn [run_hooks hook_call].
    destruct (RPackAccessControlFSHook.Write h); [discriminate | reflexivity]. }
  destruct (run_hooks FSAccessTypeWrite (Hooks (BaseFS_ (fst st))) h) as [hooks [e|]].
  { cbn [fst snd] in *. split; [exact Hrs|]. split; [eauto | exact Hd]. }
  cbn [fst snd] in *. specialize (Hac eq_refl).
  pose proof (Handle_Write_touches (snd st) h b) as Hw.
  destruct (Handle_Write (snd st) h b) as [d' e]. cbn [fst snd] in *.
  split; [exact Hrs|]. split; [eauto|].
  eapply touches_only_trans; [exact Hd|].
  eapply touches_only_weaken; [|exact Hw].
  intros P <-. unfold resolve in Hres. rewrite Hrs in Hres.
  unfold initial_fs in Hres.
  destruct (writable_handle_shape _ _ _ _ _ _ _ _ Hres Hac) as (c & Hc & Habs).
  exists c. auto.
Qed.

Lemma sandboxed_start pi d0 : sandboxed pi d0 (initial_fs pi, d0).
Proof.
  split; [reflexivity|]. split; [|apply touches_only_refl].
  exists []. eexists _, _. repeat split; reflexivity.
Qed.

Lemma sandboxed_run pi script d0 :
  sandboxed pi d0 (fst (ExecuteLua script (initial_fs pi, d0))).
Proof.
  apply (J_ExecuteLua (sandboxed pi d0)).
  - intros. now apply sandboxed_Write.
  - intros. now apply sandboxed_Read.
  - intros. now apply sandboxed_ReadDir.
  - intros. now apply sandboxed_ReadDirAll.
  - apply sandboxed_start.
Qed.

(** X5.  The sandbox of a script.  Whatever calls a script makes, and whether
    it ends in an error or not, on the disk that it leaves behind a regular
    file outside the run directory and the temp directory is as it was
    before, every directory is still a directory, and no path has
    vanished. *)
Theorem script_sandbox (pi : RPackInstance) (script : list lua_call) (d0 : disk) :
  let d := snd (fst (ExecuteLua script (initial_fs pi, d0))) in
  (forall P, ~ staging_path pi P ->
     forall c, OS.node_at d P = Some (File c) <-> OS.node_at d0 P = Some (File c))
  /\ (forall P, OS.node_at d0 P = Some Directory -> OS.node_at d P = Some Directory)
  /\ (forall P, OS.node_at d0 P <> None -> OS.node_at d P <> None).
Proof. exact (proj2 (proj2 (sandboxed_run pi script d0))). Qed.

(** ** The steps of a run that succeeds *)

(** After a script that ran to its end, every target write is staged. *)
Lemma staged_after_run (pi : RPackInstance) (script : list lua_call) (d0 : disk)
    (fs : RPackFS) (d : disk) :
  ExecuteLua script (initial_fs pi, d0) = ((fs, d), None) ->
  forall h, In h (TargetWriteHandles fs) ->
    relative_local (indirectTargetPath h)
    /\ staged (RunPath pi) (indirectTargetPath h) = absPath h
    /\ exists b, OS.ReadFile d (staged (RunPath pi) (indirectTargetPath h)) = Ok b.
Proof.
  intros Hrun.
  set (l0 := {| state := (initial_fs pi, d0); written := [] |}).
  pose proof (Logged_ExecuteLua script l0) as Herase. cbn [l0 state] in Herase.
  rewrite Hrun in Herase.
  destruct (ExecuteLua script l0) as [l' e'] eqn:Hl. cbn [fst snd] in Herase.
  injection Herase as Hstate He'. subst e'.
  pose proof (ExecuteLua_inv _ script l0 l'
                (run_inv_start true (SourcePath pi) (RunPath pi) (TempPath pi)
                   (ExecPath pi) (ResolvedInputs pi) d0) Hl)
    as (_ & (recs & Hrec & Hth) & Hprov & Hdisk).
  rewrite <- Hstate in Hrec, Hdisk. cbn [fst snd] in Hrec, Hdisk.
  intros h Hin. rewrite (recording_handles fs recs Hrec), Hth in Hin.
  apply List.filter_In in Hin. destruct Hin as [Hin Ht]. apply in_map_iff in Hin.
  destruct Hin as ([h' b] & Hfst & Hin). cbn [fst] in Hfst. subst h'.
  destruct (Hprov h b Hin) as [name Hname].
  destruct (target_handle_shape _ _ _ _ _ _ _ _ Hname Ht) as (c & Hc & Habs & Hitp).
  rewrite Hitp. split; [exact Hc|].
  assert (Hst : staged (RunPath pi) c = absPath h).
  { unfold staged. rewrite staged_path_clean by exact Hc. now rewrite Habs. }
  split; [exact Hst|]. rewrite Hst.
  destruct (last_write_In (written l') h b Hin) as [b' Hb'].
  exists b'. apply ReadFile_file. now apply Hdisk.
Qed.

Lemma NoDup_map_eq {A B} (f : A -> B) (l : list A) (x y : A) :
  NoDup (map f l) -> In x l -> In y l -> f x = f y -> x = y.
Proof.
  induction l as [|a l IH]; intros Hnd Hx Hy Hxy; [destruct Hx|].
  cbn [map] in Hnd. apply NoDup_cons in Hnd. destruct Hnd as [Ha Hnd].
  destruct Hx as [->|Hx], Hy as [->|Hy]; auto.
  - exfalso. apply Ha. rewrite Hxy. apply list_elem_of_In. now apply in_map.
  - exfalso. apply Ha. rewrite <- Hxy. apply list_elem_of_In. now apply in_map.
Qed.

(** The steps that a run has taken when it succeeds and is no dry run. *)
Lemma successful_run (e : Executor) (ci : RPackConfigInstance) (pi : RPackInstance)
    (script : list lua_call) (w w' : world) :
  DryRun e = false ->
  ExecRPack e ci pi script w = (w', None) ->
  exists fs d lock integrity d1,
    ExecuteLua script (initial_fs pi, files w) = ((fs, d), None)
    /\ (forall p, p ∈ committed_paths fs -> relative_local p)
    /\ NoDup (committed_paths fs)
    /\ map Path (Files lock) = committed_paths fs
    /\ (forall file, In file (Files lock) ->
          exists b, OS.ReadFile d (staged (RunPath pi) (Path file)) = Ok b
                    /\ Sha file = Util.Sha256String b)
    /\ CheckIntegrity (LockFile ci) d (exec_path e ci) = Ok integrity
    /\ (Force e = false -> Modified integrity = [])
    /\ Exec.check_overwrite (Force e) d (exec_path e ci)
         (Added (Changes lock (LockFile ci))) = None
    /\ Exec.move_files d (exec_path e ci)
         (map (to_move (RunPath pi)) (committed_paths fs)) = (d1, None)
    /\ Exec.remove_files d1 (exec_path e ci) (Removed_ (Changes lock (LockFile ci)))
       = (files w', None)
    /\ lockfiles w' = <[LockFilePath ci := lock]> (lockfiles w).
Proof.
  intros Hdry. unfold ExecRPack. fold (initial_fs pi). fold (exec_path e ci).
  destruct (ExecuteLua script (initial_fs pi, files w)) as [[fs d] [err|]] eqn:Hrun;
    [discriminate|].
  pose proof (staged_after_run pi script (files w) fs d Hrun) as Hhs.
  assert (Hin_paths : forall p, p ∈ committed_paths fs
                                <-> p ∈ map indirectTargetPath (TargetWriteHandles fs)).
  { intros p. unfold committed_paths, first_occurrences.
    rewrite first_occurrences_from_elem, elem_of_nil. tauto. }
  assert (Hpaths : forall p, p ∈ committed_paths fs -> relative_local p).
  { intros p Hp. apply Hin_paths, list_elem_of_In, in_map_iff in Hp.
    destruct Hp as (h & <- & Hh). now apply Hhs. }
  assert (Hnodup : NoDup (committed_paths fs)) by apply first_occurrences_from_NoDup.
  destruct (collect_spec d (RunPath pi) (TargetWriteHandles fs) Exec.no_files [])
    as (c & Hcollect & Hfiles & Hsums).
  { intros h Hin. destruct (Hhs h Hin) as (Hrl & _ & b & Hb). eauto. }
  { constructor. }
  { intros k. cbn [Exec.no_files Exec.visitedPaths]. split.
    - intros Hk. now apply elem_of_empty in Hk.
    - intros (p & Hp & _). now apply elem_of_nil in Hp. }
  { intros f []. }
  cbn [Exec.no_files Exec.filesToMove app] in Hfiles.
  change (first_occurrences_from [] (map indirectTargetPath (TargetWriteHandles fs)))
    with (committed_paths fs) in Hfiles.
  destruct (build_lockfile_spec d (Exec.checksums c) (Exec.filesToMove c)
              NewRPackLockFile Hsums)
    as (lock & Hbuild & Hlock_paths & _ & Hentries).
  assert (Hlp : map Path (Files lock) = committed_paths fs).
  { rewrite Hlock_paths, Hfiles. cbn [NewRPackLockFile Files map app].
    rewrite map_map. cbn [to_move cf_Path]. apply map_id. }
  unfold Exec.finish. destruct (Check fs); [discriminate|]. rewrite Hdry.
  cbn [Exec.with_files files lockfiles]. rewrite Hcollect.
  destruct (CheckIntegrity (LockFile ci) d (exec_path e ci)) as [integrity|err] eqn:Hint;
    [|discriminate].
  destruct ((0 <? length (Modified integrity))%nat && negb (Force e)) eqn:Hmod;
    [discriminate|].
  rewrite Hbuild.
  destruct (Exec.check_overwrite _ _ _ _) eqn:Hover; [discriminate|].
  destruct (Exec.move_files _ _ _) as [d1 [err|]] eqn:Hmove; [discriminate|].
  destruct (Exec.remove_files _ _ _) as [d2 [err|]] eqn:Hrem; [discriminate|].
  intros [= <-]. cbn [lockfiles files].
  exists fs, d, lock, integrity, d1.
  split; [reflexivity|]. split; [exact Hpaths|]. split; [exact Hnodup|].
  split; [exact Hlp|].
  split.
  { intros file Hfile.
    assert (Hp : In (Path file) (committed_paths fs)).
    { rewrite <- Hlp. now apply in_map. }
    destruct (Hentries (to_move (RunPath pi) (Path file))) as (b & Hb & Hentry).
    { rewrite Hfiles. now apply in_map. }
    cbn [to_move cf_AbsPath cf_Path] in Hb, Hentry.
    exists b. split; [exact Hb|].
    assert (Heq : file = {| Path := Path file; Sha := Util.Sha256String b |}).
    { apply (NoDup_map_eq Path (Files lock)); auto. rewrite Hlp. exact Hnodup. }
    rewrite Heq. reflexivity. }
  split; [exact Hint|].
  split.
  { intros Hforce. rewrite Hforce in Hmod. cbn [negb] in Hmod.
    rewrite andb_true_r in Hmod. now apply length_pos_nil in Hmod. }
  split; [exact Hover|].
  rewrite <- Hfiles. split; [exact Hmove|]. split; [exact Hrem | reflexivity].
Qed.


Definition commit_example_executor : Executor :=
  {| OverrideExecPath := ""; DryRun := false; Force := false |}.

Definition commit_example_ci : RPackConfigInstance :=
  {| ConfigPath := "/exec"; LockFile := NewRPackLockFile;
     LockFilePath := "/exec/x.rpack.lock.yaml" |}.



(** ** The checks before the commit *)

Lemma check_overwrite_None (d : disk) (execPath : string) (added : list string) :
  Exec.check_overwrite false d execPath added = None ->
  forall a, In a added -> OS.node_at d (moved_to execPath a) = None.
Proof.
  induction added as [|x added IH]; cbn [Exec.check_overwrite]; [intros _ a []|].
  fold (moved_to execPath x). unfold Util.FileExists, OS.Stat.
  destruct (OS.node_at d (moved_to execPath x)) as [[c|]|] eqn:Hx; cbn; try discriminate.
  intros H a [<-|Ha]; [exact Hx | now apply IH].
Qed.

Lemma Added_paths (new old : RPackLockFile) (p : string) :
  In p (paths new) -> ~ In p (paths old) -> In p (Added (Changes new old)).
Proof.
  intros Hn Ho. rewrite Changes_spec. cbn [Added].
  apply List.filter_In. split; [exact Hn|].
  apply bool_decide_eq_true. rewrite path_set_spec. exact Ho.
Qed.

(** X7.  Without the force flag, a run that succeeds has replaced nothing that
    the pack does not own: at the destination of every written target path
    that the old lockfile does not hold there was nothing before the run, and
    every file of the old lockfile that was on disk, outside the staging
    directories, had the recorded checksum. *)
Theorem overwrite_protection (e : Executor) (ci : RPackConfigInstance)
    (pi : RPackInstance) (script : list lua_call) (w w' : world) :
  DryRun e = false ->
  Force e = false ->
  ExecRPack e ci pi script w = (w', None) ->
  (forall p,
     p ∈ committed_paths (fst (fst (ExecuteLua script (initial_fs pi, files w)))) ->
     ~ In p (paths (LockFile ci)) ->
     OS.node_at (files w) (moved_to (exec_path e ci) p) = None)
  /\ (forall file content,
        In file (Files (LockFile ci)) ->
        relative_local (Path file) ->
        ~ staging_path pi (moved_to (exec_path e ci) (Path file)) ->
        OS.ReadFile (files w) (moved_to (exec_path e ci) (Path file)) = Ok content ->
        Sha file = Util.Sha256String content).
Proof.
  intros Hdry Hforce Hexe.
  destruct (successful_run e ci pi script w w' Hdry Hexe)
    as (fs & d & lock & integrity & d1 & Hrun & Hpaths & Hnodup & Hlp & Hentries
        & Hint & Hmod & Hover & _).
  pose proof (sandboxed_run pi script (files w)) as (_ & _ & Hfiles & Hdirs & Hkeep).
  rewrite Hrun in *. cbn [fst snd] in *. rewrite Hforce in Hover.
  specialize (Hmod Hforce). split.
  - intros p Hp Hnew.
    assert (Hadded : In p (Added (Changes lock (LockFile ci)))).
    { apply Added_paths; [|exact Hnew]. unfold paths. rewrite Hlp.
      now apply list_elem_of_In. }
    pose proof (check_overwrite_None _ _ _ Hover p Hadded) as Hnone.
    destruct (OS.node_at (files w) (moved_to (exec_path e ci) p)) as [n|] eqn:E;
      [|reflexivity].
    exfalso. apply (Hkeep (moved_to (exec_path e ci) p)); [congruence | exact Hnone].
  - intros file content Hfile Hrl Hns Hread.
    apply ReadFile_file in Hread. apply (Hfiles _ Hns) in Hread.
    unfold CheckIntegrity in Hint. rewrite check_integrity_spec in Hint.
    injection Hint as <-.
    cbn [Modified app] in Hmod. apply map_nil_iff in Hmod.
    rewrite filter_nil_iff in Hmod. specialize (Hmod file Hfile).
    unfold is_modified in Hmod. rewrite locked_at_moved_to in Hmod by exact Hrl.
    rewrite Hread in Hmod. apply negb_false_iff, String.eqb_eq in Hmod. exact Hmod.
Qed.

Lemma overwrite_protection_witness :
  ExecRPack commit_example_executor commit_example_ci commit_example_pi
    commit_example_script {| files := ∅; lockfiles := ∅ |}
  = (fst commit_example_run, None)
  /\ (forall p,
        p ∈ committed_paths commit_example_fs ->
        ~ In p (paths NewRPackLockFile) ->
        OS.node_at (∅ : disk) (moved_to "/exec" p) = None).
Proof.
  assert (Hrun : ExecRPack commit_example_executor commit_example_ci commit_example_pi
                   commit_example_script {| files := ∅; lockfiles := ∅ |}
                 = (fst commit_example_run, None)) by (vm_compute; reflexivity).
  split; [exact Hrun|].
  exact (proj1 (overwrite_protection commit_example_executor commit_example_ci
                  commit_example_pi commit_example_script
                  {| files := ∅; lockfiles := ∅ |} (fst commit_example_run)
                  eq_refl eq_refl Hrun)).
Defined.

(** ** What a run leaves alone *)






(** ** Operations that the access control denies *)

Lemma RPackFS_eta (fs : RPackFS) :
  {| BaseFS_ := with_hooks (BaseFS_ fs) (Hooks (BaseFS_ fs)) |} = fs.
Proof. destruct fs as [[rs hs]]. reflexivity. Qed.

Lemma run_hooks_denied typ hooks recs h err :
  recording hooks recs ->
  snd (hook_call typ AccessControlHook h) = Some err ->
  run_hooks typ hooks h = (hooks, Some err).
Proof.
  intros (p & r & -> & _) Hac. cbn [run_hooks].
  destruct (hook_call typ AccessControlHook h) as [hook' e'] eqn:E.
  cbn [snd] in Hac. subst e'.
  cbn [hook_call] in E. injection E as <- _. reflexivity.
Qed.

(** X9.  An operation that the access control denies changes nothing.  In any
    state that a script can reach, reading, stat, listing and recursive
    listing of a target path, and writing to an rpack path or to a map path,
    return the error of the access control hook and leave the filesystem,
    recorder and purity hook included, and the disk as they were.  The two
    listings report the denial of the stat that they start with. *)
Theorem denied_access_changes_nothing (pi : RPackInstance) (script : list lua_call)
    (d0 : disk) (name : string) (h : FSHandle) :
  let st := fst (ExecuteLua script (initial_fs pi, d0)) in
  resolve (BaseFS_ (fst st)) name = Ok h ->
  (resolver h = TargetResolver ->
     fs_Read st name = (st, Err (Errorf "Not allowed to read %s (no access to read from target directory, use 'rpack:' instead)" [friendlyPath h]))
     /\ fs_Stat st name = (st, (false, false, Some (Errorf "Not allowed to stat %s (no access to read from target directory, use 'rpack:' instead)" [friendlyPath h])))
     /\ fs_ReadDir st name = (st, Err (Errorf "Not allowed to stat %s (no access to read from target directory, use 'rpack:' instead)" [friendlyPath h]))
     /\ fs_ReadDirAll st name = (st, Err (Errorf "Not allowed to stat %s (no access to read from target directory, use 'rpack:' instead)" [friendlyPath h])))
  /\ (resolver h = RPackResolver ->
      forall b, fs_Write st name b
                = (st, Some (Errorf "Not allowed to write %s, use `temp` instead" [friendlyPath h])))
  /\ (resolver h = MapResolver ->
      forall b, fs_Write st name b
                = (st, Some (Errorf "Not allowed to write %s, use `target` instead" [friendlyPath h]))).
Proof.
  intros st Hres.
  destruct (sandboxed_run pi script d0) as (_ & (recs & Hrec) & _). fold st in Hrec.
  assert (Hst : ({| BaseFS_ := with_hooks (BaseFS_ (fst st)) (Hooks (BaseFS_ (fst st))) |},
                 snd st) = st).
  { rewrite RPackFS_eta. now destruct st. }
  split; [|split].
  - intros Ht.
    assert (Hstat : run_hooks FSAccessTypeStat (Hooks (BaseFS_ (fst st))) h
                    = (Hooks (BaseFS_ (fst st)),
                       Some (Errorf "Not allowed to stat %s (no access to read from target directory, use 'rpack:' instead)" [friendlyPath h]))).
    { apply (run_hooks_denied _ _ recs); [exact Hrec|]. cbn [hook_call snd].
      unfold RPackAccessControlFSHook.Stat. now rewrite Ht. }
    split; [|split; [|split]].
    + cbn [fs_Read RPackFS_FS]. unfold Base.Read. rewrite Hres.
      rewrite (run_hooks_denied FSAccessTypeRead _ recs h
                 (Errorf "Not allowed to read %s (no access to read from target directory, use 'rpack:' instead)" [friendlyPath h]) Hrec).
      * now rewrite Hst.
      * cbn [hook_call snd]. unfold RPackAccessControlFSHook.Read. now rewrite Ht.
    + cbn [fs_Stat RPackFS_FS]. unfold Base.Stat. rewrite Hres, Hstat. now rewrite Hst.
    + cbn [fs_ReadDir RPackFS_FS]. unfold Base.ReadDir. rewrite Hres, Hstat.
      now rewrite Hst.
    + cbn [fs_ReadDirAll RPackFS_FS]. unfold Base.ReadDirAll.
      cbn [Base.read_dir_all]. unfold Base.ReadDir. rewrite Hres, Hstat.
      now rewrite Hst.
  - intros Ht b. cbn [fs_Write RPackFS_FS]. unfold Base.Write. rewrite Hres.
    rewrite (run_hooks_denied FSAccessTypeWrite _ recs h
               (Errorf "Not allowed to write %s, use `temp` instead" [friendlyPath h]) Hrec).
    + now rewrite Hst.
    + cbn [hook_call snd]. unfold RPackAccessControlFSHook.Write. now rewrite Ht.
  - intros Ht b. cbn [fs_Write RPackFS_FS]. unfold Base.Write. rewrite Hres.
    rewrite (run_hooks_denied FSAccessTypeWrite _ recs h
               (Errorf "Not allowed to write %s, use `target` instead" [friendlyPath h]) Hrec).
    + now rewrite Hst.
    + cbn [hook_call snd]. unfold RPackAccessControlFSHook.Write. now rewrite Ht.
Qed.

Lemma denied_access_changes_nothing_witness :
  let st := fst (ExecuteLua [] (initial_fs commit_example_pi, (∅ : disk))) in
  let h := NewFileBackedFSHandle "/cache/run/a.txt" "a.txt" TargetResolver "a.txt" in
  resolve (BaseFS_ (fst st)) "a.txt" = Ok h
  /\ fs_Read st "a.txt"
     = (st, Err (Errorf "Not allowed to read %s (no access to read from target directory, use 'rpack:' instead)" ["a.txt"])).
Proof.
  intros st h.
  assert (Hres : resolve (BaseFS_ (fst st)) "a.txt" = Ok h) by (vm_compute; reflexivity).
  split; [exact Hres|].
  destruct (denied_access_changes_nothing commit_example_pi [] ∅ "a.txt" h Hres)
    as [Htarget _].
  exact (proj1 (Htarget eq_refl)).
Defined.

(** ** Temporary files *)

(** X10.  In any state that a script can reach, a write to a temp path that
    succeeds is read back: a read under any name that resolves to the same
    handle returns the bytes written. *)
Theorem temp_file_reads_back (pi : RPackInstance) (script : list lua_call) (d0 : disk)
    (name name' content : string) (h : FSHandle) (st1 : RPackFS * disk) :
  let st := fst (ExecuteLua script (initial_fs pi, d0)) in
  resolve (BaseFS_ (fst st)) name = Ok h ->
  resolve (BaseFS_ (fst st)) name' = Ok h ->
  resolver h = TempResolver ->
  fs_Write st name content = (st1, None) ->
  snd (fs_Read st1 name') = Ok content.
Proof.
  intros st Hres Hres' Htemp.
  destruct (sandboxed_run pi script d0) as (_ & (recs & Hrec) & _). fold st in Hrec.
  cbn [fs_Write fs_Read RPackFS_FS fst snd].
  destruct (Base.Write (BaseFS_ (fst st)) (snd st) name content) as [[fs' d'] e] eqn:Hw.
  intros [= <- ->]. cbn [fst snd BaseFS_].
  destruct (Write_ok _ _ _ _ _ _ recs Hrec Hw) as (h0 & Hres0 & Hrs & Hrec' & Hhw).
  assert (h0 = h) by congruence. subst h0.
  apply Handle_Write_ok in Hhw. destruct Hhw as [Hat _].
  unfold Base.Read, resolve. rewrite Hrs.
  fold (resolve (BaseFS_ (fst st)) name'). rewrite Hres'.
  destruct Hrec' as (pure & r & -> & _ & _).
  cbn [run_hooks hook_call Pure.call].
  unfold RPackAccessControlFSHook.Read, Pure.Read.
  rewrite Htemp.
  cbn [String.eqb Ascii.eqb Bool.eqb TempResolver TargetResolver MapResolver snd].
  unfold Handle_Read. apply ReadFile_file in Hat. now rewrite Hat.
Qed.

Lemma temp_file_reads_back_witness :
  let st := fst (ExecuteLua [] (initial_fs commit_example_pi, (∅ : disk))) in
  fs_Write st "temp:notes.txt" "kept"
  = (fst (fs_Write st "temp:notes.txt" "kept"), None)
  /\ snd (fs_Read (fst (fs_Write st "temp:notes.txt" "kept")) "temp:./notes.txt")
     = Ok "kept".
Proof.
  intros st.
  assert (Hw : fs_Write st "temp:notes.txt" "kept"
               = (fst (fs_Write st "temp:notes.txt" "kept"), None))
    by (vm_compute; reflexivity).
  split; [exact Hw|].
  apply (temp_file_reads_back commit_example_pi [] ∅ "temp:notes.txt" "temp:./notes.txt"
           "kept"
           (NewFileBackedFSHandle "/cache/tmp/notes.txt" "temp:notes.txt" TempResolver
              "notes.txt")).
  - vm_compute. reflexivity.
  - vm_compute. reflexivity.
  - reflexivity.
  - exact Hw.
Defined.

(** ** Paths below paths *)

Lemma string_app_assoc3 (a b c : string) : ((a ++ b) ++ c = a ++ b ++ c)%string.
Proof. apply s2b_inj. rewrite !s2b_app. now rewrite app_assoc. Qed.

Lemma string_app_nonempty (a b : string) : b <> "" -> (a ++ b)%string <> "".
Proof.
  intros Hb E. apply (f_equal s2b) in E. rewrite s2b_app in E.
  apply app_eq_nil in E. destruct E as [_ E]. apply Hb. now apply s2b_inj.
Qed.

Lemma string_app_length (a b : string) :
  String.length (a ++ b)%string = String.length a + String.length b.
Proof.
  induction a as [|c a IH]; [reflexivity|].
  change (S (String.length (a ++ b)%string) = S (String.length a + String.length b)).
  now rewrite IH.
Qed.

Lemma Strings_Join_app (es es' : list string) (sep : string) :
  es <> [] -> es' <> [] ->
  Strings.Join (es ++ es') sep
  = (Strings.Join es sep ++ sep ++ Strings.Join es' sep)%string.
Proof.
  intros Hes Hes'. induction es as [|e es IH]; [congruence|].
  destruct es as [|e1 es].
  - cbn [app]. destruct es' as [|e' es']; [congruence|]. reflexivity.
  - change ((e :: e1 :: es) ++ es') with (e :: ((e1 :: es) ++ es')).
    change (Strings.Join (e :: (e1 :: es) ++ es') sep)
      with (e ++ sep ++ Strings.Join ((e1 :: es) ++ es') sep)%string.
    rewrite IH by discriminate.
    change (Strings.Join (e :: e1 :: es) sep)
      with (e ++ sep ++ Strings.Join (e1 :: es) sep)%string.
    now rewrite !string_app_assoc3.
Qed.

Lemma relative_local_not_root (u : string) : relative_local u -> u <> "/".
Proof. intros (_ & Habs & _) ->. discriminate Habs. Qed.

(** Below a clean, relative, local path that is not [.]. *)
Lemma below_local (u n : string) :
  relative_local u -> u <> "." -> n <> "." ->
  below u n = (u ++ "/" ++ n)%string.
Proof.
  intros Hu Hud Hnd. unfold below.
  rewrite (string_eqb_false u "") by (now apply relative_local_nonempty).
  rewrite (string_eqb_false n ".") by exact Hnd.
  destruct Hu as (Hc & Habs & Hloc). rewrite Hc.
  rewrite (string_eqb_false u "/") by (intros ->; discriminate Habs).
  now rewrite (string_eqb_false u ".") by exact Hud.
Qed.

Lemma below_dot (n : string) : below "." n = n.
Proof.
  unfold below. cbn [String.eqb Ascii.eqb Bool.eqb].
  change (Filepath.Clean ".") with ".".
  destruct (String.eqb n ".") eqn:E; [apply String.eqb_eq in E; now subst|].
  reflexivity.
Qed.

Lemma below_relative_local (u n : string) :
  relative_local u -> relative_local n -> relative_local (below u n).
Proof.
  intros Hu Hn.
  destruct (string_dec u ".") as [->|Hud]; [now rewrite below_dot|].
  destruct (string_dec n ".") as [->|Hnd].
  { unfold below. rewrite (string_eqb_false u "") by (now apply relative_local_nonempty).
    cbn [String.eqb Ascii.eqb Bool.eqb]. pose proof Hu as (Hc & _). now rewrite Hc. }
  rewrite below_local by assumption.
  apply lexically_local_relative_local.
  destruct (relative_local_elements u Hu) as [->|(es & Hes & Hel & Eu)]; [congruence|].
  destruct (relative_local_elements n Hn) as [->|(es' & Hes' & Hel' & En)]; [congruence|].
  right. exists (es ++ es'). split; [|split].
  - destruct es; [congruence | discriminate].
  - apply Forall_app. split; assumption.
  - rewrite Strings_Join_app by assumption. now rewrite <- Eu, <- En.
Qed.

Lemma below_eq_Join (e c : string) :
  relative_local c -> below e c = Filepath.Join [e; c] /\ Filepath.Clean (below e c) = below e c.
Proof.
  intros Hc. rewrite <- Join_below by exact Hc. split; [reflexivity|].
  now apply staged_path_clean.
Qed.

Lemma below_nonempty (e c : string) : relative_local c -> below e c <> "".
Proof.
  intros Hc. destruct (below_eq_Join e c Hc) as [_ H]. rewrite <- H.
  apply Clean_nonempty.
Qed.

(** Going below [e] in two steps or in one. *)
Lemma below_assoc (e u n : string) :
  relative_local u -> relative_local n ->
  below (below e u) n = below e (below u n).
Proof.
  intros Hu Hn.
  destruct (string_dec e "") as [->|He].
  { unfold below at 2 3. cbn [String.eqb]. reflexivity. }
  destruct (string_dec u ".") as [->|Hud].
  { rewrite below_dot. unfold below at 2.
    rewrite (string_eqb_false e "") by exact He. cbn [String.eqb Ascii.eqb Bool.eqb].
    apply below_Clean. }
  destruct (string_dec n ".") as [->|Hnd].
  { assert (Hun : below u "." = u).
    { unfold below. rewrite (string_eqb_false u "") by (now apply relative_local_nonempty).
      cbn [String.eqb Ascii.eqb Bool.eqb]. apply Hu. }
    rewrite Hun. unfold below at 1.
    rewrite (string_eqb_false (below e u) "") by (now apply below_nonempty).
    cbn [String.eqb Ascii.eqb Bool.eqb]. now apply below_eq_Join. }
  rewrite (below_local u n) by assumption.
  assert (Hund : (u ++ "/" ++ n)%string <> ".").
  { intros E. apply (f_equal String.length) in E.
    rewrite !string_app_length in E. cbn in E.
    assert (String.length u <> 0).
    { destruct u; [|discriminate]. exfalso. now apply (relative_local_nonempty "" Hu). }
    lia. }
  assert (Hun : forall x, x <> "." -> relative_local x ->
            below e x = if String.eqb (Filepath.Clean e) "/" then ("/" ++ x)%string
                        else if String.eqb (Filepath.Clean e) "." then x
                             else (Filepath.Clean e ++ "/" ++ x)%string).
  { intros x Hx _. unfold below. rewrite (string_eqb_false e "") by exact He.
    now rewrite (string_eqb_false x ".") by exact Hx. }
  rewrite (Hun (u ++ "/" ++ n)%string Hund).
  2:{ rewrite <- (below_local u n) by assumption. now apply below_relative_local. }
  pose proof (Hun u Hud Hu) as HB.
  destruct (below_eq_Join e u Hu) as [_ HcleanB].
  assert (Hlen : forall a x, a <> "" -> x <> "" ->
            String.length (a ++ "/" ++ x)%string >= 3).
  { intros a x Ha Hx. rewrite !string_app_length. cbn.
    destruct a; [congruence|]. destruct x; [congruence|]. cbn. lia. }
  assert (Hune : u <> "") by (now apply relative_local_nonempty).
  unfold below at 1.
  rewrite (string_eqb_false (below e u) "") by (now apply below_nonempty).
  rewrite (string_eqb_false n ".") by exact Hnd.
  rewrite HcleanB.
  destruct (String.eqb (Filepath.Clean e) "/") eqn:E1.
  - rewrite HB.
    rewrite (string_eqb_false ("/" ++ u)%string "/").
    2:{ intros E. injection E as E. contradiction. }
    rewrite (string_eqb_false ("/" ++ u)%string ".") by discriminate.
    reflexivity.
  - destruct (String.eqb (Filepath.Clean e) ".") eqn:E2.
    + rewrite HB.
      rewrite (string_eqb_false u "/") by (now apply relative_local_not_root).
      now rewrite (string_eqb_false u ".") by exact Hud.
    + rewrite HB.
      assert (H3 : String.length (Filepath.Clean e ++ "/" ++ u)%string >= 3)
        by (apply Hlen; [apply Clean_nonempty | exact Hune]).
      rewrite (string_eqb_false (Filepath.Clean e ++ "/" ++ u)%string "/").
      2:{ intros E. rewrite E in H3. cbn in H3. lia. }
      rewrite (string_eqb_false (Filepath.Clean e ++ "/" ++ u)%string ".").
      2:{ intros E. rewrite E in H3. cbn in H3. lia. }
      now rewrite !string_app_assoc3.
Qed.

(** ** Resolving the inputs *)

(** What [ResolveRPackInputs] makes of an entry of the configuration. *)
Definition resolved_from (d : disk) (execPath : string) (entry : string * string)
    (ri : RPackResolvedInput) : Prop :=
  Name ri = fst entry
  /\ UserPath ri = Filepath.Clean (snd entry)
  /\ relative_local (UserPath ri)
  /\ ResolvedPath ri = below execPath (UserPath ri)
  /\ match Type_ ri with
     | RPackInputTypeDirectory => OS.node_at d (ResolvedPath ri) = Some Directory
     | RPackInputTypeFile => exists content, OS.node_at d (ResolvedPath ri) = Some (File content)
     end.

(** An entry that [ResolveRPackInputs] refuses. *)
Definition unresolvable (d : disk) (execPath : string) (entry : string * string) : Prop :=
  Filepath.IsAbs (Filepath.Clean (snd entry)) = true
  \/ Filepath.IsLocal (Filepath.Clean (snd entry)) = false
  \/ OS.node_at d (below execPath (Filepath.Clean (snd entry))) = None.

Lemma resolve_inputs_spec (d : disk) (execPath : string)
    (configInputs : list (string * string)) :
  forall acc,
    match resolve_inputs d configInputs execPath acc with
    | Ok ris => exists new, ris = acc ++ new
                  /\ Forall2 (resolved_from d execPath) configInputs new
    | Err _ => exists entry, In entry configInputs /\ unresolvable d execPath entry
    end.
Proof.
  induction configInputs as [|[name userPath] rest IH]; intros acc;
    cbn [resolve_inputs].
  - exists []. rewrite app_nil_r. split; [reflexivity | constructor].
  - destruct (Filepath.IsAbs (Filepath.Clean userPath)) eqn:Habs.
    { exists (name, userPath). split; [now left | now left]. }
    destruct (Filepath.IsLocal (Filepath.Clean userPath)) eqn:Hloc; cbn [negb].
    2:{ exists (name, userPath). split; [now left | right; now left]. }
    assert (Hrl : relative_local (Filepath.Clean userPath))
      by (now apply relative_local_Clean).
    destruct (below_eq_Join execPath (Filepath.Clean userPath) Hrl) as [HJ HC].
    rewrite <- HJ, HC. unfold Util.CheckFileOrDirExists, OS.Stat.
    destruct (OS.node_at d (below execPath (Filepath.Clean userPath)))
      as [[content|]|] eqn:Hnode; cbn [IsNotExist].
    + specialize (IH (acc ++ [{| Name := name; UserPath := Filepath.Clean userPath;
                                ResolvedPath := below execPath (Filepath.Clean userPath);
                                Type_ := RPackInputTypeFile |}])).
      destruct (resolve_inputs d rest execPath _) as [ris|err].
      * destruct IH as (new & -> & Hnew). eexists (_ :: new).
        split; [now rewrite <- app_assoc|]. constructor; [|exact Hnew].
        split; [reflexivity|]. split; [reflexivity|]. split; [exact Hrl|].
        split; [reflexivity|]. cbn. eauto.
      * destruct IH as (entry & Hin & Hbad). exists entry. split; [now right | exact Hbad].
    + specialize (IH (acc ++ [{| Name := name; UserPath := Filepath.Clean userPath;
                                ResolvedPath := below execPath (Filepath.Clean userPath);
                                Type_ := RPackInputTypeDirectory |}])).
      destruct (resolve_inputs d rest execPath _) as [ris|err].
      * destruct IH as (new & -> & Hnew). eexists (_ :: new).
        split; [now rewrite <- app_assoc|]. constructor; [|exact Hnew].
        split; [reflexivity|]. split; [reflexivity|]. split; [exact Hrl|].
        split; [reflexivity|]. cbn. eauto.
      * destruct IH as (entry & Hin & Hbad). exists entry. split; [now right | exact Hbad].
    + exists (name, userPath). split; [now left | right; now right].
Qed.

(** X11.  [ResolveRPackInputs], for the entries of the configuration in the
    order in which the loop visits them.  When it succeeds it returns one
    input per entry, in that order: the name of the entry, its cleaned path,
    which is relative and local, that path below the exec path, and the type
    of what the disk holds there.  When it fails, the path of some entry is
    absolute, not local, or absent from the disk. *)
Theorem input_resolution (d : disk) (configInputs : list (string * string))
    (execPath : string) :
  match ResolveRPackInputs d configInputs execPath with
  | Ok resolvedInputs => Forall2 (resolved_from d execPath) configInputs resolvedInputs
  | Err _ => exists entry, In entry configInputs /\ unresolvable d execPath entry
  end.
Proof.
  unfold ResolveRPackInputs.
  pose proof (resolve_inputs_spec d execPath configInputs []) as H.
  destruct (resolve_inputs d configInputs execPath []) as [ris|err]; [|exact H].
  destruct H as (new & -> & Hnew). exact Hnew.
Qed.

Lemma Map_Resolve_handle (rname prefix : string) (inputs : list RPackResolvedInput)
    (name : string) (h : FSHandle) :
  Map_Resolve rname prefix inputs name = Matched (Ok h) ->
  exists ri, In ri inputs
    /\ ((absPath h = ResolvedPath ri /\ indirectTargetPath h = UserPath ri)
        \/ exists next, relative_local next
             /\ absPath h = Filepath.Join [ResolvedPath ri; next]
             /\ indirectTargetPath h = Filepath.Join [UserPath ri; next]).
Proof.
  unfold Map_Resolve.
  destruct (Strings.CutPrefix name prefix) as [suffix [|]]; cbn [negb]; [|discriminate].
  destruct (Filepath.IsAbs (Filepath.Clean suffix)); [discriminate|].
  destruct (Filepath.IsLocal (Filepath.Clean suffix)); cbn [negb]; [|discriminate].
  destruct (Strings.Cut suffix "/") as [[base nextPath] found].
  destruct (find_input inputs base) as [ri|] eqn:Hfind; [|discriminate].
  apply find_input_In in Hfind. destruct Hfind as [Hin _].
  destruct found.
  - destruct (Type_ ri); [discriminate|].
    destruct (Filepath.IsAbs (Filepath.Clean nextPath)) eqn:Habs; [discriminate|].
    destruct (Filepath.IsLocal (Filepath.Clean nextPath)) eqn:Hloc; cbn [negb];
      [|discriminate].
    intros [= <-]. exists ri. split; [exact Hin|]. right.
    exists (Filepath.Clean nextPath). split; [now apply relative_local_Clean|].
    split; reflexivity.
  - intros [= <-]. exists ri. split; [exact Hin|]. left. split; reflexivity.
Qed.

(** X12.  A map path of a resolved input.  The handle that the map resolver
    returns has a clean, relative, local indirect target path, and its
    backing path is the place where a file with that target path is
    committed, [Clean(Join(execPath, indirectTargetPath))]. *)
Theorem mapped_handle_is_at_its_target_path (d : disk)
    (configInputs : list (string * string)) (execPath : string)
    (resolvedInputs : list RPackResolvedInput) (name : string) (h : FSHandle) :
  ResolveRPackInputs d configInputs execPath = Ok resolvedInputs ->
  Map_Resolve MapResolver MapFSResolverPrefix resolvedInputs name = Matched (Ok h) ->
  relative_local (indirectTargetPath h)
  /\ absPath h = moved_to execPath (indirectTargetPath h).
Proof.
  intros Hres Hmap. pose proof (resolve_inputs_spec d execPath configInputs []) as Hspec.
  unfold ResolveRPackInputs in Hres.
  rewrite Hres in Hspec. destruct Hspec as (new & Enew & Hspec).
  cbn [app] in Enew. subst new.
  apply Map_Resolve_handle in Hmap. destruct Hmap as (ri & Hin & Hcases).
  assert (Hri : relative_local (UserPath ri)
                /\ ResolvedPath ri = below execPath (UserPath ri)).
  { clear Hcases Hres. induction Hspec as [|entry x l l' Hx Hl IH]; [destruct Hin|].
    destruct Hin as [->|Hin]; [|now apply IH].
    destruct Hx as (_ & _ & Hrl & Hrp & _). auto. }
  destruct Hri as [Hu HR]. unfold moved_to.
  destruct Hcases as [[Habs Hitp]|(next & Hn & Habs & Hitp)]; rewrite Habs, Hitp.
  - split; [exact Hu|]. rewrite HR.
    destruct (below_eq_Join execPath (UserPath ri) Hu) as [HJ HC]. now rewrite <- HJ, HC.
  - rewrite !Join_below by exact Hn. split; [now apply below_relative_local|].
    rewrite HR, below_assoc by assumption.
    destruct (below_eq_Join execPath (below (UserPath ri) next)) as [HJ HC];
      [now apply below_relative_local|].
    now rewrite <- HJ, HC.
Qed.

Definition inputs_example_disk : disk :=
  list_to_map [("/exec", Directory); ("/exec/data", Directory);
               ("/exec/data/in.txt", File "input")].

Lemma mapped_handle_is_at_its_target_path_witness :
  exists resolvedInputs h,
    ResolveRPackInputs inputs_example_disk [("cfg", "./data/in.txt")] "/exec"
    = Ok resolvedInputs
    /\ Map_Resolve MapResolver MapFSResolverPrefix resolvedInputs "map:cfg"
       = Matched (Ok h)
    /\ relative_local (indirectTargetPath h)
    /\ absPath h = moved_to "/exec" (indirectTargetPath h).
Proof.
  exists [{| Name := "cfg"; UserPath := "data/in.txt";
             ResolvedPath := "/exec/data/in.txt"; Type_ := RPackInputTypeFile |}],
         (NewFileBackedFSHandle "/exec/data/in.txt" "map:cfg" MapResolver "data/in.txt").
  assert (Hr : ResolveRPackInputs inputs_example_disk [("cfg", "./data/in.txt")] "/exec"
               = Ok [{| Name := "cfg"; UserPath := "data/in.txt";
                        ResolvedPath := "/exec/data/in.txt";
                        Type_ := RPackInputTypeFile |}])
    by (vm_compute; reflexivity).
  assert (Hm : Map_Resolve MapResolver MapFSResolverPrefix
                 [{| Name := "cfg"; UserPath := "data/in.txt";
                     ResolvedPath := "/exec/data/in.txt";
                     Type_ := RPackInputTypeFile |}] "map:cfg"
               = Matched (Ok (NewFileBackedFSHandle "/exec/data/in.txt" "map:cfg"
                                MapResolver "data/in.txt")))
    by (vm_compute; reflexivity).
  split; [exact Hr|]. split; [exact Hm|].
  exact (mapped_handle_is_at_its_target_path inputs_example_disk
           [("cfg", "./data/in.txt")] "/exec" _ "map:cfg" _ Hr Hm).
Defined.

(** ** Cutting strings *)

Lemma has_prefix_split (s p : bytes) :
  Strings.has_prefix s p = true -> s = p ++ drop (length p) s.
Proof.
  revert s. induction p as [|c p IH]; intros s H; [reflexivity|].
  destruct s as [|x s]; [discriminate|]. cbn [Strings.has_prefix] in H.
  apply andb_true_iff in H. destruct H as [Hc Hp].
  apply CleanPaths.ascii_eqb_eq in Hc. subst x. cbn [length drop app].
  f_equal. now apply IH.
Qed.

(** What [strings.Cut] finds is in the string. *)
Lemma cut_Some (s sep b a : bytes) :
  Strings.cut s sep = Some (b, a) -> s = b ++ sep ++ a.
Proof.
  revert b a. induction s as [|c s IH]; intros b a.
  - cbn [Strings.cut]. destruct (Strings.has_prefix [] sep) eqn:Hp.
    + intros [= <- <-]. now apply has_prefix_split in Hp.
    + discriminate.
  - rewrite cut_cons. destruct (Strings.has_prefix (c :: s) sep) eqn:Hp.
    + intros [= <- <-]. now apply has_prefix_split in Hp.
    + destruct (Strings.cut s sep) as [[b' a']|]; [|discriminate].
      intros [= <- <-]. cbn [app]. f_equal. now apply IH.
Qed.

(** The first occurrence of a byte. *)
Lemma cut_byte (c : ascii) (l rest : bytes) :
  Strings.cut l [c] = None ->
  Strings.cut (l ++ c :: rest) [c] = Some (l, rest).
Proof.
  induction l as [|x l IH]; intros Hl.
  - cbn [app Strings.cut Strings.has_prefix]. unfold ascii_eqb.
    now rewrite Ascii.eqb_refl.
  - apply cut_none_cons in Hl. destruct Hl as [Hp Hl]. specialize (IH Hl).
    change ((x :: l) ++ c :: rest) with (x :: (l ++ c :: rest)).
    rewrite cut_cons, IH.
    assert (Hq : Strings.has_prefix (x :: l ++ c :: rest) [c] = false)
      by (cbn [Strings.has_prefix] in *; exact Hp).
    now rewrite Hq.
Qed.

(** ** [filepath.location] and the resolvers *)

Definition colon : ascii := ":"%char.

(** A name that starts with [loc:], for a [loc] without colon, is cut
    there. *)
Lemma Cut_at_prefix (name loc : string) :
  Strings.cut (s2b loc) [colon] = None ->
  Strings.HasPrefix name (loc ++ ":") = true ->
  exists rest, Strings.Cut name ":" = (loc, rest, true)
               /\ Strings.CutPrefix name (loc ++ ":") = (rest, true).
Proof.
  intros Hloc. unfold Strings.Cut, Strings.CutPrefix, Strings.HasPrefix.
  rewrite s2b_app. change (s2b ":") with [colon].
  intros Hp. rewrite Hp. pose proof (has_prefix_split _ _ Hp) as Hs.
  rewrite length_app in Hs. cbn [length] in Hs.
  rewrite <- app_assoc in Hs. cbn [app] in Hs.
  exists (b2s (drop (length (s2b loc) + 1) (s2b name))).
  rewrite Hs at 1. rewrite (cut_byte colon _ _ Hloc). rewrite b2s_s2b.
  rewrite length_app. cbn [length]. auto.
Qed.

Lemma prefix_of_Cut (name loc rest : string) :
  Strings.Cut name ":" = (loc, rest, true) ->
  Strings.HasPrefix name (loc ++ ":") = true.
Proof.
  unfold Strings.Cut, Strings.HasPrefix. rewrite s2b_app. change (s2b ":") with [colon].
  destruct (Strings.cut (s2b name) [colon]) as [[b a]|] eqn:E; [|discriminate].
  intros [= Hb Ha]. apply cut_Some in E. rewrite E.
  assert (b = s2b loc) by (rewrite <- Hb; now rewrite s2b_b2s). subst b.
  rewrite app_assoc. apply has_prefix_app.
Qed.

Lemma FileBacked_Resolve_match (rname prefix baseDir name : string) :
  FileBacked_Resolve rname prefix baseDir name
  = if Strings.HasPrefix name prefix
    then Matched (match FileBacked_Resolve rname prefix baseDir name with
                  | Matched r => r
                  | NoMatch => Err (Errorf "Could not resolve filename %q" [name])
                  end)
    else NoMatch.
Proof.
  unfold FileBacked_Resolve, Strings.CutPrefix.
  destruct (Strings.HasPrefix name prefix); cbn [negb]; [|reflexivity].
  destruct (Filepath.IsAbs _); [reflexivity|].
  destruct (negb (Filepath.IsLocal _)); reflexivity.
Qed.

Lemma Map_Resolve_match (rname prefix : string) (inputs : list RPackResolvedInput)
    (name : string) :
  Map_Resolve rname prefix inputs name
  = if Strings.HasPrefix name prefix
    then Matched (match Map_Resolve rname prefix inputs name with
                  | Matched r => r
                  | NoMatch => Err (Errorf "Could not resolve filename %q" [name])
                  end)
    else NoMatch.
Proof.
  unfold Map_Resolve, Strings.CutPrefix.
  destruct (Strings.HasPrefix name prefix); cbn [negb]; [|reflexivity].
  destruct (Filepath.IsAbs _); [reflexivity|].
  destruct (negb (Filepath.IsLocal _)); [reflexivity|].
  destruct (Strings.Cut _ "/") as [[base nextPath] found].
  destruct (find_input inputs base) as [ri|]; [|reflexivity].
  destruct found; [|reflexivity]. destruct (Type_ ri); [reflexivity|].
  destruct (Filepath.IsAbs _); [reflexivity|].
  destruct (negb (Filepath.IsLocal _)); reflexivity.
Qed.

(** The resolvers of the pack filesystem, tried in order: the first whose
    prefix leads the name decides. *)
Lemma resolve_by_prefix enforcePure src run tmp exec inputs name :
  resolve (BaseFS_ (NewRPackFS enforcePure src run tmp exec inputs)) name
  = match
      (if Strings.HasPrefix name "rpack:" then
         FileBacked_Resolve RPackResolver "rpack:" src name
       else if Strings.HasPrefix name "temp:" then
         FileBacked_Resolve TempResolver "temp:" tmp name
       else if Strings.HasPrefix name "map:" then
         Map_Resolve MapResolver MapFSResolverPrefix inputs name
       else FileBacked_Resolve TargetResolver "" run name)
    with
    | Matched r => r
    | NoMatch => Err (Errorf "Could not resolve filename %q" [name])
    end.
Proof.
  unfold resolve. cbn [NewRPackFS BaseFS_ Resolvers resolve_in Resolve].
  rewrite (FileBacked_Resolve_match RPackResolver "rpack:").
  destruct (Strings.HasPrefix name "rpack:"); [reflexivity|].
  rewrite (FileBacked_Resolve_match TempResolver "temp:").
  destruct (Strings.HasPrefix name "temp:"); [reflexivity|].
  rewrite (Map_Resolve_match MapResolver MapFSResolverPrefix).
  change MapFSResolverPrefix with "map:".
  destruct (Strings.HasPrefix name "map:"); [reflexivity|].
  destruct (FileBacked_Resolve TargetResolver "" run name); reflexivity.
Qed.

Definition known_location (loc : string) : bool :=
  String.eqb loc RPackResolver || String.eqb loc TempResolver || String.eqb loc MapResolver.

(** X13.  [filepath.location] agrees with the resolvers.  For a name that
    resolves: if the location is [rpack], [temp] or [map], the handle is of
    that resolver and the second result is the name without the prefix; for
    any other location the handle is of the target resolver, with the whole
    cleaned name as its path.  A name without a colon has the location
    [target] and itself as path. *)
Theorem location_names_the_resolver enforcePure src run tmp exec inputs
    (name : string) (h : FSHandle) :
  resolve (BaseFS_ (NewRPackFS enforcePure src run tmp exec inputs)) name = Ok h ->
  (known_location (fst (luaFilepathLocation name)) = true ->
     resolver h = fst (luaFilepathLocation name)
     /\ Strings.CutPrefix name (fst (luaFilepathLocation name) ++ ":")
        = (snd (luaFilepathLocation name), true))
  /\ (known_location (fst (luaFilepathLocation name)) = false ->
      resolver h = TargetResolver /\ indirectTargetPath h = Filepath.Clean name)
  /\ (Strings.Contains name ":" = false ->
      luaFilepathLocation name = (TargetResolver, name)).
Proof.
  rewrite resolve_by_prefix. intros Hres.
  assert (Hk : forall loc r,
            Strings.cut (s2b loc) [colon] = None ->
            Strings.HasPrefix name (loc ++ ":") = true ->
            (match r with
             | Matched r => r
             | NoMatch => Err (Errorf "Could not resolve filename %q" [name])
             end) = Ok h ->
            (forall h', r = Matched (Ok h') -> resolver h' = loc) ->
            resolver h = loc
            /\ luaFilepathLocation name
               = (loc, fst (Strings.CutPrefix name (loc ++ ":")))
            /\ snd (Strings.CutPrefix name (loc ++ ":")) = true
            /\ Strings.Contains name ":" = true).
  { intros loc r Hloc Hp Hr Hrn.
    destruct (Cut_at_prefix name loc Hloc Hp) as (rest & Hcut & Hcp).
    split; [|split; [|split]].
    - destruct r as [|[h'|e]]; try discriminate. injection Hr as ->. now apply Hrn.
    - unfold luaFilepathLocation. now rewrite Hcut, Hcp.
    - now rewrite Hcp.
    - unfold Strings.Contains. unfold Strings.Cut in Hcut.
      destruct (Strings.cut (s2b name) (s2b ":")); [reflexivity | discriminate]. }
  assert (Hfin : forall loc,
            known_location loc = true ->
            resolver h = loc
            /\ luaFilepathLocation name
               = (loc, fst (Strings.CutPrefix name (loc ++ ":")))
            /\ snd (Strings.CutPrefix name (loc ++ ":")) = true
            /\ Strings.Contains name ":" = true ->
            (known_location (fst (luaFilepathLocation name)) = true ->
               resolver h = fst (luaFilepathLocation name)
               /\ Strings.CutPrefix name (fst (luaFilepathLocation name) ++ ":")
                  = (snd (luaFilepathLocation name), true))
            /\ (known_location (fst (luaFilepathLocation name)) = false ->
                resolver h = TargetResolver /\ indirectTargetPath h = Filepath.Clean name)
            /\ (Strings.Contains name ":" = false ->
                luaFilepathLocation name = (TargetResolver, name))).
  { intros loc Hknown (Hr & Hl & Hcp & Hc). rewrite Hl. cbn [fst snd].
    split; [|split].
    - intros _. split; [exact Hr|].
      destruct (Strings.CutPrefix name (loc ++ ":")) as [x y]. cbn in *. now subst y.
    - congruence.
    - congruence. }
  destruct (Strings.HasPrefix name "rpack:") eqn:E1.
  { apply (Hfin "rpack" eq_refl). apply (Hk "rpack" _ eq_refl E1 Hres).
    intros h' Hh'. now apply (Resolve_resolver (NewFileBackedFSResolver _ _ _)) in Hh'. }
  destruct (Strings.HasPrefix name "temp:") eqn:E2.
  { apply (Hfin "temp" eq_refl). apply (Hk "temp" _ eq_refl E2 Hres).
    intros h' Hh'. now apply (Resolve_resolver (NewFileBackedFSResolver _ _ _)) in Hh'. }
  destruct (Strings.HasPrefix name "map:") eqn:E3.
  { apply (Hfin "map" eq_refl). apply (Hk "map" _ eq_refl E3 Hres).
    intros h' Hh'. now apply (Resolve_resolver (NewMapFSResolver _ _ _)) in Hh'. }
  clear Hk Hfin.
  assert (Hnk : known_location (fst (luaFilepathLocation name)) = false).
  { unfold luaFilepathLocation.
    destruct (Strings.Cut name ":") as [[before after] found] eqn:Hcut.
    destruct found; [|reflexivity]. cbn [fst].
    apply prefix_of_Cut in Hcut. unfold known_location.
    apply orb_false_iff. split; [apply orb_false_iff; split|];
      apply String.eqb_neq; intros ->;
      cbv [RPackResolver TempResolver MapResolver append] in Hcut; congruence. }
  rewrite Hnk. split; [discriminate|]. split.
  - intros _.
    destruct (FileBacked_Resolve TargetResolver "" run name) as [|r] eqn:E4;
      [discriminate|].
    subst r. pose proof E4 as E5.
    apply (Resolve_resolver (NewFileBackedFSResolver _ _ _)) in E5.
    split; [exact E5|].
    unfold FileBacked_Resolve in E4.
    change name with ("" ++ name)%string in E4 at 1. rewrite CutPrefix_app in E4.
    cbn [negb] in E4.
    destruct (Filepath.IsAbs (Filepath.Clean name)); [discriminate|].
    destruct (Filepath.IsLocal (Filepath.Clean name)); cbn [negb] in E4; [|discriminate].
    now injection E4 as <-.
  - unfold Strings.Contains, luaFilepathLocation, Strings.Cut.
    destruct (Strings.cut (s2b name) (s2b ":")) as [[b a]|]; [discriminate|].
    reflexivity.
Qed.

Lemma location_names_the_resolver_witness :
  resolve (BaseFS_ line_example_fs) "temp:notes.txt"
  = Ok (NewFileBackedFSHandle "/tmp/notes.txt" "temp:notes.txt" TempResolver "notes.txt")
  /\ luaFilepathLocation "temp:notes.txt" = ("temp", "notes.txt")
  /\ Strings.CutPrefix "temp:notes.txt" (fst (luaFilepathLocation "temp:notes.txt") ++ ":")
     = (snd (luaFilepathLocation "temp:notes.txt"), true).
Proof.
  assert (Hres : resolve (BaseFS_ (NewRPackFS true "/src" "/run" "/tmp" "/exec" []))
                   "temp:notes.txt"
                 = Ok (NewFileBackedFSHandle "/tmp/notes.txt" "temp:notes.txt"
                         TempResolver "notes.txt")) by (vm_compute; reflexivity).
  split; [exact Hres|]. split; [vm_compute; reflexivity|].
  destruct (location_names_the_resolver true "/src" "/run" "/tmp" "/exec" []
              "temp:notes.txt" _ Hres) as [Hknown _].
  exact (proj2 (Hknown eq_refl)).
Defined.

(** ** The [filepath] module of the script library *)

Lemma IsLocal_not_abs (q : string) : Filepath.IsLocal q = true -> Filepath.IsAbs q = false.
Proof.
  unfold Filepath.IsLocal, Filepath.is_local, Filepath.IsAbs, Strings.HasPrefix.
  destruct (s2b q) as [|c r]; [discriminate|].
  change (s2b "/") with [Filepath.Separator]. cbn [Strings.has_prefix].
  rewrite ascii_eqb_sym. fold (Filepath.IsPathSeparator c).
  destruct (Filepath.IsPathSeparator c); [discriminate | reflexivity].
Qed.

(** X14.  [filepath.is_local] of the cleaned remainder decides whether a
    file-backed resolver accepts a name with its prefix: it returns a handle
    exactly when [is_local(clean(rem))] holds. *)
Theorem is_local_predicts_resolution (rname prefix baseDir rem : string) :
  luaFilepathIsLocal (luaFilepathClean rem) = true
  <-> exists h, FileBacked_Resolve rname prefix baseDir (prefix ++ rem) = Matched (Ok h).
Proof.
  unfold luaFilepathIsLocal, luaFilepathClean, FileBacked_Resolve.
  rewrite CutPrefix_app. cbn [negb]. split.
  - intros Hloc. rewrite (IsLocal_not_abs _ Hloc), Hloc. cbn [negb]. eauto.
  - intros [h Hh]. destruct (Filepath.IsAbs (Filepath.Clean rem)); [discriminate|].
    destruct (Filepath.IsLocal (Filepath.Clean rem)); [reflexivity | discriminate].
Qed.

(** X15.  [filepath.clean] is idempotent, and its result is never empty. *)
Theorem lua_clean_idempotent (path : string) :
  luaFilepathClean (luaFilepathClean path) = luaFilepathClean path
  /\ luaFilepathClean path <> "".
Proof.
  unfold luaFilepathClean. split; [apply CleanPaths.Clean_idempotent | apply Clean_nonempty].
Qed.

(** X16.  [filepath.join] of two clean, relative, local paths is again clean,
    relative and local; it is the second path below the first, and, when
    neither is [.], the two with a slash in between. *)
Theorem lua_join_of_local_paths (first second : string) :
  relative_local first -> relative_local second ->
  luaFilepathJoin first second [] = below first second
  /\ relative_local (luaFilepathJoin first second [])
  /\ (first <> "." -> second <> "." ->
      luaFilepathJoin first second [] = (first ++ "/" ++ second)%string).
Proof.
  intros H1 H2. unfold luaFilepathJoin. cbn [app].
  rewrite Join_below by exact H2. split; [reflexivity|].
  split; [now apply below_relative_local|].
  intros Hd1 Hd2. now apply below_local.
Qed.

Lemma lua_join_of_local_paths_witness :
  relative_local "a/b" /\ relative_local "c"
  /\ luaFilepathJoin "a/b" "c" [] = "a/b/c".
Proof.
  assert (H1 : relative_local "a/b") by (repeat split; vm_compute; reflexivity).
  assert (H2 : relative_local "c") by (repeat split; vm_compute; reflexivity).
  split; [exact H1|]. split; [exact H2|].
  destruct (lua_join_of_local_paths "a/b" "c" H1 H2) as (_ & _ & H).
  apply H; discriminate.
Defined.

Lemma split_rev (r : bytes) :
  forall acc,
    rev (Filepath.drop_last_elem r) ++ Filepath.take_last_elem r acc = rev r ++ acc.
Proof.
  induction r as [|c r IH]; intros acc; cbn [Filepath.drop_last_elem Filepath.take_last_elem].
  - reflexivity.
  - destruct (Filepath.IsPathSeparator c); [reflexivity|].
    rewrite IH. cbn [rev]. now rewrite <- app_assoc.
Qed.

Lemma take_last_elem_no_sep (r : bytes) :
  forall acc, CleanPaths.no_sep acc -> CleanPaths.no_sep (Filepath.take_last_elem r acc).
Proof.
  induction r as [|c r IH]; intros acc Hacc; cbn [Filepath.take_last_elem]; [exact Hacc|].
  destruct (Filepath.IsPathSeparator c) eqn:Ec; [exact Hacc|].
  apply IH. constructor; assumption.
Qed.

Lemma drop_last_elem_sep (r : bytes) :
  Filepath.drop_last_elem r = []
  \/ exists t, Filepath.drop_last_elem r = Filepath.Separator :: t.
Proof.
  induction r as [|c r IH]; cbn [Filepath.drop_last_elem]; [now left|].
  destruct (Filepath.IsPathSeparator c) eqn:Ec; [|exact IH].
  right. apply CleanPaths.IsPathSeparator_true in Ec. subst c. eauto.
Qed.

(** X17.  [filepath.split] cuts a path after its last slash: the two parts put
    together are the path, the file part holds no slash, the directory part
    is empty or ends in a slash, and [filepath.dir] is the cleaned directory
    part. *)
Theorem lua_split_parts (path : string) :
  (fst (luaFilepathSplit path) ++ snd (luaFilepathSplit path))%string = path
  /\ Strings.Contains (snd (luaFilepathSplit path)) "/" = false
  /\ (fst (luaFilepathSplit path) = ""
      \/ Strings.HasSuffix (fst (luaFilepathSplit path)) "/" = true)
  /\ luaFilepathDir path = luaFilepathClean (fst (luaFilepathSplit path)).
Proof.
  unfold luaFilepathSplit, Filepath.Split, luaFilepathDir, luaFilepathClean.
  cbn [fst snd]. split; [|split; [|split]].
  - apply s2b_inj. rewrite s2b_app, !s2b_b2s, split_rev.
    now rewrite app_nil_r, rev_involutive.
  - unfold Strings.Contains. rewrite s2b_b2s. change (s2b "/") with [Filepath.Separator].
    pose proof (take_last_elem_no_sep (rev (s2b path)) [] (List.Forall_nil _)) as H.
    apply no_sep_cut in H. now rewrite H.
  - destruct (drop_last_elem_sep (rev (s2b path))) as [E|[t E]]; rewrite E.
    + now left.
    + right. unfold Strings.HasSuffix. rewrite s2b_b2s, rev_involutive.
      change (rev (s2b "/")) with [Filepath.Separator]. cbn [Strings.has_prefix].
      unfold ascii_eqb. now rewrite Ascii.eqb_refl.
  - unfold Filepath.Dir, Filepath.Clean. now rewrite s2b_b2s.
Qed.

(** ** Mapped inputs after validation *)

Lemma find_input_unique (inputs : list RPackResolvedInput) (ri : RPackResolvedInput) :
  NoDup (map Name inputs) -> In ri inputs -> find_input inputs (Name ri) = Some ri.
Proof.
  induction inputs as [|x l IH]; intros Hnd Hin; [destruct Hin|].
  cbn [map] in Hnd. apply NoDup_cons in Hnd. destruct Hnd as [Hx Hnd].
  cbn [find_input]. destruct Hin as [->|Hin].
  - now rewrite String.eqb_refl.
  - destruct (String.eqb (Name x) (Name ri)) eqn:E.
    + apply String.eqb_eq in E. exfalso. apply Hx. rewrite E.
      apply list_elem_of_In. now apply in_map.
    + now apply IH.
Qed.

Lemma path_element_relative_local (e : string) : path_element e -> relative_local e.
Proof.
  intros He. apply lexically_local_relative_local. right. exists [e].
  split; [discriminate|]. split; [now constructor | reflexivity].
Qed.

(** X18.  After [ValidateRPackInputs] has accepted the inputs, the map path of
    every input whose name is a single path element resolves, and to that
    input: the handle has the resolved path of the input as backing path and
    its user path as indirect target path. *)
Theorem validated_input_resolves (resolvedInputs : list RPackResolvedInput)
    (defInputs : list RPackDefInput) (ri : RPackResolvedInput) :
  ValidateRPackInputs resolvedInputs defInputs = None ->
  In ri resolvedInputs ->
  path_element (Name ri) ->
  Map_Resolve MapResolver MapFSResolverPrefix resolvedInputs
    (MapFSResolverPrefix ++ Name ri)
  = Matched (Ok (NewFileBackedFSHandle (ResolvedPath ri)
                   (MapFSResolverPrefix ++ Name ri) MapResolver (UserPath ri))).
Proof.
  intros Hval Hin Hname.
  assert (Hnd : NoDup (map Name resolvedInputs)).
  { unfold ValidateRPackInputs in Hval.
    pose proof (visit_names_spec (map Name resolvedInputs) ∅) as H1.
    destruct (visit_names (map Name resolvedInputs) ∅); [discriminate|].
    now apply H1. }
  destruct (path_element_relative_local _ Hname) as (Hc & Habs & Hloc).
  unfold Map_Resolve. rewrite CutPrefix_app. cbn [negb].
  rewrite Hc, Habs, Hloc. cbn [negb].
  assert (Hcut : Strings.Cut (Name ri) "/" = (Name ri, "", false)).
  { destruct Hname as (_ & _ & _ & Hns). unfold Strings.Contains in Hns.
    unfold Strings.Cut. destruct (Strings.cut (s2b (Name ri)) (s2b "/")); [discriminate|].
    reflexivity. }
  rewrite Hcut. now rewrite find_input_unique.
Qed.

Lemma validated_input_resolves_witness :
  ValidateRPackInputs
    [{| Name := "cfg"; UserPath := "data/in.txt"; ResolvedPath := "/exec/data/in.txt";
        Type_ := RPackInputTypeFile |}]
    [{| def_Type := RPackDefInputTypeFile; def_Name := "cfg" |}] = None
  /\ Map_Resolve MapResolver MapFSResolverPrefix
       [{| Name := "cfg"; UserPath := "data/in.txt"; ResolvedPath := "/exec/data/in.txt";
           Type_ := RPackInputTypeFile |}] "map:cfg"
     = Matched (Ok (NewFileBackedFSHandle "/exec/data/in.txt" "map:cfg" MapResolver
                      "data/in.txt")).
Proof.
  assert (Hv : ValidateRPackInputs
                 [{| Name := "cfg"; UserPath := "data/in.txt";
                     ResolvedPath := "/exec/data/in.txt"; Type_ := RPackInputTypeFile |}]
                 [{| def_Type := RPackDefInputTypeFile; def_Name := "cfg" |}] = None)
    by (vm_compute; reflexivity).
  split; [exact Hv|].
  apply (validated_input_resolves _ _
           {| Name := "cfg"; UserPath := "data/in.txt";
              ResolvedPath := "/exec/data/in.txt"; Type_ := RPackInputTypeFile |} Hv).
  - now left.
  - repeat split; discriminate.
Defined.

(** ** Listing a directory *)

(** No error of the filesystem is the one for a path that is no
    directory. *)
Definition other_error (e : error) : bool :=
  match e with
  | Errorf format _ => negb (String.eqb format "Path is not a directory: %s")
  | _ => true
  end.

Lemma Resolve_other_error (r : FSResolver) (name : string) (e : error) :
  Resolve r name = Matched (Err e) -> other_error e = true.
Proof.
  destruct r as [rname prefix baseDir | rname prefix inputs]; cbn [Resolve].
  - unfold FileBacked_Resolve.
    destruct (Strings.CutPrefix name prefix) as [suffix [|]]; cbn [negb]; [|discriminate].
    destruct (Filepath.IsAbs _); [now intros [= <-]|].
    destruct (Filepath.IsLocal _); cbn [negb]; [discriminate | now intros [= <-]].
  - unfold Map_Resolve.
    destruct (Strings.CutPrefix name prefix) as [suffix [|]]; cbn [negb]; [|discriminate].
    destruct (Filepath.IsAbs _); [now intros [= <-]|].
    destruct (Filepath.IsLocal _); cbn [negb]; [|now intros [= <-]].
    destruct (Strings.Cut suffix "/") as [[base nextPath] found].
    destruct (find_input inputs base) as [ri|]; [|now intros [= <-]].
    destruct found; [|discriminate].
    destruct (Type_ ri); [now intros [= <-]|].
    destruct (Filepath.IsAbs _); [now intros [= <-]|].
    destruct (Filepath.IsLocal _); cbn [negb]; [discriminate | now intros [= <-]].
Qed.

Lemma resolve_other_error (rs : list FSResolver) (name : string) (e : error) :
  resolve_in rs name = Err e -> other_error e = true.
Proof.
  induction rs as [|r rs IH]; cbn [resolve_in]; [now intros [= <-]|].
  destruct (Resolve r name) as [|res] eqn:E; [exact IH|].
  intros ->. now apply Resolve_other_error in E.
Qed.

Lemma hook_call_other_error typ hook h e :
  snd (hook_call typ hook h) = Some e -> other_error e = true.
Proof.
  destruct hook as [|f|f]; cbn [hook_call snd].
  - destruct typ; cbv [RPackAccessControlFSHook.Read RPackAccessControlFSHook.Write
                       RPackAccessControlFSHook.Stat RPackAccessControlFSHook.ReadDir];
      repeat (match goal with |- context [if ?b then _ else _] => destruct b end);
      intros [= <-]; reflexivity.
  - destruct (Pure.call typ f h) as [f' e'] eqn:E. cbn [snd]. intros ->.
    destruct typ; cbv [Pure.call Pure.Read Pure.Write Pure.Stat Pure.ReadDir] in E;
      repeat (match type of E with context [if ?b then _ else _] => destruct b end);
      destruct f; injection E as _ E; try discriminate; now subst.
  - discriminate.
Qed.

Lemma run_hooks_other_error typ hooks h e :
  snd (run_hooks typ hooks h) = Some e -> other_error e = true.
Proof.
  induction hooks as [|hook hooks IH]; cbn [run_hooks]; [discriminate|].
  pose proof (hook_call_other_error typ hook h) as Hc.
  destruct (hook_call typ hook h) as [hook' [e'|]]; cbn [snd] in *.
  - intros [= <-]. now apply Hc.
  - destruct (run_hooks typ hooks h) as [rest' e']. cbn [snd] in *. exact IH.
Qed.

Lemma stat_children_other_error handles :
  forall hooks e, snd (Base.stat_children hooks handles) = Err e -> other_error e = true.
Proof.
  induction handles as [|h handles IH]; intros hooks e; cbn [Base.stat_children];
    [discriminate|].
  pose proof (run_hooks_other_error FSAccessTypeStat hooks h) as H1.
  destruct (run_hooks FSAccessTypeStat hooks h) as [hooks1 [e1|]]; cbn [snd] in *.
  - intros [= <-]. now apply H1.
  - specialize (IH hooks1).
    destruct (Base.stat_children hooks1 handles) as [hooks2 [names|e2]]; cbn [snd] in *;
      [discriminate|].
    intros [= <-]. now apply IH.
Qed.

(** X19.  [BaseFS.ReadDir] never fails with the error for a path that is no
    directory: it reads the two results of the [Stat] of the handle as
    (exists, dir), so a regular file that the hooks admit is reported as a
    path that does not exist. *)
Theorem ReadDir_never_reports_a_file (fs : BaseFS) (d : disk) (name : string) :
  (forall e, snd (Base.ReadDir fs d name) = Err e -> other_error e = true)
  /\ (forall h content,
        resolve fs name = Ok h ->
        snd (run_hooks FSAccessTypeStat (Hooks fs) h) = None ->
        OS.node_at d (absPath h) = Some (File content) ->
        snd (Base.ReadDir fs d name) = Err (Errorf "Path does not exist: %s" [name])).
Proof.
  split.
  - intros e. unfold Base.ReadDir.
    destruct (resolve fs name) as [h|e0] eqn:Hres.
    2:{ cbn [snd]. intros [= <-]. now apply resolve_other_error in Hres. }
    pose proof (run_hooks_other_error FSAccessTypeStat (Hooks fs) h) as H1.
    destruct (run_hooks FSAccessTypeStat (Hooks fs) h) as [hooks [e1|]]; cbn [snd] in *.
    { intros [= <-]. now apply H1. }
    unfold Handle_Stat, OS.Stat.
    destruct (OS.node_at d (absPath h)) as [[c|]|]; cbn [IsNotExist negb snd].
    + intros [= <-]. reflexivity.
    + pose proof (run_hooks_other_error FSAccessTypeReadDir hooks h) as H2.
      destruct (run_hooks FSAccessTypeReadDir hooks h) as [hooks1 [e2|]]; cbn [snd] in *.
      { intros [= <-]. now apply H2. }
      unfold Handle_ReadDir.
      destruct (OS.ReadDir d (absPath h)) as [entries|e3]; cbn [snd].
      2:{ intros [= <-]. reflexivity. }
      match goal with |- context [Base.stat_children hooks1 ?l] =>
        pose proof (stat_children_other_error l hooks1) as H3;
        destruct (Base.stat_children hooks1 l) as [hooks2 [namesFile|e4]] end;
        cbn [snd] in *.
      2:{ intros [= <-]. now apply H3. }
      match goal with |- context [Base.stat_children hooks2 ?l] =>
        pose proof (stat_children_other_error l hooks2) as H4;
        destruct (Base.stat_children hooks2 l) as [hooks3 [namesDir|e5]] end;
        cbn [snd] in *; [discriminate|].
      intros [= <-]. now apply H4.
    + intros [= <-]. reflexivity.
  - intros h content Hres Hhooks Hnode. unfold Base.ReadDir. rewrite Hres.
    destruct (run_hooks FSAccessTypeStat (Hooks fs) h) as [hooks [e1|]]; cbn [snd] in *;
      [discriminate|].
    unfold Handle_Stat, OS.Stat. rewrite Hnode. reflexivity.
Qed.

(** The source directory of the pack holds the file [a.txt]. *)
Definition copy_example_disk : disk :=
  list_to_map [("/cache", Directory); ("/cache/src", Directory);
               ("/cache/src/a.txt", File "hello")].

Lemma ReadDir_never_reports_a_file_witness :
  OS.node_at copy_example_disk "/cache/src/a.txt" = Some (File "hello")
  /\ snd (Base.ReadDir (BaseFS_ (initial_fs commit_example_pi)) copy_example_disk
            "rpack:a.txt")
     = Err (Errorf "Path does not exist: %s" ["rpack:a.txt"]).
Proof.
  assert (Hn : OS.node_at copy_example_disk "/cache/src/a.txt" = Some (File "hello"))
    by (vm_compute; reflexivity).
  split; [exact Hn|].
  apply (proj2 (ReadDir_never_reports_a_file (BaseFS_ (initial_fs commit_example_pi))
                  copy_example_disk "rpack:a.txt")
           (NewFileBackedFSHandle "/cache/src/a.txt" "rpack:a.txt" RPackResolver "a.txt")
           "hello").
  - vm_compute. reflexivity.
  - vm_compute. reflexivity.
  - exact Hn.
Defined.

(** ** Reading lines and writing them back *)

(** The bytes of [strings.Join]. *)
Fixpoint joined (l : list bytes) (sep : bytes) : bytes :=
  match l with
  | [] => []
  | [e] => e
  | e :: rest => e ++ sep ++ joined rest sep
  end.

Lemma s2b_Join (l : list bytes) (sep : string) :
  s2b (Strings.Join (map b2s l) sep) = joined l (s2b sep).
Proof.
  induction l as [|e l IH]; [reflexivity|].
  destruct l as [|e' l].
  - cbn. apply s2b_b2s.
  - change (Strings.Join (map b2s (e :: e' :: l)) sep)
      with (b2s e ++ sep ++ Strings.Join (map b2s (e' :: l)) sep)%string.
    rewrite !s2b_app, s2b_b2s, IH. reflexivity.
Qed.

Lemma split_nonempty (fuel : nat) (s sep : bytes) : Strings.split fuel s sep <> [].
Proof.
  destruct fuel; cbn [Strings.split]; [discriminate|].
  destruct (Strings.cut s sep) as [[b a]|]; discriminate.
Qed.

Lemma cut_length (s sep b a : bytes) :
  Strings.cut s sep = Some (b, a) -> length s = length b + length sep + length a.
Proof.
  intros H. apply cut_Some in H. subst s. rewrite !length_app. lia.
Qed.

(** Joining what was split gives the string back. *)
Lemma joined_split (sep : bytes) (fuel : nat) :
  forall s, joined (Strings.split fuel s sep) sep = s.
Proof.
  induction fuel as [|fuel IH]; intros s; cbn [Strings.split]; [reflexivity|].
  destruct (Strings.cut s sep) as [[b a]|] eqn:E; [|reflexivity].
  apply cut_Some in E. specialize (IH a).
  pose proof (split_nonempty fuel a sep) as Hne.
  destruct (Strings.split fuel a sep) as [|x l]; [congruence|].
  change (joined (b :: x :: l) sep) with (b ++ sep ++ joined (x :: l) sep).
  now rewrite IH.
Qed.

Lemma cut_found (sep x y : bytes) : Strings.cut (x ++ sep ++ y) sep <> None.
Proof.
  induction x as [|c x IH].
  - cbn [app]. destruct (sep ++ y) as [|c r] eqn:E.
    + cbn [Strings.cut]. apply app_eq_nil in E. destruct E as [-> _]. discriminate.
    + rewrite cut_cons. rewrite <- E. rewrite has_prefix_app. discriminate.
  - change ((c :: x) ++ sep ++ y) with (c :: (x ++ sep ++ y)). rewrite cut_cons.
    destruct (Strings.has_prefix (c :: x ++ sep ++ y) sep); [discriminate|].
    destruct (Strings.cut (x ++ sep ++ y) sep) as [[b a]|]; [discriminate | congruence].
Qed.

Lemma ends_with (s sep : bytes) :
  Strings.has_prefix (rev s) (rev sep) = true -> exists x, s = x ++ sep.
Proof.
  intros H. apply has_prefix_split in H.
  exists (rev (drop (length (rev sep)) (rev s))).
  rewrite <- (rev_involutive s) at 1. rewrite H at 1.
  now rewrite rev_app_distr, rev_involutive.
Qed.

(** A string that ends with a line separator splits into lines of which the
    last is empty. *)
Lemma split_last_empty (sep : bytes) :
  sep = [nl] \/ sep = [cr; nl] ->
  forall fuel s,
    length s <= fuel ->
    Strings.has_prefix (rev s) (rev sep) = true ->
    List.last (Strings.split fuel s sep) [nl] = [].
Proof.
  intros Hsep. induction fuel as [|fuel IH]; intros s Hlen Hend.
  - destruct s; [|cbn in Hlen; lia]. destruct Hsep; subst sep; discriminate Hend.
  - cbn [Strings.split].
    destruct (Strings.cut s sep) as [[b a]|] eqn:E.
    2:{ exfalso. destruct (ends_with s sep Hend) as [x ->].
        apply (cut_found sep x []). now rewrite app_nil_r. }
    pose proof (cut_length _ _ _ _ E) as Hl. apply cut_Some in E.
    pose proof (split_nonempty fuel a sep) as Hne.
    destruct (Strings.split fuel a sep) as [|y l] eqn:Es; [congruence|].
    change (List.last (b :: y :: l) [nl]) with (List.last (y :: l) [nl]).
    rewrite <- Es.
    destruct a as [|a0 a'].
    + destruct fuel; cbn [Strings.split]; [reflexivity|].
      destruct Hsep; subst sep; reflexivity.
    + apply IH.
      * assert (length sep >= 1) by (destruct Hsep; subst sep; cbn; lia). lia.
      * subst s. rewrite !rev_app_distr in Hend.
        destruct Hsep; subst sep.
        -- cbn [rev app] in *.
           destruct (rev a' ++ [a0]) as [|x xs] eqn:Ea.
           { apply app_eq_nil in Ea. destruct Ea; discriminate. }
           cbn [app Strings.has_prefix] in *. exact Hend.
        -- cbn [rev app] in *.
           destruct (rev a' ++ [a0]) as [|x xs] eqn:Ea.
           { apply app_eq_nil in Ea. destruct Ea; discriminate. }
           destruct xs as [|x' xs'].
           ++ cbn [app Strings.has_prefix] in Hend.
              apply andb_true_iff in Hend. destruct Hend as [_ Hend].
              apply andb_true_iff in Hend. destruct Hend as [Hend _].
              discriminate Hend.
           ++ cbn [app Strings.has_prefix] in *. exact Hend.
Qed.

Lemma Split_bytes (content sep : string) :
  s2b sep <> [] ->
  Strings.Split content sep
  = map b2s (Strings.split (length (s2b content)) (s2b content) (s2b sep)).
Proof.
  intros Hsep. unfold Strings.Split. destruct (s2b sep); [congruence | reflexivity].
Qed.

Lemma Join_Split (content sep : string) :
  s2b sep <> [] -> Strings.Join (Strings.Split content sep) sep = content.
Proof.
  intros Hsep. rewrite Split_bytes by exact Hsep.
  apply s2b_inj. rewrite s2b_Join. apply joined_split.
Qed.

Lemma last_map_b2s (l : list bytes) (d : bytes) :
  List.last (map b2s l) (b2s d) = b2s (List.last l d).
Proof.
  induction l as [|x l IH]; [reflexivity|].
  destruct l as [|y l]; [reflexivity|]. exact IH.
Qed.

Lemma removelast_last {A} (l : list A) (d : A) :
  l <> [] -> removelast l ++ [List.last l d] = l.
Proof. intros H. symmetry. now apply app_removelast_last. Qed.

Lemma string_app_nil_r (s : string) : (s ++ "")%string = s.
Proof. apply s2b_inj. rewrite s2b_app. apply app_nil_r. Qed.

(** What [read_lines] returns describes the content. *)
Lemma lines_of_content (content : string) :
  let sep := if Strings.Contains content CRLF then CRLF else LF in
  let finalNewline := Strings.HasSuffix content sep in
  let linesArr := Strings.Split content sep in
  let linesArr :=
    if finalNewline && (0 <? length linesArr)%nat
       && String.eqb (List.last linesArr "x") ""
    then removelast linesArr else linesArr in
  (if finalNewline then (Strings.Join linesArr sep ++ sep)%string
   else Strings.Join linesArr sep) = content.
Proof.
  intros sep.
  assert (Hsep : s2b sep = [nl] \/ s2b sep = [cr; nl]).
  { unfold sep. destruct (Strings.Contains content CRLF); [now right | now left]. }
  assert (Hne : s2b sep <> []) by (destruct Hsep as [-> | ->]; discriminate).
  cbn zeta. pose proof (Join_Split content sep Hne) as HJ.
  destruct (Strings.HasSuffix content sep) eqn:Hfin; cbn [andb]; [|exact HJ].
  assert (Hnonempty : Strings.Split content sep <> []).
  { rewrite Split_bytes by exact Hne. intros E. apply map_eq_nil in E.
    now apply split_nonempty in E. }
  assert (Hlast : List.last (Strings.Split content sep) "x" = "").
  { rewrite Split_bytes by exact Hne.
    rewrite (last_map_b2s _ (s2b "x")).
    assert (Hd : forall l d d', l <> [] -> @List.last bytes l d = List.last l d').
    { intros l d d' Hl. induction l as [|x l IH]; [congruence|].
      destruct l as [|y l]; [reflexivity|]. apply IH. discriminate. }
    rewrite (Hd _ _ [nl]) by apply split_nonempty.
    rewrite (split_last_empty (s2b sep) Hsep); [reflexivity | lia | exact Hfin]. }
  rewrite Hlast. cbn [String.eqb].
  destruct (Strings.Split content sep) as [|x l] eqn:Es; [congruence|].
  cbn [length Nat.ltb Nat.leb andb].
  pose proof (removelast_last (x :: l) "x" ltac:(discriminate)) as Hrl.
  rewrite Hlast in Hrl.
  destruct (removelast (x :: l)) as [|y l'] eqn:Er.
  - (* the content is empty and cannot end with the separator *)
    cbn [app] in Hrl. rewrite <- Hrl in HJ. cbn in HJ. subst content.
    destruct Hsep as [E|E]; unfold Strings.HasSuffix in Hfin; rewrite E in Hfin;
      discriminate Hfin.
  - rewrite <- Hrl in HJ. rewrite Strings_Join_app in HJ by discriminate.
    cbn [Strings.Join] in HJ. rewrite string_app_nil_r in HJ. exact HJ.
Qed.

(** X20.  [read_lines], then [write_lines].  Whatever a file holds, writing
    the lines that [read_lines] returns, with the separator and the
    final-newline flag that it returns, writes the same bytes as [write]
    with the content of the file. *)
Theorem read_lines_write_lines_roundtrip {T : Type} `{FS T}
    (fs fs1 : T) (p content : string) :
  fs_Read fs p = (fs1, Ok content) ->
  exists r,
    luaReadLines fs p = (fs1, Ok r)
    /\ forall (fs' : T) (q : string),
         luaWriteLines fs' q (lines r) (Some (separator r)) (Some (finalNewline r))
         = luaWrite fs' q content.
Proof.
  intros Hread. unfold luaReadLines. rewrite Hread. eexists. split; [reflexivity|].
  intros fs' q. unfold luaWriteLines, luaWrite.
  cbn [lines separator finalNewline default from_option id].
  now rewrite (lines_of_content content).
Qed.

Definition lines_example_content : string := ("alpha" ++ CRLF ++ "beta" ++ CRLF)%string.

Lemma read_lines_write_lines_roundtrip_witness :
  let fs := fst (luaWrite InMemory.New "notes.txt" lines_example_content) in
  fs_Read fs "notes.txt" = (fst (fs_Read fs "notes.txt"), Ok lines_example_content)
  /\ exists r,
       luaReadLines fs "notes.txt" = (fst (fs_Read fs "notes.txt"), Ok r)
       /\ forall (fs' : InMemoryFS) (q : string),
            luaWriteLines fs' q (lines r) (Some (separator r)) (Some (finalNewline r))
            = luaWrite fs' q lines_example_content.
Proof.
  intros fs.
  assert (Hr : fs_Read fs "notes.txt"
               = (fst (fs_Read fs "notes.txt"), Ok lines_example_content))
    by (vm_compute; reflexivity).
  split; [exact Hr|].
  exact (read_lines_write_lines_roundtrip fs _ "notes.txt" lines_example_content Hr).
Defined.

(** ** Copying *)

(** X21.  A [copy] that succeeds, in any state that a script can reach: both
    names resolve, the source was a regular file, the destination holds its
    bytes afterwards, and every other regular file is kept. *)
Theorem copy_writes_the_bytes_read (pi : RPackInstance) (script : list lua_call)
    (d0 : disk) (in_ out : string) (st1 : RPackFS * disk) :
  let st := fst (ExecuteLua script (initial_fs pi, d0)) in
  luaCopy st in_ out = (st1, None) ->
  exists hin hout content,
    resolve (BaseFS_ (fst st)) in_ = Ok hin
    /\ resolve (BaseFS_ (fst st)) out = Ok hout
    /\ OS.ReadFile (snd st) (absPath hin) = Ok content
    /\ OS.ReadFile (snd st1) (absPath hout) = Ok content
    /\ forall P c, P <> absPath hout ->
         OS.node_at (snd st) P = Some (File c) -> OS.node_at (snd st1) P = Some (File c).
Proof.
  intros st. destruct (sandboxed_run pi script d0) as (_ & (recs & Hrec) & _).
  fold st in Hrec. unfold luaCopy. cbn [fs_Read fs_Write RPackFS_FS].
  pose proof (Read_quiet (BaseFS_ (fst st)) (snd st) in_) as [Hrs Hq].
  unfold Base.Read in *.
  destruct (resolve (BaseFS_ (fst st)) in_) as [hin|e] eqn:Hin; [|discriminate].
  destruct (run_hooks FSAccessTypeRead (Hooks (BaseFS_ (fst st))) hin) as [hooks [e|]];
    [discriminate|].
  cbn [fst] in Hrs, Hq. unfold Handle_Read.
  destruct (OS.ReadFile (snd st) (absPath hin)) as [content|e] eqn:Hread; [|discriminate].
  cbn [fst snd BaseFS_].
  destruct (Hq recs Hrec) as (recs' & Hrec' & _).
  destruct (Base.Write (with_hooks (BaseFS_ (fst st)) hooks) (snd st) out content)
    as [[fs' d'] e] eqn:Hw.
  destruct e as [e|]; [discriminate|]. intros [= <-]. cbn [fst snd].
  destruct (Write_ok _ _ _ _ _ _ recs' Hrec' Hw) as (hout & Hout & _ & _ & Hhw).
  apply Handle_Write_ok in Hhw. destruct Hhw as [Hat Hother].
  exists hin, hout, content. split; [reflexivity|]. split; [exact Hout|].
  split; [exact Hread|]. split; [now apply ReadFile_file | exact Hother].
Qed.

Lemma copy_writes_the_bytes_read_witness :
  let st := fst (ExecuteLua [] (initial_fs commit_example_pi, copy_example_disk)) in
  luaCopy st "rpack:a.txt" "b.txt" = (fst (luaCopy st "rpack:a.txt" "b.txt"), None)
  /\ OS.ReadFile (snd (fst (luaCopy st "rpack:a.txt" "b.txt"))) "/cache/run/b.txt"
     = Ok "hello".
Proof.
  intros st.
  assert (Hc : luaCopy st "rpack:a.txt" "b.txt"
               = (fst (luaCopy st "rpack:a.txt" "b.txt"), None))
    by (vm_compute; reflexivity).
  split; [exact Hc|].
  destruct (copy_writes_the_bytes_read commit_example_pi [] copy_example_disk
              "rpack:a.txt" "b.txt" _ Hc)
    as (hin & hout & content & Hin & Hout & Hread & Hwritten & _).
  assert (Hin' : resolve (BaseFS_ (fst st)) "rpack:a.txt"
                 = Ok (NewFileBackedFSHandle "/cache/src/a.txt" "rpack:a.txt"
                         RPackResolver "a.txt")) by (vm_compute; reflexivity).
  assert (Hout' : resolve (BaseFS_ (fst st)) "b.txt"
                  = Ok (NewFileBackedFSHandle "/cache/run/b.txt" "b.txt"
                          TargetResolver "b.txt")) by (vm_compute; reflexivity).
  fold st in Hin, Hout, Hread.
  rewrite Hin' in Hin. rewrite Hout' in Hout.
  injection Hin as <-. injection Hout as <-.
  assert (Hd : OS.ReadFile (snd st) "/cache/src/a.txt" = Ok "hello")
    by (vm_compute; reflexivity).
  cbn [absPath] in Hread, Hwritten.
  rewrite Hd in Hread. injection Hread as <-. exact Hwritten.
Defined.

(** ** Where [LoadRPack] puts the run directory *)

Definition hex_digits : bytes := s2b "0123456789abcdef".

Lemma hex_digit_In (x : Z) : In (Sha256.hex_digit x) hex_digits.
Proof.
  unfold Sha256.hex_digit. fold hex_digits.
  destruct (Nat.lt_ge_cases (Z.to_nat x) (length hex_digits)) as [Hlt|Hge].
  - now apply nth_In.
  - rewrite nth_overflow by exact Hge. now left.
Qed.

Lemma hex_bytes (bs : list Z) :
  Forall (fun c => In c hex_digits) (s2b (Sha256.hex bs)).
Proof.
  unfold Sha256.hex. rewrite s2b_b2s. induction bs as [|b bs IH]; cbn [map concat app].
  - constructor.
  - constructor; [apply hex_digit_In|]. constructor; [apply hex_digit_In | exact IH].
Qed.

Lemma round_length (st : list Z) (kw : Z * Z) :
  length st = 8%nat -> length (Sha256.round st kw) = 8%nat.
Proof.
  intros H. do 9 (destruct st as [|? st]; try discriminate H). reflexivity.
Qed.

Lemma rounds_length (kws : list (Z * Z)) (st : list Z) :
  length st = 8%nat -> length (fold_left Sha256.round kws st) = 8%nat.
Proof.
  revert st. induction kws as [|kw kws IH]; intros st H; cbn [fold_left]; [exact H|].
  apply IH. now apply round_length.
Qed.

Lemma compress_length (h block : list Z) :
  length h = 8%nat -> length (Sha256.compress h block) = 8%nat.
Proof.
  intros H. unfold Sha256.compress.
  rewrite List.length_map, List.length_combine, rounds_length by exact H.
  rewrite H. reflexivity.
Qed.

Lemma blocks_length (fuel : nat) (ws h : list Z) :
  length h = 8%nat -> length (Sha256.blocks fuel ws h) = 8%nat.
Proof.
  revert ws h. induction fuel as [|fuel IH]; intros ws h H; cbn [Sha256.blocks];
    [exact H|].
  destruct ws as [|w ws]; [exact H|]. apply IH. now apply compress_length.
Qed.

(** A checksum in hexadecimal is an element of a path. *)
Lemma Sha256String_path_element (s : string) : path_element (Util.Sha256String s).
Proof.
  assert (Hhex : Forall (fun c => In c hex_digits) (s2b (Util.Sha256String s)))
    by apply hex_bytes.
  assert (Hne : exists c rest, s2b (Util.Sha256String s) = c :: rest).
  { unfold Util.Sha256String, Sha256.Sum, Sha256.hex, Sha256.sum256. rewrite s2b_b2s.
    set (p := Sha256.pad _). set (ws := Sha256.words _ p).
    pose proof (blocks_length (length ws) ws Sha256.H0 eq_refl) as Hlen.
    destruct (Sha256.blocks (length ws) ws Sha256.H0) as [|x xs]; [discriminate Hlen|].
    cbn [map concat Sha256.be_bytes seq app]. eauto. }
  destruct Hne as (c & rest & E).
  assert (Hc : In c hex_digits).
  { rewrite E in Hhex. now apply List.Forall_inv in Hhex. }
  assert (Hinj : forall t, Util.Sha256String s = t -> s2b t = c :: rest)
    by (intros t <-; exact E).
  split; [|split; [|split]].
  - intros H. apply Hinj in H. discriminate H.
  - intros H. apply Hinj in H. injection H as <- _.
    vm_compute in Hc. intuition discriminate.
  - intros H. apply Hinj in H. injection H as <- _.
    vm_compute in Hc. intuition discriminate.
  - unfold Strings.Contains. change (s2b "/") with [Filepath.Separator].
    assert (Hns : CleanPaths.no_sep (s2b (Util.Sha256String s))).
    { unfold CleanPaths.no_sep. eapply List.Forall_impl; [|exact Hhex].
      intros a Ha. vm_compute in Ha.
      repeat (destruct Ha as [<-|Ha]; [reflexivity|]). destruct Ha. }
    apply no_sep_cut in Hns. now rewrite Hns.
Qed.

Lemma Join_three (a b c : string) :
  b <> "" -> Filepath.Join [a; b; c] = Filepath.Join [a; (b ++ "/" ++ c)%string].
Proof.
  intros Hb. unfold Filepath.Join.
  destruct (String.eqb a ""); [|reflexivity].
  rewrite (string_eqb_false b "") by exact Hb.
  destruct b as [|x b]; [congruence|]. reflexivity.
Qed.

(** The run directory of a pack, seen from the exec path. *)
Definition run_directory (source configPath : string) : string :=
  Strings.Join [RPackCacheDir; Util.Sha256String source; Util.Sha256String configPath;
                RPackCacheDirRun] "/".

Lemma cache_dir_element : path_element RPackCacheDir.
Proof. repeat split; discriminate. Qed.

Lemma run_dir_element : path_element RPackCacheDirRun.
Proof. repeat split; discriminate. Qed.

Lemma run_directory_local (source configPath : string) :
  relative_local (run_directory source configPath)
  /\ run_directory source configPath <> ".".
Proof.
  split.
  - apply lexically_local_relative_local. right.
    exists [RPackCacheDir; Util.Sha256String source; Util.Sha256String configPath;
            RPackCacheDirRun].
    split; [discriminate|]. split; [|reflexivity].
    repeat constructor;
      first [apply cache_dir_element | apply run_dir_element
            | apply Sha256String_path_element].
  - discriminate.
Qed.

Lemma RunPath_layout (source configPath execPath : string)
    (inputs : list RPackResolvedInput) :
  RunPath (LoadRPack_paths source configPath execPath inputs)
  = below execPath (run_directory source configPath).
Proof.
  pose proof (Sha256String_path_element source) as Hs.
  pose proof (Sha256String_path_element configPath) as Hk.
  set (S1 := Util.Sha256String source) in *.
  set (S2 := Util.Sha256String configPath) in *.
  assert (Hu1 : relative_local (RPackCacheDir ++ "/" ++ S1)%string).
  { apply lexically_local_relative_local. right. exists [RPackCacheDir; S1].
    split; [discriminate|]. split; [|reflexivity].
    constructor; [apply cache_dir_element|]. constructor; [exact Hs | constructor]. }
  assert (Hu2 : relative_local (S2 ++ "/" ++ RPackCacheDirRun)%string).
  { apply lexically_local_relative_local. right. exists [S2; RPackCacheDirRun].
    split; [discriminate|]. split; [|reflexivity].
    constructor; [exact Hk|]. constructor; [apply run_dir_element | constructor]. }
  unfold LoadRPack_paths. cbn [RunPath]. fold S1 S2.
  rewrite (Join_three execPath) by discriminate.
  rewrite (Join_three _ S2) by apply Hk.
  rewrite !Join_below by assumption.
  rewrite below_assoc by assumption. f_equal.
  rewrite below_local; [reflexivity | exact Hu1 | discriminate |].
  destruct Hk as (Hne & _). destruct S2 as [|x S2]; [congruence|].
  destruct S2; discriminate.
Qed.

(** X22.  Where [LoadRPack] puts the run directory:
    [.rpack.d/<sha of the source>/<sha of the config path>/run] below the
    exec path.  So a clean, relative, local target path [p] is committed
    onto the staged file of the target path [q] exactly when [p] is [q]
    below that directory, and every such [p] starts with [.rpack.d/]. *)
Theorem committed_path_onto_staged_file (source configPath execPath : string)
    (inputs : list RPackResolvedInput) (p q : string) :
  relative_local p -> relative_local q ->
  (moved_to execPath p
   = staged (RunPath (LoadRPack_paths source configPath execPath inputs)) q
   <-> p = below (run_directory source configPath) q)
  /\ (moved_to execPath p
      = staged (RunPath (LoadRPack_paths source configPath execPath inputs)) q ->
      Strings.HasPrefix p (RPackCacheDir ++ "/") = true).
Proof.
  intros Hp Hq.
  destruct (run_directory_local source configPath) as [Hrd Hrdd].
  assert (Hb : relative_local (below (run_directory source configPath) q))
    by now apply below_relative_local.
  assert (Hiff : moved_to execPath p
                 = staged (RunPath (LoadRPack_paths source configPath execPath inputs)) q
                 <-> p = below (run_directory source configPath) q).
  { unfold moved_to, staged. rewrite RunPath_layout.
    rewrite !staged_path_clean by assumption.
    rewrite (Join_below (below execPath _) q) by exact Hq.
    rewrite below_assoc by assumption.
    rewrite <- (Join_below execPath (below _ q)) by exact Hb.
    split; [|now intros ->].
    now apply staged_path_injective. }
  split; [exact Hiff|].
  intros H. apply Hiff in H. subst p.
  unfold Strings.HasPrefix.
  destruct (string_dec q ".") as [->|Hqd].
  - unfold below. rewrite (string_eqb_false _ "") by (now apply relative_local_nonempty).
    cbn [String.eqb Ascii.eqb Bool.eqb]. destruct Hrd as [-> _].
    change (run_directory source configPath)
      with ((RPackCacheDir ++ "/")
            ++ Strings.Join [Util.Sha256String source; Util.Sha256String configPath;
                             RPackCacheDirRun] "/")%string.
    rewrite s2b_app. apply has_prefix_app.
  - rewrite below_local by assumption.
    change (run_directory source configPath ++ "/" ++ q)%string
      with ((RPackCacheDir ++ "/")
            ++ (Strings.Join [Util.Sha256String source; Util.Sha256String configPath;
                              RPackCacheDirRun] "/" ++ "/" ++ q))%string.
    rewrite s2b_app. apply has_prefix_app.
Qed.

Lemma committed_path_onto_staged_file_witness :
  relative_local overlap_example_inner /\ relative_local "x"
  /\ overlap_example_inner = below (run_directory "./pack" "/exec") "x"
  /\ moved_to "/exec" overlap_example_inner = staged (RunPath overlap_example_pi) "x".
Proof.
  assert (Hp : relative_local overlap_example_inner)
    by (repeat split; vm_compute; reflexivity).
  assert (Hq : relative_local "x") by (repeat split; vm_compute; reflexivity).
  assert (He : overlap_example_inner = below (run_directory "./pack" "/exec") "x")
    by (vm_compute; reflexivity).
  split; [exact Hp|]. split; [exact Hq|]. split; [exact He|].
  exact (proj2 (proj1 (committed_path_onto_staged_file "./pack" "/exec" "/exec" []
                         overlap_example_inner "x" Hp Hq)) He).
Defined.

(** ** Files that are no longer maintained *)







(** ** [filepath.base] and [filepath.ext] *)

(** The bytes of the reversed path before its first separator. *)
Fixpoint head_elem (rpath : bytes) : bytes :=
  match rpath with
  | [] => []
  | c :: r => if Filepath.IsPathSeparator c then [] else c :: head_elem r
  end.

Lemma take_last_elem_head (r : bytes) :
  forall acc, Filepath.take_last_elem r acc = rev (head_elem r) ++ acc.
Proof.
  induction r as [|c r IH]; intros acc; cbn [Filepath.take_last_elem head_elem];
    [reflexivity|].
  destruct (Filepath.IsPathSeparator c); [reflexivity|].
  rewrite IH. cbn [rev]. now rewrite <- app_assoc.
Qed.

Lemma ext_head_elem (r : bytes) :
  forall acc, Filepath.ext (head_elem r) acc = Filepath.ext r acc.
Proof.
  induction r as [|c r IH]; intros acc; cbn [Filepath.ext head_elem]; [reflexivity|].
  destruct (Filepath.IsPathSeparator c) eqn:Ec; [reflexivity|].
  cbn [Filepath.ext]. rewrite Ec. destruct (ascii_eqb c "."); [reflexivity | apply IH].
Qed.

Definition plain (c : ascii) : Prop :=
  Filepath.IsPathSeparator c = false /\ ascii_eqb c "." = false.

Lemma ext_shape (r : bytes) :
  forall acc, Forall plain acc ->
    (Filepath.ext r acc = []
     \/ exists rest, Filepath.ext r acc = "."%char :: rest /\ Forall plain rest)
    /\ exists pre, rev r ++ acc = pre ++ Filepath.ext r acc.
Proof.
  induction r as [|c r IH]; intros acc Hacc; cbn [Filepath.ext].
  - split; [now left|]. exists (rev [] ++ acc). now rewrite app_nil_r.
  - destruct (Filepath.IsPathSeparator c) eqn:Ec.
    { split; [now left|]. exists (rev (c :: r) ++ acc). now rewrite app_nil_r. }
    destruct (ascii_eqb c ".") eqn:Ed.
    { apply CleanPaths.ascii_eqb_eq in Ed. subst c. split.
      - right. eauto.
      - exists (rev r). cbn [rev]. now rewrite <- app_assoc. }
    destruct (IH (c :: acc)) as [Hshape (pre & Hpre)].
    { constructor; [now split | exact Hacc]. }
    split; [exact Hshape|]. exists pre. cbn [rev]. now rewrite <- app_assoc.
Qed.

Lemma plain_no_cut (l : bytes) :
  Forall plain l ->
  Strings.cut l [Filepath.Separator] = None /\ Strings.cut l ["."%char] = None.
Proof.
  induction 1 as [|c l [Hs Hd] _ [IH1 IH2]]; [split; reflexivity|].
  split; rewrite cut_cons; cbn [Strings.has_prefix]; rewrite andb_true_r.
  - rewrite ascii_eqb_sym. fold (Filepath.IsPathSeparator c). now rewrite Hs, IH1.
  - rewrite ascii_eqb_sym, Hd. now rewrite IH2.
Qed.

(** X24.  [filepath.base] and [filepath.ext].  The base is never empty, and
    it is [/] or holds no slash; for a path with a non-empty file part it is
    the file part of [filepath.split].  The extension is a suffix of the
    path, empty or a dot followed by bytes other than dots and slashes, and
    it is the extension of the file part. *)
Theorem lua_base_and_ext (path : string) :
  luaFilepathBase path <> ""
  /\ (luaFilepathBase path = "/"
      \/ Strings.Contains (luaFilepathBase path) "/" = false)
  /\ (snd (luaFilepathSplit path) <> "" ->
      luaFilepathBase path = snd (luaFilepathSplit path))
  /\ Strings.HasSuffix path (luaFilepathExt path) = true
  /\ (luaFilepathExt path = ""
      \/ exists rest, luaFilepathExt path = String "."%char rest
                      /\ Strings.Contains rest "." = false
                      /\ Strings.Contains rest "/" = false)
  /\ luaFilepathExt (snd (luaFilepathSplit path)) = luaFilepathExt path.
Proof.
  unfold luaFilepathBase, luaFilepathExt, luaFilepathSplit, Filepath.Base, Filepath.Ext,
    Filepath.Split. cbn [snd].
  remember (rev (s2b path)) as rpath eqn:Hrp.
  assert (Hbase : forall e, e <> [] -> b2s e <> "").
  { intros e He E. apply He. apply (f_equal s2b) in E. now rewrite s2b_b2s in E. }
  split; [|split; [|split; [|split; [|split]]]].
  - destruct (String.eqb path ""); [discriminate|].
    destruct (Filepath.take_last_elem (Filepath.strip_separators rpath) []) eqn:E;
      [discriminate|]. now apply Hbase.
  - destruct (String.eqb path ""); [now right|].
    pose proof (take_last_elem_no_sep (Filepath.strip_separators rpath) []
                  (List.Forall_nil _)) as Hns.
    destruct (Filepath.take_last_elem (Filepath.strip_separators rpath) []) eqn:E;
      [now left|]. right.
    unfold Strings.Contains. rewrite s2b_b2s. change (s2b "/") with [Filepath.Separator].
    apply no_sep_cut in Hns. now rewrite Hns.
  - intros Hne.
    assert (Hr : exists c r, rpath = c :: r /\ Filepath.IsPathSeparator c = false).
    { destruct rpath as [|c r]; [now contradiction Hne|].
      cbn [Filepath.take_last_elem] in Hne.
      destruct (Filepath.IsPathSeparator c) eqn:Ec; [now contradiction Hne|]. eauto. }
    destruct Hr as (c & r & Hr & Hc).
    assert (Hp : String.eqb path "" = false).
    { apply string_eqb_false. intros ->. rewrite Hr in Hrp. discriminate Hrp. }
    rewrite Hp, Hr. cbn [Filepath.strip_separators]. rewrite Hc.
    rewrite Hr in Hne.
    destruct (Filepath.take_last_elem (c :: r) []) eqn:E; [now contradiction Hne|].
    reflexivity.
  - destruct (ext_shape rpath [] (List.Forall_nil _)) as [_ (pre & Hpre)].
    unfold Strings.HasSuffix. rewrite s2b_b2s. rewrite app_nil_r in Hpre.
    rewrite Hrp in Hpre at 1. rewrite rev_involutive in Hpre. rewrite Hpre at 1.
    rewrite rev_app_distr. apply has_prefix_app.
  - destruct (ext_shape rpath [] (List.Forall_nil _)) as [[E|(rest & E & Hrest)] _];
      rewrite E; [now left|]. right. exists (b2s rest). split; [reflexivity|].
    destruct (plain_no_cut rest Hrest) as [H1 H2].
    unfold Strings.Contains. rewrite s2b_b2s.
    change (s2b ".") with ["."%char]. change (s2b "/") with [Filepath.Separator].
    now rewrite H1, H2.
  - rewrite s2b_b2s, take_last_elem_head, app_nil_r, rev_involutive.
    now rewrite ext_head_elem.
Qed.

(** ** Rooted paths *)

Lemma IsAbs_bytes (p : string) :
  Filepath.IsAbs p = match s2b p with
                     | c :: _ => Filepath.IsPathSeparator c
                     | [] => false
                     end.
Proof.
  unfold Filepath.IsAbs, Strings.HasPrefix. change (s2b "/") with [Filepath.Separator].
  destruct (s2b p) as [|c r]; [reflexivity|].
  cbn [Strings.has_prefix]. rewrite andb_true_r, ascii_eqb_sym. reflexivity.
Qed.

(** The cleaned form of a path that is not rooted does not start with a
    separator. *)
Lemma rbuf_head_unrooted (k : nat) (stack : list bytes) :
  CleanPaths.good false k stack ->
  exists c r, CleanPaths.final (CleanPaths.rbuf false k stack) = c :: r
              /\ Filepath.IsPathSeparator c = false.
Proof.
  intros [_ Hst].
  destruct (CleanPaths.rbuf false k stack) as [|x xs] eqn:Hbuf.
  { exists CleanPaths.dot, []. split; reflexivity. }
  rewrite CleanPaths.final_nonempty by discriminate. rewrite <- Hbuf.
  assert (Hne : CleanPaths.rbuf false k stack <> []) by (rewrite Hbuf; discriminate).
  clear Hbuf x xs.
  assert (Hes : Forall CleanPaths.real (rev stack)) by (now apply List.Forall_rev).
  rewrite CleanPaths.rbuf_push_all in *. rewrite CleanPaths.rev_push_all.
  cbn [CleanPaths.rbase] in *. destruct k as [|k'].
  - cbn [CleanPaths.rdots rev app] in *. apply CleanPaths.canon_head.
    exists (rev stack). split; [|split; [assumption | reflexivity]].
    intros Hnil. apply Hne. rewrite Hnil. reflexivity.
  - pose proof (CleanPaths.rev_rdots 0 (S k')) as Hr. rewrite Nat.add_0_r in Hr.
    rewrite Hr. cbn [CleanPaths.rdots rev app CleanPaths.dots_text].
    unfold CleanPaths.need_sep. cbn [length Nat.eqb negb andb orb app].
    eexists _, _. split; reflexivity.
Qed.

Lemma Clean_keeps_rootedness (p : string) :
  Filepath.IsAbs (Filepath.Clean p) = Filepath.IsAbs p.
Proof.
  rewrite !IsAbs_bytes. unfold Filepath.Clean. rewrite s2b_b2s.
  destruct (CleanPaths.clean_shape (s2b p)) as (rooted & k & stack & Hg & Hc & Hroot).
  rewrite Hc. destruct rooted.
  - destruct (proj1 Hroot eq_refl) as (rest & Hp). rewrite Hp.
    assert (Hne : CleanPaths.rbuf true k stack <> []).
    { pose proof (CleanPaths.rbuf_length true k stack) as Hl.
      intros E. rewrite E in Hl. cbn in Hl. lia. }
    destruct (CleanPaths.rbuf_text true k stack Hg Hne) as [Ht _].
    destruct (Ht eq_refl) as (t & Hrev & _).
    rewrite CleanPaths.final_nonempty by exact Hne. rewrite Hrev. reflexivity.
  - destruct (rbuf_head_unrooted k stack Hg) as (c & r & -> & Hcs). rewrite Hcs.
    destruct (s2b p) as [|c0 r0]; [reflexivity|].
    destruct (Filepath.IsPathSeparator c0) eqn:E0; [|reflexivity].
    apply CleanPaths.IsPathSeparator_true in E0. subst c0.
    assert (false = true); [|discriminate]. apply Hroot. eauto.
Qed.

(** X25.  [filepath.clean] keeps a path rooted or not rooted; a rooted path
    is never local, and [filepath.join] with a rooted first argument is
    rooted. *)
Theorem lua_is_abs_of_clean_and_join (path : string) :
  luaFilepathIsAbs (luaFilepathClean path) = luaFilepathIsAbs path
  /\ (luaFilepathIsAbs path = true ->
      luaFilepathIsLocal path = false
      /\ forall second rest, luaFilepathIsAbs (luaFilepathJoin path second rest) = true).
Proof.
  unfold luaFilepathIsAbs, luaFilepathClean, luaFilepathIsLocal, luaFilepathJoin.
  split; [apply Clean_keeps_rootedness|]. intros Habs. split.
  - destruct (Filepath.IsLocal path) eqn:E; [|reflexivity].
    apply IsLocal_not_abs in E. congruence.
  - intros second rest. cbn [app]. unfold Filepath.Join.
    destruct (String.eqb path "") eqn:Ep.
    { apply String.eqb_eq in Ep. subst path. discriminate Habs. }
    rewrite Clean_keeps_rootedness.
    change (Strings.Join (path :: second :: rest) "/")
      with (path ++ "/" ++ Strings.Join (second :: rest) "/")%string.
    rewrite IsAbs_bytes in Habs |- *. rewrite s2b_app.
    destruct (s2b path) as [|c r]; [discriminate Habs | exact Habs].
Qed.

Lemma lua_is_abs_of_clean_and_join_witness :
  luaFilepathIsAbs "/a/../b" = true
  /\ luaFilepathIsLocal "/a/../b" = false
  /\ luaFilepathIsAbs (luaFilepathJoin "/a/../b" "c" []) = true.
Proof.
  assert (Habs : luaFilepathIsAbs "/a/../b" = true) by reflexivity.
  split; [exact Habs|].
  destruct (proj2 (lua_is_abs_of_clean_and_join "/a/../b") Habs) as [Hl Hj].
  split; [exact Hl | apply Hj].
Defined.
